(** * DCT steganography: the embed / extract codec of [dct_steganography.py]

    The development embeds the body of the [DCTSteganography] class:
    block partitioning of a grayscale sample grid, the separable
    orthonormal DCT of an 8x8 block, the sign-encoding of one bit in the
    coefficient at (4, 5), and the framing of a text message as a bit
    stream with a zero terminator.

    Numeric model.  Samples of a loaded image are unsigned 8-bit integers,
    here [Z].  The working copy and the frequency blocks are [float32]
    arrays in the source; they are modelled by exact real numbers [R], so
    every statement about transformed values is a statement about the
    exact arithmetic the floating-point code approximates.  The control
    flow (loops, breaks, capacity check, framing, filtering) is modelled
    as written. *)

From Stdlib Require Import List Arith ZArith NArith PArith Bool Lia.
From Stdlib Require Import Reals Lra.
Import ListNotations.

Local Open Scope nat_scope.

(** ** Python sequences *)

Module Py.

(** [range(0, stop, step)] for a positive [step]. *)
Definition range (stop step : nat) : list nat :=
  map (fun k => k * step) (seq 0 ((stop + step - 1) / step)).

(** [l[i:j]] for [0 <= i <= j]. *)
Definition slice {A : Type} (l : list A) (i j : nat) : list A :=
  firstn (j - i) (skipn i l).

(** [l[-n:]]: the last [n] elements, the whole list when it is shorter. *)
Definition last_n {A : Type} (n : nat) (l : list A) : list A :=
  skipn (length l - n) l.

(** [l[:-n]]: all but the last [n] elements. *)
Definition drop_last_n {A : Type} (n : nat) (l : list A) : list A :=
  firstn (length l - n) l.

(** [l[i] = v] on a list; the codec only writes inside 8x8 blocks, where
    the index is in range (Python raises [IndexError] otherwise). *)
Fixpoint list_set {A : Type} (l : list A) (i : nat) (v : A) : list A :=
  match l, i with
  | [], _ => []
  | _ :: t, O => v :: t
  | h :: t, S i' => h :: list_set t i' v
  end.

End Py.

(** ** Two-dimensional arrays *)

Module Grid.

(** A 2-D array is the list of its rows.  [shape] is numpy's
    [(rows, columns)]; an array without rows is given 0 columns (numpy
    keeps the column count of an empty slice, which the codec only
    multiplies by the zero row count). *)
Definition shape {A : Type} (a : list (list A)) : nat * nat :=
  (length a, length (hd [] a)).

Definition entry {A : Type} (d : A) (a : list (list A)) (i j : nat) : A :=
  nth j (nth i a []) d.

(** [a[:h, :w]] *)
Definition crop {A : Type} (a : list (list A)) (h w : nat) : list (list A) :=
  map (firstn w) (firstn h a).

(** [a[y:y+8, x:x+8]] *)
Definition get_block {A : Type} (a : list (list A)) (y x : nat) : list (list A) :=
  map (fun row => Py.slice row x (x + 8)) (Py.slice a y (y + 8)).

Definition in_window (o i : nat) : bool := (o <=? i) && (i <? o + 8).

(** [a[y:y+8, x:x+8] = b]: the array of the same shape whose entries
    inside the 8x8 window are those of [b] and whose other entries are
    those of [a]. *)
Definition set_block {A : Type} (d : A) (a : list (list A)) (y x : nat)
    (b : list (list A)) : list (list A) :=
  map (fun i =>
         map (fun j =>
                if in_window y i && in_window x j
                then entry d b (i - y) (j - x)
                else entry d a i j)
             (seq 0 (length (nth i a []))))
      (seq 0 (length a)).

(** [a[i, j] = v] *)
Definition set_entry {A : Type} (a : list (list A)) (i j : nat) (v : A)
    : list (list A) :=
  Py.list_set a i (Py.list_set (nth i a []) j v).

(** All rows have [w] entries and there are [h] of them. *)
Definition has_shape {A : Type} (h w : nat) (a : list (list A)) : Prop :=
  length a = h /\ Forall (fun row => length row = w) a.

End Grid.

(** ** Text framing: message <-> bit stream *)

Module Framing.

(** A Python [str] is the list of its code points ([ord] of each
    character); a bit string over ['0'] and ['1'] is a [list bool]. *)
#[warnings="-notation-for-abbreviation"]
Notation str := (list N) (only parsing).
#[warnings="-notation-for-abbreviation"]
Notation bits := (list bool) (only parsing).

Fixpoint pos_digits (p : positive) (acc : bits) : bits :=
  match p with
  | xH => true :: acc
  | xO q => pos_digits q (false :: acc)
  | xI q => pos_digits q (true :: acc)
  end.

(** [format(n, 'b')]: binary digits, most significant first. *)
Definition bin (n : N) : bits :=
  match n with
  | N0 => [false]
  | Npos p => pos_digits p []
  end.

(** [format(n, '08b')]: zero-padded on the left to at least 8 digits. *)
Definition format_08b (n : N) : bits :=
  repeat false (8 - length (bin n)) ++ bin n.

(** ['00000000'] *)
Definition terminator : bits := repeat false 8.

(** [''.join(format(ord(char), '08b') for char in message) + '00000000'] *)
Definition binary_message (message : str) : bits :=
  concat (map format_08b message) ++ terminator.

(** [int(chunk, 2)]: the digits are read most significant first. *)
Definition int2_step (acc : N) (b : bool) : N :=
  (2 * acc + (if b then 1 else 0))%N.

Definition int2 (chunk : bits) : N :=
  fold_left int2_step chunk 0%N.

(** Equality of two bit strings. *)
Fixpoint bits_eqb (a b : bits) : bool :=
  match a, b with
  | [], [] => true
  | x :: a', y :: b' => Bool.eqb x y && bits_eqb a' b'
  | _, _ => false
  end.

(** [32 <= char_code <= 126 or char_code in [9, 10, 13]] *)
Definition printable (c : N) : bool :=
  ((32 <=? c)%N && (c <=? 126)%N)
  || (c =? 9)%N || (c =? 10)%N || (c =? 13)%N.

(** [[bits[i:i+8] for i in range(0, len(bits), 8)]] *)
Definition binary_chunks (extracted_bits : bits) : list bits :=
  map (fun i => Py.slice extracted_bits i (i + 8))
      (Py.range (length extracted_bits) 8).

(** The body of the decoding loop: one chunk appended to the message
    built so far.  [int(chunk, 2)] cannot raise on a chunk of ['0'] and
    ['1'], so the [except ValueError] branch is never taken. *)
Definition decode_chunk (extracted_message : str) (chunk : bits) : str :=
  if length chunk =? 8 then
    let char_code := int2 chunk in
    if printable char_code then extracted_message ++ [char_code]
    else extracted_message
  else extracted_message.

Definition decode (extracted_bits : bits) : str :=
  fold_left decode_chunk (binary_chunks extracted_bits) [].

End Framing.

(** ** The block transform: [scipy.fft.dct] / [idct], type 2, [norm='ortho']

    [scipy] is an external library.  Its transforms are modelled from
    their documented definition: with [norm='ortho'] the DCT of type 2 is
    [y[k] = 2 f sum_n x[n] cos(pi k (2n+1) / (2N))], where [f] is
    [sqrt(1/(4N))] for [k = 0] and [sqrt(1/(2N))] otherwise, and [idct]
    is the DCT of type 3 with the same scaling, its inverse.  [2 f] is
    [scale] below. *)

Module Transform.

Local Open Scope R_scope.

(** [sum_n N f] is [f 0 + ... + f (N-1)]. *)
Fixpoint sum_n (N : nat) (f : nat -> R) : R :=
  match N with
  | O => 0
  | S n => sum_n n f + f n
  end.

(** Orthonormal scaling: [sqrt(1/N)] for the constant term and
    [sqrt(2/N)] for the others. *)
Definition scale (N k : nat) : R :=
  if Nat.eqb k 0 then sqrt (1 / INR N) else sqrt (2 / INR N).

(** Entry [(k, n)] of the orthonormal DCT-II matrix of order [N]:
    [scale k * cos(pi * (2n+1) * k / (2N))]. *)
Definition basis (N k n : nat) : R :=
  scale N k * cos (PI * (2 * INR n + 1) * INR k / (2 * INR N)).

(** A 1-D transform with kernel [K]: output [o] is
    [sum_i x[i] * K N o i], with [N = len(x)]. *)
Definition apply_kernel (K : nat -> nat -> nat -> R) (x : list R) : list R :=
  let N := length x in
  map (fun o => sum_n N (fun i => nth i x 0 * K N o i)) (seq 0 N).

(** [dct(x, norm='ortho')]: [y[k] = sum_n x[n] * basis k n]. *)
Definition dct : list R -> list R :=
  apply_kernel basis.

(** [idct(y, norm='ortho')]: [x[n] = sum_k y[k] * basis k n]. *)
Definition idct : list R -> list R :=
  apply_kernel (fun N n k => basis N k n).

Definition column (j : nat) (a : list (list R)) : list R :=
  map (fun row => nth j row 0) a.

Definition transpose (a : list (list R)) : list (list R) :=
  map (fun j => column j a) (seq 0 (length (hd [] a))).

(** [f(a, axis=0)] transforms every column, [f(a, axis=1)] every row. *)
Definition along_axis0 (f : list R -> list R) (a : list (list R)) :=
  transpose (map f (transpose a)).

Definition along_axis1 (f : list R -> list R) (a : list (list R)) :=
  map f a.

(** [dct(dct(block, axis=0, norm='ortho'), axis=1, norm='ortho')] *)
Definition dct2 (block : list (list R)) : list (list R) :=
  along_axis1 dct (along_axis0 dct block).

(** [idct(idct(dct_block, axis=0, norm='ortho'), axis=1, norm='ortho')] *)
Definition idct2 (dct_block : list (list R)) : list (list R) :=
  along_axis1 idct (along_axis0 idct dct_block).

End Transform.

(** ** The codec

    [embed] and [extract] are modelled from the point where the image has
    been read: a failed [cv2.imread] returns before any of the code below
    runs, and writing the stego image is the caller's business. *)

Module Codec.

Import Framing.

Definition block_size : nat := 8.

(** [.astype(np.float32)] of 8-bit samples. *)
Definition astype_float (a : list (list Z)) : list (list R) :=
  map (map IZR) a.

(** [np.clip(v, 0, 255)], i.e. [minimum(255, maximum(v, 0))]. *)
Definition clip (v : R) : R := Rmin 255 (Rmax v 0).

(** [.astype(np.uint8)] of a value already clipped to [0, 255]:
    truncation, which on non-negative values is the integer part. *)
Definition astype_uint8 (v : R) : Z := Int_part v.

(** [np.clip(stego_image, 0, 255).astype(np.uint8)] *)
Definition quantize (a : list (list R)) : list (list Z) :=
  map (map (fun v => astype_uint8 (clip v))) a.

Definition total_blocks {A : Type} (image : list (list A)) : nat :=
  (fst (Grid.shape image) / block_size) * (snd (Grid.shape image) / block_size).

(** *** Embedder *)

(** Lines 40-46 of [embed]. *)
Definition embed_truncate (image : list (list Z)) : list (list Z) :=
  let '(h, w) := Grid.shape image in
  let new_h := if negb (h mod block_size =? 0) then h - h mod block_size else h in
  let new_w := if negb (w mod block_size =? 0) then w - w mod block_size else w in
  if negb (new_h =? h) || negb (new_w =? w)
  then Grid.crop image new_h new_w
  else image.

(** Lines 78-81: the new value of the coefficient for one bit. *)
Definition encode_sign (alpha : R) (bit : bool) (c : R) : R :=
  if bit then (Rabs c + alpha)%R else (- Rabs c - alpha)%R.

(** [dct_block[4, 5] = ...] *)
Definition set_coefficient (alpha : R) (bit : bool) (dct_block : list (list R))
    : list (list R) :=
  Grid.set_entry dct_block 4 5
    (encode_sign alpha bit (Grid.entry 0%R dct_block 4 5)).

(** The body of the inner loop of [embed] after its [break] test
    (lines 68-88), on the state [(stego_image, bit_index)]. *)
Definition embed_body (alpha : R) (image : list (list Z)) (binary_message : bits)
    (y x : nat) (st : list (list R) * nat) : list (list R) * nat :=
  let '(stego_image, bit_index) := st in
  let block := astype_float (Grid.get_block image y x) in
  let dct_block := Transform.dct2 block in
  let '(dct_block, bit_index) :=
    if bit_index <? length binary_message
    then (set_coefficient alpha (nth bit_index binary_message false) dct_block,
          bit_index + 1)
    else (dct_block, bit_index) in
  let modified_block := Transform.idct2 dct_block in
  (Grid.set_block 0%R stego_image y x modified_block, bit_index).

(** The inner [for x] loop of [embed]; returning the state unchanged is
    the [break] of line 66. *)
Fixpoint embed_row (alpha : R) (image : list (list Z)) (binary_message : bits)
    (y : nat) (xs : list nat) (st : list (list R) * nat)
    : list (list R) * nat :=
  match xs with
  | [] => st
  | x :: xs' =>
      if length binary_message <=? snd st then st
      else embed_row alpha image binary_message y xs'
             (embed_body alpha image binary_message y x st)
  end.

(** The outer [for y] loop. *)
Fixpoint embed_rows (alpha : R) (image : list (list Z)) (binary_message : bits)
    (ys xs : list nat) (st : list (list R) * nat) : list (list R) * nat :=
  match ys with
  | [] => st
  | y :: ys' =>
      embed_rows alpha image binary_message ys' xs
        (embed_row alpha image binary_message y xs st)
  end.

(** What [embed] does once the image is loaded: either the capacity
    error, with the maximum number of characters it prints and nothing
    written, or the stego image it writes with the two counts of its
    report ("Embedded [bit_index] bits out of [total] bits"). *)
Inductive embed_result : Type :=
| CapacityError (max_length : nat)
| Embedded (stego_image : list (list Z)) (bit_index total : nat).

Definition embed (alpha : R) (cover : list (list Z)) (message : str)
    : embed_result :=
  let image := embed_truncate cover in
  let binary_message := binary_message message in
  let total_blocks := total_blocks image in
  if total_blocks <? length binary_message
  then CapacityError (total_blocks / 8)
  else
    let stego_image := astype_float image in
    let '(stego_image, bit_index) :=
      embed_rows alpha image binary_message
        (Py.range (fst (Grid.shape image)) block_size)
        (Py.range (snd (Grid.shape image)) block_size)
        (stego_image, 0) in
    Embedded (quantize stego_image) bit_index (length binary_message).

(** *** Extractor *)

(** Lines 122-128 of [extract]. *)
Definition extract_truncate (stego_image : list (list Z)) : list (list Z) :=
  let '(h, w) := Grid.shape stego_image in
  if negb (h mod block_size =? 0) || negb (w mod block_size =? 0)
  then Grid.crop stego_image (h - h mod block_size) (w - w mod block_size)
  else stego_image.

(** Truth value of the optional [message_length]: [None] and [0] are
    false. *)
Definition given (message_length : option Z) : bool :=
  match message_length with
  | None => false
  | Some n => negb (n =? 0)%Z
  end.

(** [message_length and len(extracted_bits) >= message_length] *)
Definition length_reached (message_length : option Z) (extracted_bits : bits)
    : bool :=
  match message_length with
  | None => false
  | Some n => negb (n =? 0)%Z && (n <=? Z.of_nat (length extracted_bits))%Z
  end.

(** [1 if dct_block[4, 5] > 0 else 0] on the block at [(y, x)]. *)
Definition block_bit (block : list (list Z)) : bool :=
  let dct_block := Transform.dct2 (astype_float block) in
  if Rlt_dec 0 (Grid.entry 0%R dct_block 4 5) then true else false.

(** The inner [for x] loop of [extract]; [bit_at x] is the bit read from
    the block at column [x] of the current block row. *)
Fixpoint extract_row (message_length : option Z) (bit_at : nat -> bool)
    (xs : list nat) (extracted_bits : bits) : bits :=
  match xs with
  | [] => extracted_bits
  | x :: xs' =>
      if length_reached message_length extracted_bits then extracted_bits
      else
        let extracted_bits := extracted_bits ++ [bit_at x] in
        if negb (given message_length) && (length extracted_bits mod 8 =? 0)
        then
          let last_byte := Py.last_n 8 extracted_bits in
          if bits_eqb last_byte terminator
          then Py.drop_last_n 8 extracted_bits
          else extract_row message_length bit_at xs' extracted_bits
        else extract_row message_length bit_at xs' extracted_bits
  end.

(** The test after each block row (lines 155-157). *)
Definition row_stop (message_length : option Z) (extracted_bits : bits) : bool :=
  length_reached message_length extracted_bits
  || (negb (given message_length)
      && (length extracted_bits mod 8 =? 0)
      && (8 <=? length extracted_bits)
      && bits_eqb (Py.last_n 8 extracted_bits) terminator).

(** The outer [for y] loop. *)
Fixpoint extract_rows (message_length : option Z) (bit_at : nat -> nat -> bool)
    (ys xs : list nat) (extracted_bits : bits) : bits :=
  match ys with
  | [] => extracted_bits
  | y :: ys' =>
      let extracted_bits :=
        extract_row message_length (bit_at y) xs extracted_bits in
      if row_stop message_length extracted_bits then extracted_bits
      else extract_rows message_length bit_at ys' xs extracted_bits
  end.

(** The bit sequence collected by the two loops. *)
Definition collect_bits (stego_image : list (list Z))
    (message_length : option Z) : bits :=
  let image := extract_truncate stego_image in
  extract_rows message_length
    (fun y x => block_bit (Grid.get_block image y x))
    (Py.range (fst (Grid.shape image)) block_size)
    (Py.range (snd (Grid.shape image)) block_size)
    [].

(** [extract] on a loaded image. *)
Definition extract (stego_image : list (list Z)) (message_length : option Z)
    : str :=
  decode (collect_bits stego_image message_length).

(** *** Notions used to state the properties *)

(** The grid cropped to the largest lower multiple of 8 in each
    dimension. *)
Definition truncated (image : list (list Z)) : list (list Z) :=
  let '(h, w) := Grid.shape image in
  Grid.crop image (8 * (h / 8)) (8 * (w / 8)).

(** The bit read from every block of the truncated grid, in raster
    order (left to right, top to bottom). *)
Definition raster_bits (stego_image : list (list Z)) : bits :=
  let image := extract_truncate stego_image in
  flat_map (fun y =>
              map (fun x => block_bit (Grid.get_block image y x))
                  (Py.range (snd (Grid.shape image)) block_size))
           (Py.range (fst (Grid.shape image)) block_size).

(** No complete 8-bit group at a byte boundary is the terminator. *)
Definition clean (b : bits) : Prop :=
  forall j, 8 * j + 8 <= length b ->
            Py.slice b (8 * j) (8 * j + 8) <> terminator.

(** What the embedding loop makes of one block that receives [bit]. *)
Definition embed_block (alpha : R) (bit : bool) (block : list (list Z))
    : list (list R) :=
  Transform.idct2
    (set_coefficient alpha bit (Transform.dct2 (astype_float block))).

(** The state of the embedding loops once the first [n] blocks of an
    [nr] x [nc] grid of blocks have been visited: the bit counter, the
    shape of the working copy and the content of each of its blocks. *)
Definition embedded_so_far (alpha : R) (image : list (list Z))
    (binary_message : bits) (nr nc n : nat) (st : list (list R) * nat) : Prop :=
  snd st = Nat.min n (length binary_message)
  /\ Grid.has_shape (nr * 8) (nc * 8) (fst st)
  /\ forall r c, r < nr -> c < nc ->
       Grid.get_block (fst st) (r * 8) (c * 8)
       = if r * nc + c <? snd st
         then embed_block alpha (nth (r * nc + c) binary_message false)
                (Grid.get_block image (r * 8) (c * 8))
         else astype_float (Grid.get_block image (r * 8) (c * 8)).

(** Samples are unsigned 8-bit values. *)
Definition uint8_grid (image : list (list Z)) : Prop :=
  Forall (Forall (fun p => (0 <= p <= 255)%Z)) image.

(** An all-black grid, and a grid with one sample changed. *)
Definition black (h w : nat) : list (list Z) := repeat (repeat 0%Z w) h.

Definition with_sample (image : list (list Z)) (i j : nat) (v : Z)
    : list (list Z) :=
  Grid.set_entry image i j v.

(** A 16x64 grid, two block rows of eight blocks: the first block row is
    black, and in the second the blocks 1 and 7 have a bright top-left
    sample. *)
Definition terminator_then_text : list (list Z) :=
  with_sample (with_sample (black 16 64) 8 8 255%Z) 8 56 255%Z.

End Codec.

(** ** The command line: [main] *)

Module Cli.

(** [cv2.imread] gives the image or [None]; a file that was read is
    [Some image].  [embed_method] is what the method [embed] returns,
    with the image it hands to [cv2.imwrite]; [write_error] tells whether
    that call raises, which the [except] clause turns into [False]. *)
Definition embed_method (alpha : R) (loaded : option (list (list Z)))
    (message : list N) (write_error : bool) : bool * option (list (list Z)) :=
  match loaded with
  | None => (false, None)
  | Some image =>
      match Codec.embed alpha image message with
      | Codec.CapacityError _ => (false, None)
      | Codec.Embedded stego_image _ _ =>
          if write_error then (false, None) else (true, Some stego_image)
      end
  end.

(** What the method [extract] returns: [None] when the image could not
    be loaded, the text otherwise. *)
Definition extract_method (loaded : option (list (list Z)))
    (message_length : option Z) : option (list N) :=
  match loaded with
  | None => None
  | Some stego_image => Some (Codec.extract stego_image message_length)
  end.

(** The parsed command line, with the result of reading the image file
    it names and, for [embed], whether writing the output raises;
    [--alpha] has the default 0.1 and [--length] is optional. *)
Inductive command : Type :=
| Embed (loaded : option (list (list Z))) (message : list N) (alpha : R)
    (write_error : bool)
| Extract (loaded : option (list (list Z))) (length : option Z)
| No_command.

(** What a run of [main] leaves: the exit status of the process, the
    image written and the message printed after [Extracted message: ]. *)
Record outcome : Type := {
  exit_status : nat;
  written : option (list (list Z));
  printed : option (list N)
}.

Definition main (dependencies : bool) (cmd : command) : outcome :=
  if negb dependencies
  then {| exit_status := 1; written := None; printed := None |}
  else
    match cmd with
    | Embed loaded message alpha write_error =>
        let '(success, image) := embed_method alpha loaded message write_error in
        if negb success
        then {| exit_status := 1; written := image; printed := None |}
        else {| exit_status := 0; written := image; printed := None |}
    | Extract loaded length =>
        match extract_method loaded length with
        | Some message =>
            {| exit_status := 0; written := None; printed := Some message |}
        | None => {| exit_status := 1; written := None; printed := None |}
        end
    | No_command => {| exit_status := 1; written := None; printed := None |}
    end.

End Cli.

(** ** The preview window: zoom and pan state of [ImagePreviewWindow] *)

Module Preview.

Local Open Scope R_scope.

(** The display parameters and the result flag of the window. *)
Record view : Type := {
  scale : R;
  offset_x : R;
  offset_y : R;
  dragging : bool;
  drag_start_x : R;
  drag_start_y : R;
  result : bool
}.

(** The state set up by [__init__]. *)
Definition initial : view :=
  {| scale := 1; offset_x := 0; offset_y := 0; dragging := false;
     drag_start_x := 0; drag_start_y := 0; result := false |}.

(** [clamp_offsets]: [h], [w] are the image's shape and [cw], [ch] what
    [winfo_width()] and [winfo_height()] return. *)
Definition clamp_offsets (h w : nat) (cw ch : Z) (v : view) : view :=
  let max_offset_x := Rmax 0 (INR w * scale v - IZR cw) in
  let max_offset_y := Rmax 0 (INR h * scale v - IZR ch) in
  {| scale := scale v;
     offset_x := Rmax 0 (Rmin (offset_x v) max_offset_x);
     offset_y := Rmax 0 (Rmin (offset_y v) max_offset_y);
     dragging := dragging v;
     drag_start_x := drag_start_x v;
     drag_start_y := drag_start_y v;
     result := result v |}.

(** The first lines of [on_mouse_wheel]: [num] is [event.num] when it is
    a number, [delta] is [event.delta] when the event has one. *)
Definition zoom_direction (num delta : option Z) : option bool :=
  let num_is n := match num with Some m => (m =? n)%Z | None => false end in
  let positive := match delta with Some d => (0 <? d)%Z | None => false end in
  let negative := match delta with Some d => (d <? 0)%Z | None => false end in
  if num_is 4%Z || positive then Some true
  else if num_is 5%Z || negative then Some false
  else None.

(** [on_mouse_wheel]; [canvas_x], [canvas_y] are what [canvasx(event.x)]
    and [canvasy(event.y)] return. *)
Definition on_mouse_wheel (h w : nat) (cw ch : Z) (num delta : option Z)
    (canvas_x canvas_y : R) (v : view) : view :=
  match zoom_direction num delta with
  | None => v
  | Some zoom_in =>
      let old_scale := scale v in
      let real_x := (canvas_x + offset_x v) / old_scale in
      let real_y := (canvas_y + offset_y v) / old_scale in
      let s := if zoom_in then scale v * (11 / 10) else scale v / (11 / 10) in
      let s := Rmax (1 / 10) (Rmin 10 s) in
      clamp_offsets h w cw ch
        {| scale := s;
           offset_x := real_x * s - canvas_x;
           offset_y := real_y * s - canvas_y;
           dragging := dragging v;
           drag_start_x := drag_start_x v;
           drag_start_y := drag_start_y v;
           result := result v |}
  end.

Definition on_mouse_down (x y : Z) (v : view) : view :=
  {| scale := scale v; offset_x := offset_x v; offset_y := offset_y v;
     dragging := true; drag_start_x := IZR x; drag_start_y := IZR y;
     result := result v |}.

Definition on_mouse_up (v : view) : view :=
  {| scale := scale v; offset_x := offset_x v; offset_y := offset_y v;
     dragging := false; drag_start_x := drag_start_x v;
     drag_start_y := drag_start_y v; result := result v |}.

Definition on_mouse_move (h w : nat) (cw ch : Z) (x y : Z) (v : view) : view :=
  if dragging v then
    let dx := IZR x - drag_start_x v in
    let dy := IZR y - drag_start_y v in
    let v1 := clamp_offsets h w cw ch
                {| scale := scale v;
                   offset_x := offset_x v - dx;
                   offset_y := offset_y v - dy;
                   dragging := dragging v;
                   drag_start_x := drag_start_x v;
                   drag_start_y := drag_start_y v;
                   result := result v |} in
    {| scale := scale v1; offset_x := offset_x v1; offset_y := offset_y v1;
       dragging := dragging v1; drag_start_x := IZR x; drag_start_y := IZR y;
       result := result v1 |}
  else v.

Definition on_cancel (v : view) : view :=
  {| scale := scale v; offset_x := offset_x v; offset_y := offset_y v;
     dragging := dragging v; drag_start_x := drag_start_x v;
     drag_start_y := drag_start_y v; result := false |}.

Definition on_continue (v : view) : view :=
  {| scale := scale v; offset_x := offset_x v; offset_y := offset_y v;
     dragging := dragging v; drag_start_x := drag_start_x v;
     drag_start_y := drag_start_y v; result := true |}.

(** The events bound in [__init__], each with the canvas size at the
    time it is handled. *)
Inductive event : Type :=
| Mouse_wheel (cw ch : Z) (num delta : option Z) (canvas_x canvas_y : R)
| Mouse_down (x y : Z)
| Mouse_up
| Mouse_move (cw ch : Z) (x y : Z)
| Cancel
| Continue.

Definition handle (h w : nat) (v : view) (e : event) : view :=
  match e with
  | Mouse_wheel cw ch num delta canvas_x canvas_y =>
      on_mouse_wheel h w cw ch num delta canvas_x canvas_y v
  | Mouse_down x y => on_mouse_down x y v
  | Mouse_up => on_mouse_up v
  | Mouse_move cw ch x y => on_mouse_move h w cw ch x y v
  | Cancel => on_cancel v
  | Continue => on_continue v
  end.

(** The window after a sequence of events. *)
Definition run (h w : nat) (events : list event) : view :=
  fold_left (handle h w) events initial.

(** The bounds the handlers keep: the zoom factor between 0.1 and 10,
    the offsets not negative. *)
Definition well_formed (v : view) : Prop :=
  1 / 10 <= scale v <= 10 /\ 0 <= offset_x v /\ 0 <= offset_y v.

End Preview.

(** ** Proof automation *)

(** Reading the bits of the blocks of a concrete grid made of black
    blocks and of blocks with one bright corner sample; the two arguments
    are the facts giving the bit of each kind of block. *)
Ltac block_table black_fact corner_fact :=
  let y := fresh "y" in let x := fresh "x" in
  let Hy := fresh "Hy" in let Hx := fresh "Hx" in
  intros y x Hy Hx; vm_compute in Hy; vm_compute in Hx;
  repeat match goal with
         | H : _ \/ _ |- _ => destruct H as [<-|H]
         | H : False |- _ => destruct H
         end;
  match goal with
  | |- Codec.block_bit ?b = _ =>
      first [ change b with (Codec.black 8 8); exact black_fact
            | change b with (Codec.with_sample (Codec.black 8 8) 0 0 255%Z);
              exact (corner_fact 255%Z eq_refl) ]
  end.

(** * Properties *)

(** ** Lists *)

Module ListFacts.

Lemma nth_map_seq {B} (f : nat -> B) n i d :
  i < n -> nth i (map f (seq 0 n)) d = f i.
Proof.
  intros Hi.
  rewrite (nth_indep _ d (f 0)) by (rewrite length_map, length_seq; exact Hi).
  rewrite map_nth, seq_nth by exact Hi. reflexivity.
Qed.

Lemma nth_map_default {B C} (f : B -> C) l i db dc :
  f db = dc -> nth i (map f l) dc = f (nth i l db).
Proof. intros <-. apply map_nth. Qed.

End ListFacts.

(** ** The DCT basis is orthonormal *)

Module TransformFacts.

Import Transform.
Local Open Scope R_scope.

Lemma sum_n_ext N f g : (forall i, (i < N)%nat -> f i = g i) -> sum_n N f = sum_n N g.
Proof.
  induction N as [|N IH]; intros H; simpl; [reflexivity|].
  rewrite IH, H; auto.
Qed.

Lemma sum_n_scal N f c : sum_n N (fun i => f i * c) = sum_n N f * c.
Proof. induction N as [|N IH]; simpl; [ring|rewrite IH; ring]. Qed.

Lemma sum_n_plus N f g : sum_n N (fun i => f i + g i) = sum_n N f + sum_n N g.
Proof. induction N as [|N IH]; simpl; [ring|rewrite IH; ring]. Qed.

Lemma sum_n_zero N : sum_n N (fun _ => 0) = 0.
Proof. induction N as [|N IH]; simpl; [reflexivity|rewrite IH; ring]. Qed.

Lemma sum_n_swap N M (f : nat -> nat -> R) :
  sum_n N (fun i => sum_n M (fun j => f i j)) = sum_n M (fun j => sum_n N (fun i => f i j)).
Proof.
  induction N as [|N IH]; simpl.
  - now rewrite sum_n_zero.
  - rewrite IH, <- sum_n_plus. reflexivity.
Qed.

Lemma sum_n_delta N f i : (i < N)%nat ->
  sum_n N (fun n => f n * (if Nat.eqb n i then 1 else 0)) = f i.
Proof.
  induction N as [|N IH]; intros H; [lia|]. simpl.
  destruct (Nat.eq_dec i N) as [->|Hne].
  - rewrite Nat.eqb_refl.
    rewrite (sum_n_ext N _ (fun _ => 0)), sum_n_zero; [ring|].
    intros j Hj. destruct (Nat.eqb_spec j N); [lia|ring].
  - rewrite IH by lia. destruct (Nat.eqb_spec N i); [lia|ring].
Qed.

(** The Dirichlet kernel: a closed form for a sum of cosines in
    arithmetic progression. *)
Lemma dirichlet N t :
  2 * sin (t / 2) * sum_n N (fun k => cos (INR k * t)) = sin ((INR N - 1 / 2) * t) + sin (t / 2).
Proof.
  induction N as [|N IH].
  - simpl. replace ((0 - 1 / 2) * t) with (- (t / 2)) by field. rewrite sin_neg. ring.
  - cbn [sum_n]. rewrite Rmult_plus_distr_l, IH. rewrite S_INR.
    replace ((INR N + 1 - 1 / 2) * t) with (INR N * t + t / 2) by field.
    replace ((INR N - 1 / 2) * t) with (INR N * t - t / 2) by field.
    rewrite sin_plus, sin_minus. ring.
Qed.

Lemma sin_shift_even q x : sin (2 * INR q * PI - x) = - sin x.
Proof.
  replace (2 * INR q * PI - x) with (- x + 2 * INR q * PI) by ring.
  rewrite sin_period. apply sin_neg.
Qed.

Lemma sin_shift_odd q x : sin ((2 * INR q + 1) * PI - x) = sin x.
Proof.
  replace ((2 * INR q + 1) * PI - x) with ((PI - x) + 2 * INR q * PI) by ring.
  rewrite sin_period. apply sin_PI_x.
Qed.

Lemma kernel_value N j : (0 < N)%nat -> (0 < j < 2 * N)%nat ->
  sum_n N (fun k => cos (INR k * (PI * INR j / INR N))) = if Nat.even j then 0 else 1.
Proof.
  intros HN Hj.
  set (t := PI * INR j / INR N).
  assert (HNR : 0 < INR N) by (apply lt_0_INR; lia).
  assert (HjR : 0 < INR j) by (apply lt_0_INR; lia).
  assert (HjN : INR j < 2 * INR N).
  { replace (2 * INR N) with (INR (2 * N)) by (rewrite mult_INR; simpl; ring).
    apply lt_INR; lia. }
  assert (Hs : sin (t / 2) <> 0).
  { apply Rgt_not_eq. apply sin_gt_0.
    - unfold t. apply Rdiv_lt_0_compat; [|lra].
      apply Rdiv_lt_0_compat; [|lra]. apply Rmult_lt_0_compat; [apply PI_RGT_0|lra].
    - unfold t. pose proof PI_RGT_0.
      apply Rmult_lt_reg_r with (2 * INR N); [lra|].
      replace (PI * INR j / INR N / 2 * (2 * INR N)) with (PI * INR j) by (field; lra).
      nra. }
  pose proof (dirichlet N t) as D.
  assert (E : (INR N - 1 / 2) * t = INR j * PI - t / 2).
  { unfold t. field. lra. }
  rewrite E in D.
  destruct (Nat.even j) eqn:Ev.
  - apply Nat.even_spec in Ev. destruct Ev as [q ->].
    rewrite mult_INR in D. simpl INR in D.
    replace ((1 + 1) * INR q * PI) with (2 * INR q * PI) in D by ring.
    rewrite sin_shift_even in D.
    apply Rmult_eq_reg_l with (2 * sin (t / 2)); [|lra]. lra.
  - assert (Od : Nat.odd j = true) by (rewrite <- Nat.negb_even, Ev; reflexivity).
    apply Nat.odd_spec in Od. destruct Od as [q ->].
    rewrite plus_INR, mult_INR in D. simpl INR in D.
    replace (((1 + 1) * INR q + 1) * PI) with ((2 * INR q + 1) * PI) in D by ring.
    rewrite sin_shift_odd in D.
    apply Rmult_eq_reg_l with (2 * sin (t / 2)); [|lra]. lra.
Qed.

Lemma kernel_zero N : sum_n N (fun k => cos (INR k * 0)) = INR N.
Proof.
  induction N as [|N IH]; [reflexivity|].
  cbn [sum_n]. rewrite IH, S_INR, Rmult_0_r, cos_0. ring.
Qed.

Lemma scale_sqr N k : (0 < N)%nat ->
  scale N k * scale N k = 2 / INR N - (if Nat.eqb k 0 then 1 else 0) / INR N.
Proof.
  intros HN. assert (HNR : 0 < INR N) by (apply lt_0_INR; lia).
  unfold scale. destruct (Nat.eqb k 0).
  - rewrite sqrt_sqrt; [field; lra|]. apply Rlt_le, Rdiv_lt_0_compat; lra.
  - rewrite sqrt_sqrt; [field; lra|]. apply Rlt_le, Rdiv_lt_0_compat; lra.
Qed.

Lemma basis_product N k m i : (0 < N)%nat ->
  basis N k m * basis N k i =
    cos (INR k * (PI * INR (m + i + 1) / INR N)) * / INR N
    + cos (INR k * (PI * (INR m - INR i) / INR N)) * / INR N
    + (if Nat.eqb k 0 then 1 else 0) * (- / INR N).
Proof.
  intros HN. assert (HNR : 0 < INR N) by (apply lt_0_INR; lia).
  unfold basis.
  set (a := PI * (2 * INR m + 1) * INR k / (2 * INR N)).
  set (b := PI * (2 * INR i + 1) * INR k / (2 * INR N)).
  replace (INR k * (PI * INR (m + i + 1) / INR N)) with (a + b)
    by (unfold a, b; rewrite !plus_INR; simpl INR; field; lra).
  replace (INR k * (PI * (INR m - INR i) / INR N)) with (a - b)
    by (unfold a, b; field; lra).
  rewrite cos_plus, cos_minus.
  replace (scale N k * cos a * (scale N k * cos b))
    with (scale N k * scale N k * (cos a * cos b)) by ring.
  rewrite scale_sqr by assumption.
  destruct (Nat.eqb_spec k 0) as [->|Hk].
  - assert (Ha : a = 0) by (unfold a; simpl INR; field; lra).
    assert (Hb : b = 0) by (unfold b; simpl INR; field; lra).
    rewrite Ha, Hb, cos_0, sin_0. field; lra.
  - field; lra.
Qed.

Lemma sum_n_first N : (0 < N)%nat ->
  sum_n N (fun k => if Nat.eqb k 0 then 1 else 0) = 1.
Proof.
  intros HN.
  rewrite (sum_n_ext N _ (fun n => 1 * (if Nat.eqb n 0 then 1 else 0))).
  - apply (sum_n_delta N (fun _ => 1) 0%nat HN).
  - intros; ring.
Qed.

Lemma basis_orthogonal_le N m i : (i <= m < N)%nat ->
  sum_n N (fun k => basis N k m * basis N k i) = if Nat.eqb m i then 1 else 0.
Proof.
  intros H. assert (HN : (0 < N)%nat) by lia.
  assert (HNR : 0 < INR N) by (apply lt_0_INR; lia).
  rewrite (sum_n_ext N _ _ (fun k _ => basis_product N k m i HN)).
  rewrite !sum_n_plus, !sum_n_scal, sum_n_first by assumption.
  rewrite kernel_value by lia.
  assert (Ev : Nat.even (m + i + 1) = negb (Nat.even (m - i))).
  { replace (m + i + 1)%nat with (S (m - i + 2 * i))%nat by lia.
    rewrite Nat.even_succ, <- Nat.negb_even. f_equal.
    rewrite Nat.even_add_mul_2. reflexivity. }
  destruct (Nat.eqb_spec m i) as [->|Hne].
  - rewrite Rminus_diag.
    replace (PI * 0 / INR N) with 0 by (field; lra).
    rewrite kernel_zero.
    rewrite Ev, Nat.sub_diag. simpl. field; lra.
  - rewrite <- minus_INR by lia.
    rewrite kernel_value by lia.
    rewrite Ev. destruct (Nat.even (m - i)); simpl; field; lra.
Qed.

Lemma basis_orthogonal N m i : (m < N)%nat -> (i < N)%nat ->
  sum_n N (fun k => basis N k m * basis N k i) = if Nat.eqb m i then 1 else 0.
Proof.
  intros Hm Hi. destruct (Nat.le_gt_cases i m).
  - apply basis_orthogonal_le; lia.
  - rewrite (sum_n_ext N _ (fun k => basis N k i * basis N k m)) by (intros; ring).
    rewrite basis_orthogonal_le by lia. rewrite Nat.eqb_sym. reflexivity.
Qed.

(** Inversion in one dimension, on functions: the inverse kernel undoes
    the forward kernel. *)
Lemma inversion_1d N (f : nat -> R) i : (i < N)%nat ->
  sum_n N (fun k => sum_n N (fun m => f m * basis N k m) * basis N k i) = f i.
Proof.
  intros Hi.
  rewrite (sum_n_ext N _ (fun k => sum_n N (fun m => f m * (basis N k m * basis N k i)))).
  2:{ intros k _. rewrite <- sum_n_scal. apply sum_n_ext. intros; ring. }
  rewrite sum_n_swap.
  rewrite (sum_n_ext N _ (fun m => f m * (if Nat.eqb m i then 1 else 0))).
  - apply sum_n_delta; assumption.
  - intros m Hm. rewrite sum_n_ext with (g := fun k => (basis N k m * basis N k i) * f m)
      by (intros; ring).
    rewrite sum_n_scal, basis_orthogonal by assumption. ring.
Qed.

End TransformFacts.

(** ** Shapes and entries of two-dimensional arrays *)

Module GridFacts.
Import Grid.

Section Generic.
Context {A : Type}.
Implicit Types (a b : list (list A)) (d : A).

Lemma has_shape_row h w a i :
  has_shape h w a -> i < h -> length (nth i a []) = w.
Proof.
  intros [Hl Hr] Hi. rewrite Forall_forall in Hr. apply Hr, nth_In. lia.
Qed.

Lemma has_shape_hd h w a : has_shape h w a -> 0 < h -> length (hd [] a) = w.
Proof.
  intros H Hh. rewrite <- (has_shape_row h w a 0 H Hh). destruct a; reflexivity.
Qed.

Lemma has_shape_shape h w a : has_shape h w a -> 0 < h -> shape a = (h, w).
Proof.
  intros H Hh. unfold shape. rewrite (has_shape_hd h w a H Hh).
  destruct H as [-> _]. reflexivity.
Qed.

Lemma grid_ext d h w a b :
  has_shape h w a -> has_shape h w b ->
  (forall i j, i < h -> j < w -> entry d a i j = entry d b i j) ->
  a = b.
Proof.
  intros Ha Hb E.
  apply (nth_ext a b [] []).
  - destruct Ha as [-> _], Hb as [-> _]. reflexivity.
  - intros i Hi. assert (Hi' : i < h) by (destruct Ha as [<- _]; exact Hi).
    apply (nth_ext _ _ d d).
    + rewrite (has_shape_row h w a i Ha Hi'), (has_shape_row h w b i Hb Hi'). reflexivity.
    + intros j Hj. rewrite (has_shape_row h w a i Ha Hi') in Hj. apply E; assumption.
Qed.

Lemma has_shape_map h w a (f : list A -> list A) :
  (forall row, length (f row) = length row) ->
  has_shape h w a -> has_shape h w (map f a).
Proof.
  intros Hf [Hl Hr]. split; [now rewrite length_map|].
  rewrite Forall_forall in *. intros r Hin. apply in_map_iff in Hin.
  destruct Hin as [r0 [<- Hin]]. rewrite Hf. auto.
Qed.

End Generic.
End GridFacts.

(** ** The separable transform on blocks *)

Module Transform2D.
Import ListFacts Grid Transform TransformFacts GridFacts.
Local Open Scope R_scope.

Lemma length_apply_kernel K x : length (apply_kernel K x) = length x.
Proof. unfold apply_kernel. now rewrite length_map, length_seq. Qed.

Lemma nth_apply_kernel K x o : (o < length x)%nat ->
  nth o (apply_kernel K x) 0 = sum_n (length x) (fun i => nth i x 0 * K (length x) o i).
Proof. intros Ho. unfold apply_kernel. now rewrite nth_map_seq. Qed.

Lemma nth_column j a i : nth i (column j a) 0 = entry 0 a i j.
Proof.
  unfold column, entry.
  apply (nth_map_default (fun row : list R => nth j row 0) a i [] 0).
  destruct j; reflexivity.
Qed.

Lemma transpose_shape h w a :
  has_shape h w a -> (0 < h)%nat -> has_shape w h (transpose a).
Proof.
  intros H Hh. unfold transpose. rewrite (has_shape_hd h w a H Hh). split.
  - now rewrite length_map, length_seq.
  - rewrite Forall_forall. intros r Hin. apply in_map_iff in Hin.
    destruct Hin as [j [<- _]]. unfold column. rewrite length_map. apply H.
Qed.

Lemma transpose_entry h w a i j :
  has_shape h w a -> (i < h)%nat -> (j < w)%nat ->
  entry 0 (transpose a) j i = entry 0 a i j.
Proof.
  intros H Hi Hj. unfold entry at 1, transpose.
  rewrite (has_shape_hd h w a H) by lia.
  rewrite nth_map_seq by exact Hj. apply nth_column.
Qed.

Lemma axis1_shape K h w a :
  has_shape h w a -> has_shape h w (along_axis1 (apply_kernel K) a).
Proof. apply has_shape_map. apply length_apply_kernel. Qed.

Lemma axis1_entry K h w a i o :
  has_shape h w a -> (i < h)%nat -> (o < w)%nat ->
  entry 0 (along_axis1 (apply_kernel K) a) i o =
  sum_n w (fun n => entry 0 a i n * K w o n).
Proof.
  intros H Hi Ho. unfold entry at 1, along_axis1.
  rewrite (nth_map_default _ _ _ []) by reflexivity.
  rewrite nth_apply_kernel; rewrite (has_shape_row h w a i H Hi); [reflexivity|exact Ho].
Qed.

Lemma axis0_shape K h w a :
  has_shape h w a -> (0 < h)%nat -> (0 < w)%nat ->
  has_shape h w (along_axis0 (apply_kernel K) a).
Proof.
  intros H Hh Hw. unfold along_axis0.
  apply transpose_shape; [|exact Hw].
  apply (axis1_shape K). apply transpose_shape; assumption.
Qed.

Lemma axis0_entry K h w a o j :
  has_shape h w a -> (o < h)%nat -> (j < w)%nat ->
  entry 0 (along_axis0 (apply_kernel K) a) o j =
  sum_n h (fun n => entry 0 a n j * K h o n).
Proof.
  intros H Ho Hj. unfold along_axis0.
  assert (Ht : has_shape w h (transpose a)) by (apply transpose_shape; [exact H|lia]).
  rewrite (transpose_entry w h) by (try apply (axis1_shape K); assumption).
  fold (along_axis1 (apply_kernel K) (transpose a)).
  rewrite (axis1_entry K w h) by assumption.
  apply sum_n_ext. intros n Hn.
  rewrite (transpose_entry h w) by assumption. reflexivity.
Qed.

Lemma dct2_shape h w a :
  has_shape h w a -> (0 < h)%nat -> (0 < w)%nat -> has_shape h w (dct2 a).
Proof. intros. unfold dct2, dct. apply axis1_shape, axis0_shape; assumption. Qed.

Lemma idct2_shape h w a :
  has_shape h w a -> (0 < h)%nat -> (0 < w)%nat -> has_shape h w (idct2 a).
Proof. intros. unfold idct2, idct. apply axis1_shape, axis0_shape; assumption. Qed.

(** Entries of the forward and inverse 2-D transforms as double sums. *)
Lemma dct2_entry h w a k l :
  has_shape h w a -> (k < h)%nat -> (l < w)%nat ->
  entry 0 (dct2 a) k l =
  sum_n w (fun n => sum_n h (fun m => entry 0 a m n * basis h k m) * basis w l n).
Proof.
  intros H Hk Hl. unfold dct2, dct.
  rewrite (axis1_entry _ h w) by (try apply axis0_shape; (assumption || lia)).
  apply sum_n_ext. intros n Hn.
  rewrite (axis0_entry _ h w) by assumption. reflexivity.
Qed.

Lemma idct2_entry h w a i j :
  has_shape h w a -> (i < h)%nat -> (j < w)%nat ->
  entry 0 (idct2 a) i j =
  sum_n w (fun l => sum_n h (fun k => entry 0 a k l * basis h k i) * basis w l j).
Proof.
  intros H Hi Hj. unfold idct2, idct.
  rewrite (axis1_entry _ h w) by (try apply axis0_shape; (assumption || lia)).
  apply sum_n_ext. intros n Hn.
  rewrite (axis0_entry _ h w) by assumption. reflexivity.
Qed.

Lemma idct2_dct2 h w a :
  has_shape h w a -> (0 < h)%nat -> (0 < w)%nat -> idct2 (dct2 a) = a.
Proof.
  intros H Hh Hw.
  apply (grid_ext 0 h w); [apply idct2_shape; try apply dct2_shape; assumption|exact H|].
  intros i j Hi Hj.
  rewrite (idct2_entry h w) by (try apply dct2_shape; assumption).
  rewrite (sum_n_ext w _
    (fun l => sum_n w (fun n => entry 0 a i n * basis w l n) * basis w l j)).
  - apply (inversion_1d w (fun n => entry 0 a i n) j Hj).
  - intros l Hl. f_equal.
    rewrite (sum_n_ext h _
      (fun k => sum_n w (fun n => sum_n h (fun m => entry 0 a m n * basis h k m)
                                   * basis h k i * basis w l n))).
    2:{ intros k Hk. rewrite (dct2_entry h w) by assumption.
        rewrite <- sum_n_scal. apply sum_n_ext. intros; ring. }
    rewrite sum_n_swap. apply sum_n_ext. intros n Hn.
    rewrite sum_n_scal.
    rewrite (inversion_1d h (fun m => entry 0 a m n) i Hi). reflexivity.
Qed.

End Transform2D.

(** ** Python ranges and slices *)

Module PyFacts.
Import Py.

Lemma range_0 step : range 0 step = [] \/ step = 0.
Proof.
  destruct step as [|s]; [now right|left].
  unfold range. rewrite Nat.div_small by lia. reflexivity.
Qed.

Lemma range_mul n : range (8 * n) 8 = map (fun k => k * 8) (seq 0 n).
Proof.
  unfold range. f_equal. f_equal.
  replace (8 * n + 8 - 1) with (7 + n * 8) by lia.
  rewrite Nat.div_add by lia. reflexivity.
Qed.

Lemma range_add8 n : range (8 + n) 8 = 0 :: map (fun i => 8 + i) (range n 8).
Proof.
  unfold range.
  replace (8 + n + 8 - 1) with (n + 8 - 1 + 1 * 8) by lia.
  rewrite Nat.div_add by lia.
  rewrite Nat.add_comm. cbn [Nat.add seq map]. f_equal.
  rewrite <- seq_shift, !map_map. apply map_ext. intros; lia.
Qed.

Lemma range_small n : 0 < n <= 8 -> range n 8 = [0].
Proof.
  intros H. unfold range.
  replace ((n + 8 - 1) / 8) with 1; [reflexivity|].
  apply Nat.div_unique with (n - 1); lia.
Qed.

Lemma slice_app_skip {A} (g l : list A) i j :
  slice (g ++ l) (length g + i) (length g + j) = slice l i j.
Proof.
  unfold slice. rewrite skipn_app, skipn_all2 by lia.
  replace (length g + i - length g) with i by lia.
  replace (length g + j - (length g + i)) with (j - i) by lia. reflexivity.
Qed.

Lemma slice_prefix {A} (g l : list A) : slice (g ++ l) 0 (length g) = g.
Proof.
  unfold slice. cbn [skipn]. rewrite Nat.sub_0_r, firstn_app, Nat.sub_diag, firstn_all.
  cbn [firstn]. apply app_nil_r.
Qed.

Lemma slice_whole {A} (l : list A) n : length l <= n -> slice l 0 n = l.
Proof. intros H. unfold slice. cbn [skipn]. apply firstn_all2. lia. Qed.

Lemma last_n_app {A} (l t : list A) : last_n (length t) (l ++ t) = t.
Proof.
  unfold last_n. rewrite length_app, skipn_app.
  replace (length l + length t - length t) with (length l) by lia.
  rewrite skipn_all, Nat.sub_diag. reflexivity.
Qed.

Lemma drop_last_n_app {A} (l t : list A) : drop_last_n (length t) (l ++ t) = l.
Proof.
  unfold drop_last_n. rewrite length_app.
  replace (length l + length t - length t) with (length l) by lia.
  rewrite firstn_app, Nat.sub_diag, firstn_all. cbn [firstn]. apply app_nil_r.
Qed.

End PyFacts.

(** ** Framing: chunks, filtering and binary formatting *)

Module FramingFacts.
Import Py PyFacts Framing.

(** *** Splitting into 8-bit groups *)

Lemma binary_chunks_cons g l :
  length g = 8 -> binary_chunks (g ++ l) = g :: binary_chunks l.
Proof.
  intros Hg. unfold binary_chunks.
  rewrite length_app, Hg, range_add8. cbn [map]. f_equal.
  - rewrite <- Hg. apply slice_prefix.
  - rewrite map_map. apply map_ext. intros i.
    rewrite <- Hg, <- Nat.add_assoc. apply slice_app_skip.
Qed.

Lemma binary_chunks_tail t :
  length t < 8 -> binary_chunks t = if length t =? 0 then [] else [t].
Proof.
  intros Ht. unfold binary_chunks. destruct t as [|b t]; [reflexivity|].
  rewrite range_small by (cbn [length] in *; lia).
  cbn [map Nat.add]. rewrite slice_whole by lia. reflexivity.
Qed.

Lemma binary_chunks_groups gs t :
  Forall (fun g => length g = 8) gs -> length t < 8 ->
  binary_chunks (concat gs ++ t) = gs ++ (if length t =? 0 then [] else [t]).
Proof.
  intros Hgs Ht. induction Hgs as [|g gs Hg _ IH]; cbn [concat app].
  - apply binary_chunks_tail, Ht.
  - rewrite <- app_assoc, binary_chunks_cons by exact Hg. now rewrite IH.
Qed.

(** *** The filtering loop *)

Lemma fold_decode_chunk gs acc :
  Forall (fun g => length g = 8) gs ->
  fold_left decode_chunk gs acc = acc ++ filter printable (map int2 gs).
Proof.
  intros Hgs. revert acc. induction Hgs as [|g gs Hg _ IH]; intros acc; cbn [fold_left map filter].
  - now rewrite app_nil_r.
  - rewrite IH. unfold decode_chunk. rewrite Hg. cbn [Nat.eqb].
    destruct (printable (int2 g)); [now rewrite <- app_assoc|reflexivity].
Qed.

Lemma decode_groups gs t :
  Forall (fun g => length g = 8) gs -> length t < 8 ->
  decode (concat gs ++ t) = filter printable (map int2 gs).
Proof.
  intros Hgs Ht. unfold decode.
  rewrite binary_chunks_groups by assumption.
  rewrite fold_left_app, (fold_decode_chunk gs []) by assumption.
  cbn [app]. destruct (Nat.eqb_spec (length t) 0) as [E|E]; [reflexivity|].
  cbn [fold_left]. unfold decode_chunk.
  destruct (Nat.eqb_spec (length t) 8); [lia|reflexivity].
Qed.

(** *** Binary formatting *)

Lemma int2_pos_digits p acc a :
  fold_left int2_step (pos_digits p acc) a
  = fold_left int2_step acc (a * 2 ^ N.of_nat (Pos.size_nat p) + N.pos p)%N.
Proof.
  revert acc. induction p as [q IH|q IH|]; intros acc; cbn [pos_digits Pos.size_nat].
  - rewrite IH. cbn [fold_left]. f_equal. unfold int2_step.
    rewrite Nat2N.inj_succ, N.pow_succ_r'.
    change (N.pos q~1) with (2 * N.pos q + 1)%N. ring.
  - rewrite IH. cbn [fold_left]. f_equal. unfold int2_step.
    rewrite Nat2N.inj_succ, N.pow_succ_r'.
    change (N.pos q~0) with (2 * N.pos q)%N. ring.
  - cbn [fold_left]. f_equal. unfold int2_step.
    change (2 ^ N.of_nat 1)%N with 2%N. ring.
Qed.

Lemma int2_bin n : int2 (bin n) = n.
Proof.
  unfold int2. destruct n as [|p]; [reflexivity|].
  cbn [bin]. rewrite int2_pos_digits. cbn [fold_left]. lia.
Qed.

Lemma int2_zeros k l : int2 (repeat false k ++ l) = int2 l.
Proof.
  unfold int2. induction k as [|k IH]; [reflexivity|]. cbn [repeat app fold_left]. exact IH.
Qed.

Lemma int2_format_08b n : int2 (format_08b n) = n.
Proof. unfold format_08b. rewrite int2_zeros. apply int2_bin. Qed.

Lemma length_pos_digits p acc :
  length (pos_digits p acc) = Pos.size_nat p + length acc.
Proof.
  revert acc. induction p as [q IH|q IH|]; intros acc; cbn [pos_digits Pos.size_nat];
    try rewrite IH; cbn [length]; lia.
Qed.

Lemma size_nat_bound n p : (N.pos p < 2 ^ N.of_nat n)%N -> Pos.size_nat p <= n.
Proof.
  revert p. induction n as [|n IH]; intros p H.
  - simpl in H. lia.
  - rewrite Nat2N.inj_succ, N.pow_succ_r' in H.
    destruct p as [q|q|]; cbn [Pos.size_nat]; [| |lia];
      apply le_n_S, IH; lia.
Qed.

Lemma length_bin n : (n < 256)%N -> 1 <= length (bin n) <= 8.
Proof.
  intros H. destruct n as [|p]; cbn [bin]; [cbn; lia|].
  rewrite length_pos_digits. cbn [length].
  pose proof (size_nat_bound 8 p H). destruct p; cbn [Pos.size_nat] in *; lia.
Qed.

Lemma length_format_08b n : (n < 256)%N -> length (format_08b n) = 8.
Proof.
  intros H. unfold format_08b. rewrite length_app, repeat_length.
  pose proof (length_bin n H). lia.
Qed.

Lemma length_format_08b_ge n : 8 <= length (format_08b n).
Proof. unfold format_08b. rewrite length_app, repeat_length. lia. Qed.

Lemma printable_byte c : printable c = true -> (0 < c < 256)%N.
Proof.
  unfold printable. intros H.
  rewrite !orb_true_iff, andb_true_iff, !N.leb_le, !N.eqb_eq in H. lia.
Qed.

Lemma int2_terminator : int2 terminator = 0%N.
Proof. reflexivity. Qed.

Lemma format_08b_not_terminator c : (0 < c)%N -> format_08b c <> terminator.
Proof.
  intros Hc E. apply (f_equal int2) in E.
  rewrite int2_format_08b, int2_terminator in E. lia.
Qed.

End FramingFacts.

(** ** The extraction loops *)

Module ExtractFacts.
Import Py PyFacts Framing FramingFacts Codec.

Lemma bits_eqb_true a b : bits_eqb a b = true <-> a = b.
Proof.
  revert b. induction a as [|x a IH]; intros [|y b]; cbn [bits_eqb];
    try (split; congruence).
  rewrite andb_true_iff, IH, eqb_true_iff. split; [intros [-> ->]|intros [= -> ->]]; auto.
Qed.

Lemma bits_eqb_false a b : bits_eqb a b = false <-> a <> b.
Proof.
  rewrite <- bits_eqb_true. destruct (bits_eqb a b); split; congruence.
Qed.

(** *** The loops only look at the bits of the blocks they visit *)

Lemma extract_row_ext ml f g xs acc :
  (forall x, In x xs -> f x = g x) ->
  extract_row ml f xs acc = extract_row ml g xs acc.
Proof.
  revert acc. induction xs as [|x xs IH]; intros acc H; [reflexivity|].
  cbn [extract_row]. rewrite (H x (or_introl eq_refl)).
  rewrite !IH by (intros; apply H; now right). reflexivity.
Qed.

Lemma extract_rows_ext ml f g ys xs acc :
  (forall y x, In y ys -> In x xs -> f y x = g y x) ->
  extract_rows ml f ys xs acc = extract_rows ml g ys xs acc.
Proof.
  revert acc. induction ys as [|y ys IH]; intros acc H; [reflexivity|].
  cbn [extract_rows].
  rewrite (extract_row_ext ml (f y) (g y)) by (intros; apply H; [now left|assumption]).
  rewrite IH by (intros; apply H; [now right|assumption]). reflexivity.
Qed.

(** *** With a length: the first [n] bits in raster order *)

Lemma length_reached_spec n acc :
  n <> 0%Z ->
  length_reached (Some n) acc = (Z.to_nat n <=? length acc).
Proof.
  intros Hn. unfold length_reached.
  destruct (Z.eqb_spec n 0); [contradiction|]. cbn [negb andb].
  destruct (Z.leb_spec n (Z.of_nat (length acc))), (Nat.leb_spec (Z.to_nat n) (length acc));
    try reflexivity; lia.
Qed.

Lemma given_some n : n <> 0%Z -> given (Some n) = true.
Proof. intros Hn. unfold given. now destruct (Z.eqb_spec n 0). Qed.

Lemma extract_row_length n f xs acc :
  n <> 0%Z ->
  extract_row (Some n) f xs acc
  = acc ++ firstn (Z.to_nat n - length acc) (map f xs).
Proof.
  intros Hn. revert acc. induction xs as [|x xs IH]; intros acc.
  - cbn. now rewrite firstn_nil, app_nil_r.
  - cbn [extract_row map]. rewrite length_reached_spec, given_some by exact Hn.
    cbn [negb andb].
    destruct (Nat.leb_spec (Z.to_nat n) (length acc)) as [Hle|Hlt].
    + replace (Z.to_nat n - length acc) with 0 by lia. cbn. now rewrite app_nil_r.
    + rewrite IH, length_app. cbn [length].
      replace (Z.to_nat n - length acc) with (S (Z.to_nat n - (length acc + 1))) by lia.
      cbn [firstn]. now rewrite <- app_assoc.
Qed.

Lemma extract_rows_length n f ys xs acc :
  n <> 0%Z ->
  extract_rows (Some n) f ys xs acc
  = acc ++ firstn (Z.to_nat n - length acc) (flat_map (fun y => map (f y) xs) ys).
Proof.
  intros Hn. revert acc. induction ys as [|y ys IH]; intros acc.
  - cbn. now rewrite firstn_nil, app_nil_r.
  - cbn [extract_rows flat_map]. rewrite extract_row_length by exact Hn.
    unfold row_stop. rewrite length_reached_spec, given_some by exact Hn.
    cbn [negb andb]. rewrite orb_false_r, length_app, length_firstn, firstn_app.
    remember (Z.to_nat n - length acc) as k eqn:Hk.
    remember (map (f y) xs) as row eqn:Hrow.
    destruct (Nat.leb_spec (Z.to_nat n) (length acc + Nat.min k (length row))) as [Hle|Hlt].
    + replace (k - length row) with 0 by lia. cbn [firstn]. now rewrite app_nil_r.
    + rewrite IH, length_app, length_firstn.
      rewrite (firstn_all2 row) by lia. rewrite <- app_assoc. do 2 f_equal.
      rewrite Nat.min_r by lia. f_equal. lia.
Qed.

(** *** Without a length: the terminator test *)

Lemma not_given_length ml acc : given ml = false -> length_reached ml acc = false.
Proof.
  unfold given, length_reached. destruct ml as [n|]; [|reflexivity].
  intros H. rewrite H. reflexivity.
Qed.

Lemma slice_app_l {A} (l r : list A) i j : j <= length l -> slice (l ++ r) i j = slice l i j.
Proof.
  intros Hj. unfold slice. rewrite skipn_app, firstn_app, length_skipn.
  replace (j - i - (length l - i)) with 0 by lia. cbn [firstn]. now rewrite app_nil_r.
Qed.

Lemma last_n_slice {A} (l : list A) j :
  length l = 8 * j + 8 -> last_n 8 l = slice l (8 * j) (8 * j + 8).
Proof.
  intros H. unfold last_n, slice. rewrite H.
  replace (8 * j + 8 - 8) with (8 * j) by lia.
  replace (8 * j + 8 - 8 * j) with 8 by lia.
  symmetry. apply firstn_all2. rewrite length_skipn. lia.
Qed.

Lemma clean_prefix a b : clean (a ++ b) -> clean a.
Proof.
  intros H j Hj. rewrite <- (slice_app_l a b) by lia.
  apply H. rewrite length_app. lia.
Qed.

Lemma clean_tail M t :
  clean M -> length M mod 8 = 0 -> length t < 8 -> clean (M ++ t).
Proof.
  intros HM Hmod Ht j Hj. rewrite length_app in Hj.
  apply Nat.Div0.div_exact in Hmod.
  rewrite slice_app_l by lia. apply HM. lia.
Qed.

Lemma clean_groups gs :
  Forall (fun g => length g = 8 /\ g <> terminator) gs -> clean (concat gs).
Proof.
  induction 1 as [|g gs [Hl Hg] _ IH]; intros j Hj; cbn [concat] in *.
  - cbn in Hj. lia.
  - destruct j as [|j].
    + rewrite <- Hl at 2. cbn [Nat.mul Nat.add]. rewrite Nat.mul_0_r.
      replace (0 + 8) with (length g + 0) by lia.
      rewrite slice_app_l by lia. rewrite Nat.add_0_r, slice_whole by lia. exact Hg.
    + rewrite length_app in Hj.
      replace (8 * S j) with (length g + 8 * j) by lia.
      replace (length g + 8 * j + 8) with (length g + (8 * j + 8)) by lia.
      rewrite slice_app_skip. apply IH. lia.
Qed.

Lemma clean_last acc :
  clean acc -> length acc mod 8 = 0 -> 8 <= length acc ->
  bits_eqb (last_n 8 acc) terminator = false.
Proof.
  intros Hc Hmod Hlen. apply bits_eqb_false.
  apply Nat.Div0.div_exact in Hmod.
  rewrite (last_n_slice acc (length acc / 8 - 1)) by lia.
  apply Hc. lia.
Qed.

Lemma row_stop_clean ml acc :
  given ml = false -> clean acc -> row_stop ml acc = false.
Proof.
  intros Hg Hc. unfold row_stop. rewrite not_given_length, Hg by exact Hg.
  cbn [negb orb andb].
  destruct (Nat.eqb_spec (length acc mod 8) 0) as [Hm|]; [|reflexivity].
  destruct (Nat.leb_spec 8 (length acc)) as [Hl|]; [|reflexivity].
  cbn [andb]. now apply clean_last.
Qed.

(** A stretch of blocks whose bits complete no zero byte is appended
    whole. *)
Lemma extract_row_clean ml f xs rest acc :
  given ml = false -> clean (acc ++ map f xs) ->
  extract_row ml f (xs ++ rest) acc = extract_row ml f rest (acc ++ map f xs).
Proof.
  intros Hg. revert acc. induction xs as [|x xs IH]; intros acc Hc.
  - cbn. now rewrite app_nil_r.
  - cbn [app extract_row map] in *.
    rewrite not_given_length, Hg by exact Hg. cbn [negb andb].
    replace (acc ++ f x :: map f xs) with ((acc ++ [f x]) ++ map f xs) in *
      by now rewrite <- app_assoc.
    destruct (Nat.eqb_spec (length (acc ++ [f x]) mod 8) 0) as [Hm|Hm].
    + rewrite clean_last; [now apply IH|now apply clean_prefix in Hc|exact Hm|].
      rewrite length_app in *. cbn [length] in *.
      apply Nat.Div0.div_exact in Hm. lia.
    + now apply IH.
Qed.

(** The block that completes the terminator ends the row, and the
    terminator is removed. *)
Lemma extract_row_terminator ml f xs x rest acc M :
  given ml = false -> clean M -> length M mod 8 = 0 ->
  acc ++ map f xs ++ [f x] = M ++ terminator ->
  extract_row ml f (xs ++ x :: rest) acc = M.
Proof.
  intros Hg HM Hmod E.
  assert (E7 : acc ++ map f xs = M ++ repeat false 7 /\ f x = false).
  { change terminator with (repeat false 7 ++ [false]) in E.
    rewrite !app_assoc in E. apply app_inj_tail in E. exact E. }
  destruct E7 as [E7 Hx].
  rewrite extract_row_clean; [|exact Hg|rewrite E7; apply clean_tail; cbn; auto; lia].
  cbn [extract_row]. rewrite not_given_length, Hg by exact Hg. cbn [negb andb].
  rewrite E7, Hx, <- app_assoc. change (repeat false 7 ++ [false]) with terminator.
  assert (Hlen : length (M ++ terminator) mod 8 = 0).
  { rewrite length_app. change (length terminator) with (1 * 8).
    rewrite Nat.Div0.mod_add. exact Hmod. }
  rewrite Hlen. cbn [Nat.eqb].
  change (last_n 8 (M ++ terminator))
    with (last_n (length terminator) (M ++ terminator)).
  change (drop_last_n 8 (M ++ terminator))
    with (drop_last_n (length terminator) (M ++ terminator)).
  rewrite last_n_app, drop_last_n_app.
  replace (bits_eqb terminator terminator) with true by (symmetry; now apply bits_eqb_true).
  reflexivity.
Qed.

Lemma extract_rows_clean ml f ys ys' xs acc :
  given ml = false ->
  clean (acc ++ flat_map (fun y => map (f y) xs) ys) ->
  extract_rows ml f (ys ++ ys') xs acc
  = extract_rows ml f ys' xs (acc ++ flat_map (fun y => map (f y) xs) ys).
Proof.
  intros Hg. revert acc. induction ys as [|y ys IH]; intros acc Hc.
  - cbn. now rewrite app_nil_r.
  - cbn [app extract_rows flat_map] in *. rewrite app_assoc in Hc.
    assert (Hrow : extract_row ml (f y) xs acc = acc ++ map (f y) xs).
    { rewrite <- (app_nil_r xs) at 1.
      now rewrite extract_row_clean by (try exact Hg; now apply clean_prefix in Hc). }
    rewrite !Hrow.
    rewrite row_stop_clean by (try exact Hg; now apply clean_prefix in Hc).
    rewrite IH by exact Hc. now rewrite <- app_assoc.
Qed.

(** In terminator mode the test after a block row never fires: every
    block row is scanned. *)
Lemma extract_row_keeps_clean ml f xs acc :
  given ml = false -> clean acc -> clean (extract_row ml f xs acc).
Proof.
  intros Hg. revert acc. induction xs as [|x xs IH]; intros acc Hc; [exact Hc|].
  cbn [extract_row]. rewrite not_given_length, Hg by exact Hg. cbn [negb andb].
  assert (Hstep : bits_eqb (last_n 8 (acc ++ [f x])) terminator = false ->
                  clean (acc ++ [f x])).
  { intros Hne j Hj. rewrite length_app in Hj. cbn [length] in Hj.
    destruct (Nat.eq_dec (8 * j + 8) (length acc + 1)) as [Heq|Hneq].
    - rewrite <- last_n_slice by (rewrite length_app; cbn [length]; lia).
      now apply bits_eqb_false.
    - rewrite slice_app_l by lia. apply Hc. lia. }
  destruct (Nat.eqb_spec (length (acc ++ [f x]) mod 8) 0) as [Hm|Hm].
  - destruct (bits_eqb (last_n 8 (acc ++ [f x])) terminator) eqn:Hb.
    + unfold drop_last_n. intros j Hj. rewrite length_firstn in Hj.
      rewrite length_app in *. cbn [length] in *.
      assert (Hj' : 8 * j + 8 <= length acc) by lia.
      specialize (Hc j Hj').
      unfold slice in *. rewrite skipn_firstn_comm, firstn_firstn.
      rewrite skipn_app.
      replace (Nat.min (8 * j + 8 - 8 * j) (length acc + 1 - 8 - 8 * j)) with 8 by lia.
      replace (8 * j + 8 - 8 * j) with 8 in Hc by lia.
      rewrite firstn_app, length_skipn.
      replace (8 - (length acc - 8 * j)) with 0 by lia.
      cbn [firstn]. rewrite app_nil_r. exact Hc.
    + apply IH, Hstep. reflexivity.
  - apply IH. intros j Hj. rewrite length_app in Hj. cbn [length] in Hj.
    assert (8 * j + 8 <> length acc + 1).
    { intros Heq. apply Hm. rewrite length_app. cbn [length]. rewrite <- Heq.
      replace (8 * j + 8) with ((j + 1) * 8) by lia. apply Nat.Div0.mod_mul. }
    rewrite slice_app_l by lia. apply Hc. lia.
Qed.

Lemma extract_rows_all_rows ml f ys xs acc :
  given ml = false -> clean acc ->
  extract_rows ml f ys xs acc
  = fold_left (fun b y => extract_row ml (f y) xs b) ys acc.
Proof.
  intros Hg. revert acc. induction ys as [|y ys IH]; intros acc Hc; [reflexivity|].
  cbn [extract_rows fold_left].
  rewrite row_stop_clean by (try exact Hg; now apply extract_row_keeps_clean).
  apply IH. now apply extract_row_keeps_clean.
Qed.

End ExtractFacts.

(** ** Reading and writing 8x8 blocks *)

Module BlockFacts.
Import ListFacts Py PyFacts Grid GridFacts.

Lemma nth_slice {A} (l : list A) x i d :
  i < 8 -> nth i (slice l x (x + 8)) d = nth (x + i) l d.
Proof.
  intros Hi. unfold slice. replace (x + 8 - x) with 8 by lia.
  rewrite nth_firstn, nth_skipn.
  destruct (Nat.ltb_spec i 8); [reflexivity|lia].
Qed.

Lemma length_slice {A} (l : list A) x : x + 8 <= length l -> length (slice l x (x + 8)) = 8.
Proof.
  intros H. unfold slice. rewrite length_firstn, length_skipn. lia.
Qed.

Lemma in_firstn {A} (l : list A) n v : In v (firstn n l) -> In v l.
Proof.
  intros H. rewrite <- (firstn_skipn n l). apply in_or_app. now left.
Qed.

Lemma in_skipn {A} (l : list A) n v : In v (skipn n l) -> In v l.
Proof.
  intros H. rewrite <- (firstn_skipn n l). apply in_or_app. now right.
Qed.

Lemma in_slice {A} (l : list A) x y v : In v (slice l x y) -> In v l.
Proof.
  unfold slice. intros H. apply in_firstn in H. apply in_skipn in H. exact H.
Qed.

Lemma list_set_length {A} (l : list A) i v : length (list_set l i v) = length l.
Proof.
  revert i. induction l as [|x l IH]; intros [|i]; cbn [list_set length]; auto.
Qed.

Lemma list_set_nth {A} (l : list A) i v k d :
  i < length l ->
  nth k (list_set l i v) d = if Nat.eqb k i then v else nth k l d.
Proof.
  revert i k. induction l as [|x l IH]; intros [|i] [|k] Hi; cbn [length] in *;
    try lia; cbn [list_set nth Nat.eqb]; try reflexivity.
  apply IH. lia.
Qed.

Section Generic.
Context {A : Type}.
Implicit Types (a b : list (list A)) (d : A).

Lemma get_block_shape h w a y x :
  has_shape h w a -> y + 8 <= h -> x + 8 <= w -> has_shape 8 8 (get_block a y x).
Proof.
  intros [Hl Hr] Hy Hx. unfold get_block. split.
  - rewrite length_map. apply length_slice. lia.
  - rewrite Forall_forall in *. intros r Hin. apply in_map_iff in Hin.
    destruct Hin as [row [<- Hin]]. apply length_slice.
    rewrite (Hr row); [exact Hx|]. eapply in_slice, Hin.
Qed.

Lemma get_block_entry d h w a y x i j :
  has_shape h w a -> y + 8 <= h -> x + 8 <= w -> i < 8 -> j < 8 ->
  entry d (get_block a y x) i j = entry d a (y + i) (x + j).
Proof.
  intros H Hy Hx Hi Hj. unfold entry, get_block.
  rewrite (nth_indep _ [] (slice [] x (x + 8))).
  2:{ rewrite length_map, length_slice; destruct H; lia. }
  rewrite (map_nth (fun row => slice row x (x + 8))).
  rewrite nth_slice by exact Hj. rewrite nth_slice by exact Hi. reflexivity.
Qed.

Lemma set_block_shape d h w a y x b :
  has_shape h w a -> has_shape h w (set_block d a y x b).
Proof.
  intros [Hl Hr]. unfold set_block. split.
  - now rewrite length_map, length_seq.
  - rewrite Forall_forall in *. intros r Hin. apply in_map_iff in Hin.
    destruct Hin as [i [<- Hin]]. rewrite length_map, length_seq.
    apply Hr, nth_In. apply in_seq in Hin. lia.
Qed.

Lemma set_block_entry d h w a y x b i j :
  has_shape h w a -> i < h -> j < w ->
  entry d (set_block d a y x b) i j =
    if in_window y i && in_window x j then entry d b (i - y) (j - x)
    else entry d a i j.
Proof.
  intros H Hi Hj. unfold entry at 1, set_block.
  destruct H as [Hl Hr].
  rewrite nth_map_seq by lia.
  rewrite nth_map_seq; [reflexivity|].
  rewrite Forall_forall in Hr. rewrite (Hr (nth i a [])); [exact Hj|].
  apply nth_In. lia.
Qed.

(** Reading back the block just written. *)
Lemma get_set_block_same d h w a y x b :
  has_shape h w a -> has_shape 8 8 b -> y + 8 <= h -> x + 8 <= w ->
  get_block (set_block d a y x b) y x = b.
Proof.
  intros Ha Hb Hy Hx.
  apply (grid_ext d 8 8); [|exact Hb|].
  - eapply get_block_shape; [apply set_block_shape, Ha|exact Hy|exact Hx].
  - intros i j Hi Hj.
    rewrite (get_block_entry d h w) by (try apply set_block_shape; assumption).
    rewrite (set_block_entry d h w) by (try assumption; lia).
    unfold in_window.
    destruct (Nat.leb_spec y (y + i)), (Nat.ltb_spec (y + i) (y + 8)),
             (Nat.leb_spec x (x + j)), (Nat.ltb_spec (x + j) (x + 8)); try lia.
    cbn [andb]. f_equal; lia.
Qed.

(** Writing one block leaves the other aligned blocks as they were. *)
Lemma get_set_block_other d h w a r c r' c' b :
  has_shape h w a -> r * 8 + 8 <= h -> c * 8 + 8 <= w ->
  r' * 8 + 8 <= h -> c' * 8 + 8 <= w -> (r', c') <> (r, c) ->
  get_block (set_block d a (r * 8) (c * 8) b) (r' * 8) (c' * 8)
  = get_block a (r' * 8) (c' * 8).
Proof.
  intros Ha Hy Hx Hy' Hx' Hne.
  apply (grid_ext d 8 8).
  - eapply get_block_shape; [apply set_block_shape, Ha|exact Hy'|exact Hx'].
  - eapply get_block_shape; eassumption.
  - intros i j Hi Hj.
    rewrite !(get_block_entry d h w) by (try apply set_block_shape; assumption).
    rewrite (set_block_entry d h w) by (try assumption; lia).
    unfold in_window.
    destruct (Nat.leb_spec (r * 8) (r' * 8 + i)), (Nat.ltb_spec (r' * 8 + i) (r * 8 + 8)),
             (Nat.leb_spec (c * 8) (c' * 8 + j)), (Nat.ltb_spec (c' * 8 + j) (c * 8 + 8));
      cbn [andb]; try reflexivity.
    exfalso. apply Hne. f_equal; lia.
Qed.

Lemma get_block_map {B} (f : A -> B) a y x :
  get_block (map (map f) a) y x = map (map f) (get_block a y x).
Proof.
  unfold get_block, slice. rewrite skipn_map, firstn_map, !map_map.
  apply map_ext. intros row. now rewrite skipn_map, firstn_map.
Qed.

Lemma has_shape_map_map {B} (f : A -> B) h w a :
  has_shape h w a -> has_shape h w (map (map f) a).
Proof.
  intros [Hl Hr]. split; [now rewrite length_map|].
  rewrite Forall_forall in *. intros r Hin. apply in_map_iff in Hin.
  destruct Hin as [r0 [<- Hin]]. rewrite length_map. auto.
Qed.

Lemma crop_shape h w a h' w' :
  has_shape h w a -> h' <= h -> w' <= w -> has_shape h' w' (crop a h' w').
Proof.
  intros [Hl Hr] Hh Hw. unfold crop. split.
  - rewrite length_map, length_firstn. lia.
  - rewrite Forall_forall in *. intros r Hin. apply in_map_iff in Hin.
    destruct Hin as [r0 [<- Hin]]. rewrite length_firstn.
    apply in_firstn in Hin. rewrite (Hr r0 Hin). lia.
Qed.

Lemma crop_all h w a : has_shape h w a -> crop a h w = a.
Proof.
  intros [Hl Hr]. unfold crop. rewrite firstn_all2 by lia.
  rewrite <- (map_id a) at 2. apply map_ext_in. intros r Hin.
  rewrite Forall_forall in Hr. apply firstn_all2. rewrite (Hr r Hin). lia.
Qed.

Lemma crop_crop a h w h' w' :
  h' <= h -> w' <= w -> crop (crop a h w) h' w' = crop a h' w'.
Proof.
  intros Hh Hw. unfold crop. rewrite firstn_map, map_map, firstn_firstn.
  rewrite Nat.min_l by exact Hh. apply map_ext.
  intros r. rewrite firstn_firstn. now rewrite Nat.min_l by exact Hw.
Qed.

Lemma set_entry_shape h w a i j v :
  has_shape h w a -> i < h -> has_shape h w (set_entry a i j v).
Proof.
  intros [Hl Hr] Hi. unfold set_entry. split.
  - now rewrite list_set_length.
  - rewrite Forall_forall in *. intros r Hin.
    apply (In_nth _ _ []) in Hin. destruct Hin as [k [Hk <-]].
    rewrite list_set_length in Hk. rewrite list_set_nth by lia.
    destruct (Nat.eqb k i).
    + rewrite list_set_length. apply Hr, nth_In. lia.
    + apply Hr, nth_In. exact Hk.
Qed.

Lemma set_entry_entry d h w a i j v k l :
  has_shape h w a -> i < h -> j < w ->
  entry d (set_entry a i j v) k l =
    if Nat.eqb k i && Nat.eqb l j then v else entry d a k l.
Proof.
  intros H Hi Hj. unfold entry, set_entry.
  rewrite list_set_nth by (destruct H; lia).
  destruct (Nat.eqb_spec k i) as [->|]; cbn [andb]; [|reflexivity].
  rewrite list_set_nth by (rewrite (has_shape_row h w a i H Hi); exact Hj).
  reflexivity.
Qed.

End Generic.

Lemma has_shape_repeat {A} (v : A) h w : has_shape h w (repeat (repeat v w) h).
Proof.
  split; [apply repeat_length|].
  rewrite Forall_forall. intros r Hin. apply repeat_spec in Hin. subst r.
  apply repeat_length.
Qed.

End BlockFacts.

(** ** The embedding loops *)

Module EmbedFacts.
Import Py PyFacts Grid GridFacts BlockFacts Framing FramingFacts.
Import Transform Transform2D Codec.

(** *** Truncation *)

Lemma truncated_crop h w (g : list (list Z)) :
  has_shape h w g -> truncated g = crop g (8 * (h / 8)) (8 * (w / 8)).
Proof.
  intros H. unfold truncated. destruct (Nat.eq_dec h 0) as [->|Hh].
  - destruct H as [Hl _]. apply length_zero_iff_nil in Hl. subst g. reflexivity.
  - rewrite (has_shape_shape h w g H) by lia. reflexivity.
Qed.

Lemma embed_truncate_truncated h w (g : list (list Z)) :
  has_shape h w g -> embed_truncate g = truncated g.
Proof.
  intros H. rewrite (truncated_crop h w g H).
  unfold embed_truncate, block_size. destruct (Nat.eq_dec h 0) as [->|Hh].
  - destruct H as [Hl _]. apply length_zero_iff_nil in Hl. subst g. reflexivity.
  - rewrite (has_shape_shape h w g H) by lia.
    pose proof (Nat.div_mod_eq h 8) as Eh. pose proof (Nat.div_mod_eq w 8) as Ew.
    assert (Nh : (if negb (h mod 8 =? 0) then h - h mod 8 else h) = 8 * (h / 8)).
    { destruct (Nat.eqb_spec (h mod 8) 0); cbn [negb]; lia. }
    assert (Nw : (if negb (w mod 8 =? 0) then w - w mod 8 else w) = 8 * (w / 8)).
    { destruct (Nat.eqb_spec (w mod 8) 0); cbn [negb]; lia. }
    rewrite Nh, Nw.
    destruct (Nat.eqb_spec (8 * (h / 8)) h) as [E1|E1];
      destruct (Nat.eqb_spec (8 * (w / 8)) w) as [E2|E2]; cbn [negb orb];
      try reflexivity.
    rewrite E1, E2. symmetry. now apply crop_all.
Qed.

Lemma extract_truncate_truncated h w (g : list (list Z)) :
  has_shape h w g -> extract_truncate g = truncated g.
Proof.
  intros H. rewrite (truncated_crop h w g H).
  unfold extract_truncate, block_size. destruct (Nat.eq_dec h 0) as [->|Hh].
  - destruct H as [Hl _]. apply length_zero_iff_nil in Hl. subst g. reflexivity.
  - rewrite (has_shape_shape h w g H) by lia.
    pose proof (Nat.div_mod_eq h 8) as Eh. pose proof (Nat.div_mod_eq w 8) as Ew.
    destruct (Nat.eqb_spec (h mod 8) 0) as [E1|E1];
      destruct (Nat.eqb_spec (w mod 8) 0) as [E2|E2]; cbn [negb orb];
      try (f_equal; lia).
    replace (8 * (h / 8)) with h by lia. replace (8 * (w / 8)) with w by lia.
    symmetry. now apply crop_all.
Qed.

Lemma truncated_shape h w (g : list (list Z)) :
  has_shape h w g -> has_shape (h / 8 * 8) (w / 8 * 8) (truncated g).
Proof.
  intros H. rewrite (truncated_crop h w g H).
  rewrite (Nat.mul_comm (h / 8)), (Nat.mul_comm (w / 8)).
  apply (crop_shape h w); [exact H| |].
  - pose proof (Nat.div_mod_eq h 8). lia.
  - pose proof (Nat.div_mod_eq w 8). lia.
Qed.

Lemma truncated_idem h w (g : list (list Z)) :
  has_shape h w g -> truncated (truncated g) = truncated g.
Proof.
  intros H. pose proof (truncated_shape h w g H) as Ht.
  rewrite (truncated_crop _ _ _ Ht).
  rewrite !Nat.div_mul by lia. rewrite !(Nat.mul_comm 8).
  now apply crop_all.
Qed.

Lemma shape_aligned nr nc (image : list (list Z)) :
  has_shape (nr * 8) (nc * 8) image -> 0 < nr ->
  shape image = (nr * 8, nc * 8).
Proof. intros H Hr. apply has_shape_shape; [exact H|lia]. Qed.

Lemma total_blocks_aligned nr nc (image : list (list Z)) :
  has_shape (nr * 8) (nc * 8) image -> total_blocks image = nr * nc.
Proof.
  intros H. unfold total_blocks, block_size. destruct (Nat.eq_dec nr 0) as [->|Hr].
  - destruct H as [Hl _]. apply length_zero_iff_nil in Hl. subst image. reflexivity.
  - rewrite (shape_aligned nr nc image H) by lia. cbn [fst snd].
    now rewrite !Nat.div_mul by lia.
Qed.

(** *** The embedding loops *)

Lemma embed_block_shape alpha bit (blk : list (list Z)) :
  has_shape 8 8 blk -> has_shape 8 8 (embed_block alpha bit blk).
Proof.
  intros H. unfold embed_block, set_coefficient.
  apply idct2_shape; try lia. apply set_entry_shape; [|lia].
  apply dct2_shape; try lia. unfold astype_float. now apply has_shape_map_map.
Qed.

Lemma raster_index_inj nc r c r' c' :
  c < nc -> c' < nc -> r' * nc + c' = r * nc + c -> r' = r /\ c' = c.
Proof.
  intros Hc Hc' E.
  assert (r' = r).
  { destruct (Nat.lt_trichotomy r r') as [Hlt|[Heq|Hgt]]; [exfalso|now subst|exfalso].
    - assert (r * nc + nc <= r' * nc) by nia. lia.
    - assert (r' * nc + nc <= r * nc) by nia. lia. }
  subst r'. lia.
Qed.

Section Loop.

Variables (alpha : R) (image : list (list Z)) (bm : list bool) (nr nc : nat).
Hypothesis Himage : has_shape (nr * 8) (nc * 8) image.

#[local, warnings="-notation-for-abbreviation"]
Notation Inv := (embedded_so_far alpha image bm nr nc).

Lemma embedded_initial : Inv 0 (astype_float image, 0).
Proof.
  unfold Inv, embedded_so_far. cbn [fst snd]. split; [|split].
  - reflexivity.
  - unfold astype_float. now apply has_shape_map_map.
  - intros r c _ _. destruct (Nat.ltb_spec (r * nc + c) 0); [lia|].
    apply get_block_map.
Qed.

Lemma embedded_break n n' st :
  Inv n st -> length bm <= snd st -> n <= n' -> Inv n' st.
Proof.
  unfold Inv, embedded_so_far. intros (Hb & Hs & Hblk) Hlen Hn. split; [|split]; auto. lia.
Qed.

Lemma embedded_step r c st :
  r < nr -> c < nc -> Inv (r * nc + c) st -> snd st < length bm ->
  Inv (r * nc + c + 1) (embed_body alpha image bm (r * 8) (c * 8) st).
Proof.
  unfold Inv, embedded_so_far. intros Hr Hc (Hb & Hs & Hblk) Hlt.
  destruct st as [stego bi]. cbn [fst snd] in *.
  assert (Hbi : bi = r * nc + c) by lia.
  unfold embed_body.
  destruct (Nat.ltb_spec bi (length bm)) as [_|]; [|lia].
  fold (embed_block alpha (nth bi bm false) (get_block image (r * 8) (c * 8))).
  cbn [fst snd].
  assert (Hblock : has_shape 8 8 (embed_block alpha (nth bi bm false)
                                    (get_block image (r * 8) (c * 8)))).
  { apply embed_block_shape. apply (get_block_shape (nr * 8) (nc * 8)); [exact Himage|nia|nia]. }
  split; [|split].
  - lia.
  - now apply set_block_shape.
  - intros r' c' Hr' Hc'.
    destruct (Nat.eq_dec (r' * nc + c') (r * nc + c)) as [E|E].
    + destruct (raster_index_inj nc r c r' c' Hc Hc' E) as [-> ->].
      rewrite (get_set_block_same 0%R (nr * 8) (nc * 8)) by (try assumption; nia).
      destruct (Nat.ltb_spec (r * nc + c) (bi + 1)); [|lia].
      now rewrite Hbi.
    + rewrite (get_set_block_other 0%R (nr * 8) (nc * 8))
        by (try assumption; try nia; intros [= -> ->]; now apply E).
      rewrite Hblk by assumption.
      destruct (Nat.ltb_spec (r' * nc + c') bi), (Nat.ltb_spec (r' * nc + c') (bi + 1));
        try reflexivity; lia.
Qed.

Lemma embed_row_invariant r k c0 st :
  r < nr -> c0 + k = nc -> Inv (r * nc + c0) st ->
  Inv (r * nc + nc)
      (embed_row alpha image bm (r * 8) (map (fun c => c * 8) (seq c0 k)) st).
Proof.
  intros Hr. revert c0 st. induction k as [|k IH]; intros c0 st Hk HI.
  - cbn. assert (E : c0 = nc) by lia. rewrite E in HI. exact HI.
  - cbn [seq map embed_row].
    destruct (Nat.leb_spec (length bm) (snd st)) as [Hle|Hlt].
    + apply (embedded_break (r * nc + c0)); [exact HI|exact Hle|lia].
    + apply IH; [lia|].
      replace (r * nc + S c0) with (r * nc + c0 + 1) by lia.
      apply embedded_step; (assumption || lia).
Qed.

Lemma embed_rows_invariant k r0 st :
  r0 + k = nr -> Inv (r0 * nc) st ->
  Inv (nr * nc)
      (embed_rows alpha image bm (map (fun r => r * 8) (seq r0 k))
                  (map (fun c => c * 8) (seq 0 nc)) st).
Proof.
  revert r0 st. induction k as [|k IH]; intros r0 st Hk HI.
  - cbn. assert (E : r0 = nr) by lia. rewrite E in HI. exact HI.
  - cbn [seq map embed_rows]. apply IH; [lia|].
    replace (S r0 * nc) with (r0 * nc + nc) by lia.
    apply embed_row_invariant; [lia|lia|].
    now rewrite Nat.add_0_r.
Qed.

End Loop.

(** On a grid that is large enough [embed] succeeds; the bits are all
    embedded, and each block of the working copy is either the encoded
    block or the source block. *)
Lemma embed_fits alpha h w g message :
  has_shape h w g ->
  length (binary_message message) <= (h / 8) * (w / 8) ->
  exists stego,
    embed alpha g message
    = Embedded (quantize stego) (length (binary_message message))
               (length (binary_message message))
    /\ embedded_so_far alpha (truncated g) (binary_message message)
         (h / 8) (w / 8) ((h / 8) * (w / 8))
         (stego, length (binary_message message)).
Proof.
  intros H Hfit.
  pose proof (truncated_shape h w g H) as Ht.
  assert (H8 : 8 <= length (binary_message message)).
  { unfold binary_message. rewrite length_app. cbn. lia. }
  assert (Hr : 0 < h / 8) by nia.
  unfold embed. rewrite (embed_truncate_truncated h w g H).
  rewrite (total_blocks_aligned _ _ _ Ht).
  destruct (Nat.ltb_spec (h / 8 * (w / 8)) (length (binary_message message))); [lia|].
  rewrite (shape_aligned _ _ _ Ht Hr). cbn [fst snd]. unfold block_size.
  rewrite !(Nat.mul_comm _ 8), !range_mul.
  pose proof (embed_rows_invariant alpha (truncated g) (binary_message message)
                (h / 8) (w / 8) Ht (h / 8) 0 _ eq_refl
                (embedded_initial alpha _ _ _ _ Ht)) as HI.
  destruct (embed_rows _ _ _ _ _ _) as [stego bi].
  assert (Hbi : bi = length (binary_message message)).
  { destruct HI as (Hb & _). cbn [snd] in Hb. lia. }
  subst bi. exists stego. split; [reflexivity|exact HI].
Qed.

Lemma embed_too_long alpha h w g message :
  has_shape h w g ->
  (h / 8) * (w / 8) < length (binary_message message) ->
  embed alpha g message = CapacityError ((h / 8) * (w / 8) / 8).
Proof.
  intros H Hlong.
  pose proof (truncated_shape h w g H) as Ht.
  unfold embed. rewrite (embed_truncate_truncated h w g H).
  rewrite (total_blocks_aligned _ _ _ Ht).
  destruct (Nat.ltb_spec (h / 8 * (w / 8)) (length (binary_message message))); [|lia].
  reflexivity.
Qed.

End EmbedFacts.

(** ** Quantization and the coefficients of simple blocks *)

Module NumericFacts.
Import ListFacts Py PyFacts Grid GridFacts BlockFacts Framing FramingFacts.
Import Transform TransformFacts Transform2D Codec EmbedFacts.
Local Open Scope R_scope.

(** *** Clipping and conversion to 8-bit samples *)

Lemma astype_uint8_IZR p : astype_uint8 (IZR p) = p.
Proof. unfold astype_uint8. symmetry. apply Int_part_spec. lra. Qed.

Lemma clip_uint8 p : (0 <= p <= 255)%Z -> clip (IZR p) = IZR p.
Proof.
  intros [H0 H1]. apply IZR_le in H0, H1. unfold clip.
  rewrite Rmax_left by exact H0. apply Rmin_right. exact H1.
Qed.

Lemma quantize_float g : uint8_grid g -> quantize (astype_float g) = g.
Proof.
  unfold uint8_grid, quantize, astype_float. intros H.
  rewrite map_map. rewrite <- (map_id g) at 2. apply map_ext_in.
  intros row Hin. rewrite map_map. rewrite <- (map_id row) at 2.
  apply map_ext_in. intros p Hp.
  rewrite Forall_forall in H. specialize (H row Hin).
  rewrite Forall_forall in H. specialize (H p Hp).
  now rewrite clip_uint8, astype_uint8_IZR.
Qed.

Lemma quantize_small v : Rabs v < 1 -> astype_uint8 (clip v) = 0%Z.
Proof.
  intros Hv. unfold astype_uint8, clip. symmetry. apply Int_part_spec.
  apply Rabs_def2 in Hv. destruct Hv as [Hlt Hgt].
  unfold Rmin, Rmax. destruct (Rle_dec v 0), (Rle_dec 255 _); lra.
Qed.

Lemma quantize_entry h w a i j :
  has_shape h w a -> (i < h)%nat -> (j < w)%nat ->
  entry 0%Z (quantize a) i j = astype_uint8 (clip (entry 0 a i j)).
Proof.
  intros H Hi Hj. unfold entry, quantize.
  rewrite (nth_map_default (map (fun v => astype_uint8 (clip v))) a i [] []) by reflexivity.
  rewrite (nth_indep _ 0%Z (astype_uint8 (clip 0))).
  - apply (map_nth (fun v => astype_uint8 (clip v))).
  - rewrite length_map, (has_shape_row h w a i H Hi). exact Hj.
Qed.

(** *** Black blocks *)

Lemma nth_repeat_default {A} (a d : A) n k :
  nth k (repeat a n) d = if (k <? n)%nat then a else d.
Proof.
  revert k. induction n as [|n IH]; intros [|k]; cbn [repeat nth]; try reflexivity.
  rewrite IH. reflexivity.
Qed.

Lemma entry_black h w i j : entry 0%Z (black h w) i j = 0%Z.
Proof.
  unfold entry, black. rewrite nth_repeat_default.
  destruct (i <? h)%nat; [|now destruct j].
  rewrite nth_repeat_default. now destruct (j <? w)%nat.
Qed.

Lemma entry_float (g : list (list Z)) i j :
  entry 0 (astype_float g) i j = IZR (entry 0%Z g i j).
Proof.
  unfold entry, astype_float.
  rewrite (nth_map_default (map IZR) g i [] []) by reflexivity.
  apply (map_nth IZR).
Qed.

Lemma get_block_black h w y x :
  (y + 8 <= h)%nat -> (x + 8 <= w)%nat -> get_block (black h w) y x = black 8 8.
Proof.
  intros Hy Hx. apply (grid_ext 0%Z 8 8).
  - apply (get_block_shape h w); [apply has_shape_repeat|exact Hy|exact Hx].
  - apply has_shape_repeat.
  - intros i j Hi Hj.
    rewrite (get_block_entry 0%Z h w) by (try apply has_shape_repeat; assumption).
    now rewrite !entry_black.
Qed.

(** *** Coefficients of simple blocks *)

Lemma sum_n_zero_ext N f : (forall i, (i < N)%nat -> f i = 0) -> sum_n N f = 0.
Proof. intros H. rewrite (sum_n_ext N f (fun _ => 0) H). apply sum_n_zero. Qed.

Lemma dct2_black k l :
  (k < 8)%nat -> (l < 8)%nat -> entry 0 (dct2 (astype_float (black 8 8))) k l = 0.
Proof.
  intros Hk Hl.
  rewrite (dct2_entry 8 8) by (try assumption; apply has_shape_map_map, has_shape_repeat).
  apply sum_n_zero_ext. intros n _.
  rewrite sum_n_zero_ext; [ring|]. intros m _.
  rewrite entry_float, entry_black. ring.
Qed.

Lemma block_bit_black : block_bit (black 8 8) = false.
Proof.
  unfold block_bit. rewrite dct2_black by lia.
  destruct (Rlt_dec 0 0); [lra|reflexivity].
Qed.

Lemma scale_pos N k : (0 < N)%nat -> 0 < scale N k.
Proof.
  intros HN. assert (0 < INR N) by (apply lt_0_INR; lia).
  unfold scale. destruct (Nat.eqb k 0); apply sqrt_lt_R0, Rdiv_lt_0_compat; lra.
Qed.

Lemma INR_8 : INR 8 = 8.
Proof. simpl. lra. Qed.

Lemma scale_le_1 k : scale 8 k <= 1.
Proof.
  unfold scale. rewrite INR_8.
  destruct (Nat.eqb k 0); (apply Rle_trans with (sqrt 1);
    [apply sqrt_le_1_alt; lra|rewrite sqrt_1; lra]).
Qed.

Lemma basis_bound k n : Rabs (basis 8 k n) <= 1.
Proof.
  unfold basis. rewrite Rabs_mult.
  pose proof (scale_pos 8 k ltac:(lia)) as Hs. pose proof (scale_le_1 k) as Hs1.
  rewrite (Rabs_pos_eq (scale 8 k)) by lra.
  set (c := cos _). assert (Hc : Rabs c <= 1).
  { apply Rabs_le. pose proof (COS_bound (PI * (2 * INR n + 1) * INR k / (2 * INR 8))).
    unfold c. lra. }
  pose proof (Rabs_pos c). nra.
Qed.

Lemma basis_4_0_pos : 0 < basis 8 4 0.
Proof.
  unfold basis. apply Rmult_lt_0_compat; [apply scale_pos; lia|].
  pose proof PI_RGT_0. apply cos_gt_0; simpl INR; lra.
Qed.

Lemma basis_5_0_pos : 0 < basis 8 5 0.
Proof.
  unfold basis. apply Rmult_lt_0_compat; [apply scale_pos; lia|].
  pose proof PI_RGT_0. apply cos_gt_0; simpl INR; lra.
Qed.

(** A block whose only non-zero sample is the top-left one. *)
Lemma entry_corner v i j :
  entry 0%Z (with_sample (black 8 8) 0 0 v) i j
  = if Nat.eqb i 0 && Nat.eqb j 0 then v else 0%Z.
Proof.
  unfold with_sample.
  rewrite (set_entry_entry 0%Z 8 8) by (try lia; apply has_shape_repeat).
  now rewrite entry_black.
Qed.

Lemma corner_shape v : has_shape 8 8 (with_sample (black 8 8) 0 0 v).
Proof. unfold with_sample. apply set_entry_shape; [apply has_shape_repeat|lia]. Qed.

Lemma dct2_corner v :
  entry 0 (dct2 (astype_float (with_sample (black 8 8) 0 0 v))) 4 5
  = IZR v * basis 8 4 0 * basis 8 5 0.
Proof.
  rewrite (dct2_entry 8 8) by (try lia; apply has_shape_map_map, corner_shape).
  rewrite (sum_n_ext 8 _
    (fun n => (IZR v * basis 8 4 0 * basis 8 5 n) * (if Nat.eqb n 0 then 1 else 0))).
  - rewrite (sum_n_delta 8 (fun n => IZR v * basis 8 4 0 * basis 8 5 n) 0) by lia.
    reflexivity.
  - intros n _.
    rewrite (sum_n_ext 8 _
      (fun m => (IZR v * (if Nat.eqb n 0 then 1 else 0) * basis 8 4 m)
                * (if Nat.eqb m 0 then 1 else 0))).
    + rewrite (sum_n_delta 8 (fun m => IZR v * (if Nat.eqb n 0 then 1 else 0) * basis 8 4 m) 0)
        by lia. ring.
    + intros m _. rewrite entry_float, entry_corner.
      destruct (Nat.eqb m 0), (Nat.eqb n 0); cbn [andb]; ring.
Qed.

Lemma block_bit_corner v :
  (0 < v)%Z -> block_bit (with_sample (black 8 8) 0 0 v) = true.
Proof.
  intros Hv. unfold block_bit. rewrite dct2_corner.
  destruct (Rlt_dec 0 _) as [|Hn]; [reflexivity|]. exfalso. apply Hn.
  apply IZR_lt in Hv.
  pose proof basis_4_0_pos. pose proof basis_5_0_pos.
  apply Rmult_lt_0_compat; [apply Rmult_lt_0_compat|]; assumption.
Qed.

(** *** Encoding a bit in a black block *)

Lemma set_coefficient_black_entry alpha bit k l :
  (k < 8)%nat -> (l < 8)%nat ->
  entry 0 (set_coefficient alpha bit (dct2 (astype_float (black 8 8)))) k l
  = encode_sign alpha bit 0 * (if Nat.eqb k 4 then 1 else 0) * (if Nat.eqb l 5 then 1 else 0).
Proof.
  intros Hk Hl. unfold set_coefficient.
  rewrite (set_entry_entry 0 8 8)
    by (try lia; apply dct2_shape; try lia; apply has_shape_map_map, has_shape_repeat).
  rewrite !dct2_black by lia.
  destruct (Nat.eqb k 4), (Nat.eqb l 5); cbn [andb]; ring.
Qed.

Lemma embed_block_black_entry alpha bit i j :
  (i < 8)%nat -> (j < 8)%nat ->
  entry 0 (embed_block alpha bit (black 8 8)) i j
  = encode_sign alpha bit 0 * basis 8 4 i * basis 8 5 j.
Proof.
  intros Hi Hj. unfold embed_block.
  rewrite (idct2_entry 8 8); try assumption.
  2:{ apply set_entry_shape; [|lia]. apply dct2_shape; try lia.
      apply has_shape_map_map, has_shape_repeat. }
  rewrite (sum_n_ext 8 _
    (fun l => (encode_sign alpha bit 0 * basis 8 4 i * basis 8 l j)
              * (if Nat.eqb l 5 then 1 else 0))).
  - rewrite (sum_n_delta 8 (fun l => encode_sign alpha bit 0 * basis 8 4 i * basis 8 l j) 5)
      by lia. reflexivity.
  - intros l Hl.
    rewrite (sum_n_ext 8 _
      (fun k => (encode_sign alpha bit 0 * (if Nat.eqb l 5 then 1 else 0) * basis 8 k i)
                * (if Nat.eqb k 4 then 1 else 0))).
    + rewrite (sum_n_delta 8
                 (fun k => encode_sign alpha bit 0 * (if Nat.eqb l 5 then 1 else 0) * basis 8 k i) 4)
        by lia. ring.
    + intros k Hk. rewrite set_coefficient_black_entry by assumption. ring.
Qed.

Lemma encode_sign_zero alpha bit : 0 < alpha -> Rabs (encode_sign alpha bit 0) = alpha.
Proof.
  intros Ha. unfold encode_sign. rewrite Rabs_R0. destruct bit.
  - replace (0 + alpha) with alpha by ring. apply Rabs_pos_eq. lra.
  - replace (- 0 - alpha) with (- alpha) by ring. rewrite Rabs_Ropp. apply Rabs_pos_eq. lra.
Qed.

(** With a strength below 1 the encoded black block is black again
    after clipping and conversion: the perturbation is lost. *)
Lemma quantize_embed_black alpha bit :
  0 < alpha < 1 -> quantize (embed_block alpha bit (black 8 8)) = black 8 8.
Proof.
  intros Ha.
  assert (Hs : has_shape 8 8 (embed_block alpha bit (black 8 8)))
    by apply embed_block_shape, has_shape_repeat.
  apply (grid_ext 0%Z 8 8).
  - unfold quantize. now apply has_shape_map_map.
  - apply has_shape_repeat.
  - intros i j Hi Hj. rewrite (quantize_entry 8 8) by assumption.
    rewrite entry_black, embed_block_black_entry by assumption.
    apply quantize_small. rewrite !Rabs_mult, encode_sign_zero by lra.
    pose proof (basis_bound 4 i). pose proof (basis_bound 5 j).
    pose proof (Rabs_pos (basis 8 4 i)). pose proof (Rabs_pos (basis 8 5 j)).
    set (x := Rabs (basis 8 4 i)) in *. set (y := Rabs (basis 8 5 j)) in *.
    assert (Hax : 0 <= alpha * x) by (apply Rmult_le_pos; lra).
    assert (alpha * x <= alpha * 1) by (apply Rmult_le_compat_l; lra).
    assert (alpha * x * y <= alpha * x * 1) by (apply Rmult_le_compat_l; lra).
    lra.
Qed.

End NumericFacts.

(** ** Facts shared by the statements about the codec *)

Module CodecFacts.
Import Py PyFacts Grid GridFacts BlockFacts Framing FramingFacts.
Import Transform TransformFacts Transform2D Codec ExtractFacts EmbedFacts NumericFacts.

(** *** Every bit string is a sequence of full groups and a short tail *)

Lemma split_groups k (b : list bool) :
  length b < 8 * (k + 1) ->
  exists gs t, b = concat gs ++ t
               /\ Forall (fun g => length g = 8) gs /\ length t < 8
               /\ length gs = length b / 8.
Proof.
  revert b. induction k as [|k IH]; intros b Hb.
  - exists [], b. repeat split; auto; try lia. cbn [length]. rewrite Nat.div_small; lia.
  - destruct (Nat.lt_ge_cases (length b) 8) as [Hlt|Hge].
    + exists [], b. repeat split; auto. cbn [length]. rewrite Nat.div_small; lia.
    + destruct (IH (skipn 8 b)) as (gs & t & E & Hgs & Ht & Hn).
      { rewrite length_skipn. lia. }
      exists (firstn 8 b :: gs), t. repeat split; auto.
      * cbn [concat]. rewrite <- app_assoc, <- E. symmetry. apply firstn_skipn.
      * constructor; [|exact Hgs]. rewrite length_firstn. lia.
      * cbn [length]. rewrite Hn, length_skipn.
        replace (length b) with (length b - 8 + 1 * 8) at 2 by lia.
        rewrite Nat.div_add by lia. lia.
Qed.

Lemma length_decode (b : list bool) : length (decode b) <= length b / 8.
Proof.
  destruct (split_groups (length b) b) as (gs & t & E & Hgs & Ht & Hn); [lia|].
  rewrite E at 1. rewrite decode_groups by assumption.
  rewrite <- Hn. etransitivity; [apply filter_length_le|]. now rewrite length_map.
Qed.

(** *** Messages of printable characters *)

Lemma printable_groups (message : list N) :
  Forall (fun c => printable c = true) message ->
  Forall (fun g => length g = 8 /\ g <> terminator) (map format_08b message).
Proof.
  intros H. rewrite Forall_map. revert H. apply Forall_impl. intros c Hc.
  apply printable_byte in Hc. split.
  - apply length_format_08b. lia.
  - apply format_08b_not_terminator. lia.
Qed.

Lemma length_message_bits (message : list N) :
  Forall (fun c => (c < 256)%N) message ->
  length (concat (map format_08b message)) = 8 * length message.
Proof.
  induction 1 as [|c message Hc _ IH]; [reflexivity|].
  cbn [map concat length]. rewrite length_app, IH, length_format_08b by exact Hc. lia.
Qed.

Lemma length_binary_message (message : list N) :
  Forall (fun c => (c < 256)%N) message ->
  length (binary_message message) = 8 * (length message + 1).
Proof.
  intros H. unfold binary_message. rewrite length_app, length_message_bits by exact H.
  cbn. lia.
Qed.

Lemma printable_bytes (message : list N) :
  Forall (fun c => printable c = true) message ->
  Forall (fun c => (c < 256)%N) message.
Proof. apply Forall_impl. intros c Hc. apply printable_byte in Hc. lia. Qed.

Lemma decode_message (message : list N) :
  Forall (fun c => printable c = true) message ->
  decode (concat (map format_08b message)) = message.
Proof.
  intros H. rewrite <- (app_nil_r (concat _)).
  rewrite decode_groups.
  - rewrite map_map. rewrite (map_ext _ (fun c => c)) by apply int2_format_08b.
    rewrite map_id. apply forallb_filter_id. now apply forallb_forall, Forall_forall.
  - rewrite Forall_map. apply printable_bytes in H. revert H. apply Forall_impl.
    intros c Hc. now apply length_format_08b.
  - cbn. lia.
Qed.

(** *** The collected bits in terms of the raster sequence *)

Lemma given_zero_none ml : given ml = false -> forall f xs acc,
  extract_row ml f xs acc = extract_row None f xs acc.
Proof.
  intros Hg f xs. induction xs as [|x xs IH]; intros acc; [reflexivity|].
  cbn [extract_row]. rewrite not_given_length, Hg by exact Hg.
  cbn [length_reached given negb andb]. rewrite !IH. reflexivity.
Qed.

Lemma extract_rows_not_given ml f ys xs acc :
  given ml = false ->
  extract_rows ml f ys xs acc = extract_rows None f ys xs acc.
Proof.
  intros Hg. revert acc. induction ys as [|y ys IH]; intros acc; [reflexivity|].
  cbn [extract_rows]. rewrite (given_zero_none ml Hg), IH.
  unfold row_stop. rewrite not_given_length, Hg by exact Hg. reflexivity.
Qed.

Lemma collect_bits_length g n :
  n <> 0%Z -> collect_bits g (Some n) = firstn (Z.to_nat n) (raster_bits g).
Proof.
  intros Hn. unfold collect_bits, raster_bits.
  rewrite extract_rows_length by exact Hn. cbn [app length]. now rewrite Nat.sub_0_r.
Qed.

Lemma length_flat_map_rows {A B} (f : A -> B -> bool) ys xs :
  length (flat_map (fun y => map (f y) xs) ys) = length ys * length xs.
Proof.
  induction ys as [|y ys IH]; [reflexivity|].
  cbn [flat_map length]. rewrite length_app, length_map, IH. lia.
Qed.

Lemma length_raster_bits h w g :
  has_shape h w g -> length (raster_bits g) = (h / 8) * (w / 8).
Proof.
  intros H. unfold raster_bits. rewrite length_flat_map_rows.
  rewrite (extract_truncate_truncated h w g H).
  pose proof (truncated_shape h w g H) as Ht. unfold block_size.
  destruct (Nat.eq_dec (h / 8) 0) as [E|E].
  - rewrite E in *. destruct Ht as [Hl _]. apply length_zero_iff_nil in Hl.
    rewrite Hl. reflexivity.
  - rewrite (shape_aligned _ _ _ Ht) by lia. cbn [fst snd].
    rewrite !(Nat.mul_comm _ 8), !range_mul, !length_map, !length_seq. reflexivity.
Qed.

(** The bits can be read from a table of the blocks' bits. *)
Lemma collect_bits_table g ml (tbl : nat -> nat -> bool) :
  (forall y x,
      In y (range (fst (shape (extract_truncate g))) block_size) ->
      In x (range (snd (shape (extract_truncate g))) block_size) ->
      block_bit (get_block (extract_truncate g) y x) = tbl y x) ->
  collect_bits g ml
  = extract_rows ml tbl
      (range (fst (shape (extract_truncate g))) block_size)
      (range (snd (shape (extract_truncate g))) block_size) [].
Proof. intros H. unfold collect_bits. now apply extract_rows_ext. Qed.

Lemma flat_map_ext_on {A B} (f g : A -> list B) l :
  (forall a, In a l -> f a = g a) -> flat_map f l = flat_map g l.
Proof.
  induction l as [|a l IH]; intros H; [reflexivity|]. cbn [flat_map].
  rewrite (H a) by now left. rewrite IH; [reflexivity|]. intros; apply H. now right.
Qed.

Lemma raster_bits_table g (tbl : nat -> nat -> bool) :
  (forall y x,
      In y (range (fst (shape (extract_truncate g))) block_size) ->
      In x (range (snd (shape (extract_truncate g))) block_size) ->
      block_bit (get_block (extract_truncate g) y x) = tbl y x) ->
  raster_bits g
  = flat_map (fun y => map (tbl y) (range (snd (shape (extract_truncate g))) block_size))
      (range (fst (shape (extract_truncate g))) block_size).
Proof.
  intros H. unfold raster_bits. apply flat_map_ext_on. intros y Hy.
  apply map_ext_in. intros x Hx. now apply H.
Qed.

(** *** Samples stay 8-bit through cropping and slicing *)

Lemma uint8_crop g h w : uint8_grid g -> uint8_grid (crop g h w).
Proof.
  unfold uint8_grid, crop. rewrite !Forall_forall. intros H row Hin.
  apply in_map_iff in Hin. destruct Hin as [r0 [<- Hin]].
  apply in_firstn in Hin. specialize (H r0 Hin).
  rewrite Forall_forall in *. intros p Hp. apply H. eapply in_firstn, Hp.
Qed.

Lemma uint8_get_block g y x : uint8_grid g -> uint8_grid (get_block g y x).
Proof.
  unfold uint8_grid, get_block. rewrite !Forall_forall. intros H row Hin.
  apply in_map_iff in Hin. destruct Hin as [r0 [<- Hin]].
  apply in_slice in Hin. specialize (H r0 Hin).
  rewrite Forall_forall in *. intros p Hp. apply H. eapply in_slice, Hp.
Qed.

Lemma uint8_truncated h w g : has_shape h w g -> uint8_grid g -> uint8_grid (truncated g).
Proof. intros H Hu. rewrite (truncated_crop h w g H). now apply uint8_crop. Qed.

(** *** The bit counter, whatever the shape of the grid *)

Lemma embed_body_counter alpha image bm y x st :
  snd st < length bm -> snd (embed_body alpha image bm y x st) = snd st + 1.
Proof.
  intros H. destruct st as [stego bi]. cbn [snd] in *. unfold embed_body.
  destruct (Nat.ltb_spec bi (length bm)); [reflexivity|lia].
Qed.

Lemma embed_row_counter alpha image bm y xs st :
  snd st <= length bm ->
  snd (embed_row alpha image bm y xs st) = Nat.min (length bm) (snd st + length xs).
Proof.
  revert st. induction xs as [|x xs IH]; intros st H; cbn [embed_row length].
  - lia.
  - destruct (Nat.leb_spec (length bm) (snd st)); [lia|].
    rewrite IH; rewrite embed_body_counter; lia.
Qed.

Lemma embed_rows_counter alpha image bm ys xs st :
  snd st <= length bm ->
  snd (embed_rows alpha image bm ys xs st)
  = Nat.min (length bm) (snd st + length ys * length xs).
Proof.
  revert st. induction ys as [|y ys IH]; intros st H; cbn [embed_rows length].
  - lia.
  - rewrite IH; rewrite embed_row_counter; lia.
Qed.

Lemma length_range_ge n : n / 8 <= length (range n 8).
Proof.
  unfold range. rewrite length_map, length_seq.
  apply Nat.Div0.div_le_mono. lia.
Qed.

End CodecFacts.

(** ** Payload scanning and black grids *)

Module RoundTripFacts.
Import Py PyFacts Grid GridFacts BlockFacts Framing FramingFacts.
Import Transform TransformFacts Transform2D Codec ExtractFacts EmbedFacts.
Import NumericFacts CodecFacts.

Lemma firstn_succ_nth {A} (l : list A) n d :
  n < length l -> firstn (S n) l = firstn n l ++ [nth n l d].
Proof.
  revert n. induction l as [|a l IH]; intros [|n] H; cbn [length] in *; try lia.
  - reflexivity.
  - cbn [firstn nth app]. f_equal. apply IH. lia.
Qed.

Lemma split_at_nth {A} (l : list A) n d :
  n < length l -> l = firstn n l ++ nth n l d :: skipn (S n) l.
Proof.
  intros H. rewrite <- (firstn_skipn (S n) l) at 1.
  rewrite (firstn_succ_nth l n d H), <- app_assoc. reflexivity.
Qed.

(** When the payload ends in the last block row, the scan returns the
    message bits. *)
Lemma extract_rows_payload ml f ys yl xs M :
  given ml = false -> clean M -> length M mod 8 = 0 ->
  length (flat_map (fun y => map (f y) xs) ys) < length M + 8 ->
  length M + 8 <= length (flat_map (fun y => map (f y) xs) ys) + length xs ->
  firstn (length M + 8) (flat_map (fun y => map (f y) xs) ys ++ map (f yl) xs)
  = M ++ terminator ->
  extract_rows ml f (ys ++ [yl]) xs [] = M.
Proof.
  intros Hg HM Hmod Hlt Hle E.
  remember (flat_map (fun y => map (f y) xs) ys) as A eqn:HA.
  remember (length M + 8 - length A - 1) as b eqn:Hb.
  assert (Hbx : b < length xs) by lia.
  replace (length M + 8) with (length A + S b) in E by lia.
  rewrite firstn_app_2, firstn_map, (firstn_succ_nth xs b 0 Hbx), map_app in E.
  cbn [map] in E.
  assert (E7 : A ++ map (f yl) (firstn b xs) = M ++ repeat false 7).
  { change terminator with (repeat false 7 ++ [false]) in E.
    rewrite !app_assoc in E. apply app_inj_tail in E. apply E. }
  assert (HcA : clean ([] ++ A)).
  { cbn [app]. apply (clean_prefix A (map (f yl) (firstn b xs))).
    rewrite E7. apply clean_tail; cbn; auto; lia. }
  rewrite HA in HcA. rewrite extract_rows_clean by assumption.
  rewrite <- HA. cbn [app extract_rows].
  assert (Hrow : extract_row ml (f yl) xs A = M).
  { rewrite (split_at_nth xs b 0 Hbx) at 1.
    now apply extract_row_terminator. }
  rewrite Hrow. now destruct (row_stop ml M).
Qed.

(** *** Grids whose dimensions are multiples of 8 *)

Lemma extract_truncate_aligned nr nc (s : list (list Z)) :
  has_shape (nr * 8) (nc * 8) s -> extract_truncate s = s.
Proof.
  intros H. rewrite (extract_truncate_truncated _ _ _ H), (truncated_crop _ _ _ H).
  rewrite !Nat.div_mul by lia. rewrite !(Nat.mul_comm 8). now apply crop_all.
Qed.

Lemma embed_result_shape alpha h w g message stego bi total :
  has_shape h w g ->
  embed alpha g message = Embedded stego bi total ->
  length (binary_message message) <= (h / 8) * (w / 8)
  /\ has_shape (h / 8 * 8) (w / 8 * 8) stego.
Proof.
  intros H E.
  destruct (Nat.lt_ge_cases (h / 8 * (w / 8)) (length (binary_message message)))
    as [Hlong|Hfit].
  - rewrite (embed_too_long alpha h w g message H Hlong) in E. discriminate.
  - split; [exact Hfit|].
    destruct (embed_fits alpha h w g message H Hfit) as [st [E' (_ & Hs & _)]].
    rewrite E' in E. injection E as <- _ _. cbn [fst] in Hs.
    unfold quantize. now apply has_shape_map_map.
Qed.

(** *** Black grids *)

Lemma firstn_repeat {A} (a : A) n m : firstn n (repeat a m) = repeat a (Nat.min n m).
Proof.
  revert m. induction n as [|n IH]; intros [|m]; cbn [firstn repeat Nat.min];
    try reflexivity. now rewrite IH.
Qed.

Lemma truncated_black h w : truncated (black h w) = black (8 * (h / 8)) (8 * (w / 8)).
Proof.
  rewrite (truncated_crop h w) by apply has_shape_repeat.
  unfold crop, black. rewrite firstn_repeat, map_repeat, firstn_repeat.
  pose proof (Nat.div_mod_eq h 8). pose proof (Nat.div_mod_eq w 8).
  now rewrite !Nat.min_l by lia.
Qed.

(** With a strength below 1, the stego image of a black grid is black:
    every block reads back as 0. *)
Lemma embed_black alpha h w message stego bi total r c :
  (0 < alpha < 1)%R ->
  embed alpha (black h w) message = Embedded stego bi total ->
  r < h / 8 -> c < w / 8 ->
  get_block stego (r * 8) (c * 8) = black 8 8.
Proof.
  intros Ha E Hr Hc.
  assert (H : has_shape h w (black h w)) by apply has_shape_repeat.
  destruct (embed_result_shape alpha h w _ _ _ _ _ H E) as [Hfit _].
  destruct (embed_fits alpha h w _ message H Hfit) as [st [E' (_ & _ & Hblk)]].
  rewrite E' in E. injection E as <- _ _. cbn [fst snd] in Hblk.
  unfold quantize at 1. rewrite get_block_map.
  fold (quantize (get_block st (r * 8) (c * 8))).
  rewrite Hblk by assumption. rewrite truncated_black, get_block_black by nia.
  destruct (_ <? _).
  - now apply quantize_embed_black.
  - apply quantize_float. unfold uint8_grid, black. apply Forall_forall. intros row Hrow.
    apply repeat_spec in Hrow. subst row. apply Forall_forall. intros p Hp.
    apply repeat_spec in Hp. subst p. lia.
Qed.

Lemma block_bits_black_stego alpha h w message stego bi total :
  (0 < alpha < 1)%R -> 0 < h / 8 ->
  embed alpha (black h w) message = Embedded stego bi total ->
  forall y x,
    In y (range (fst (shape (extract_truncate stego))) block_size) ->
    In x (range (snd (shape (extract_truncate stego))) block_size) ->
    block_bit (get_block (extract_truncate stego) y x) = false.
Proof.
  intros Ha Hh E y x.
  assert (H : has_shape h w (black h w)) by apply has_shape_repeat.
  destruct (embed_result_shape alpha h w _ _ _ _ _ H E) as [_ Hs].
  rewrite (extract_truncate_aligned _ _ _ Hs), (shape_aligned _ _ _ Hs Hh).
  cbn [fst snd]. unfold block_size. rewrite !(Nat.mul_comm _ 8), !range_mul.
  intros Hy Hx. apply in_map_iff in Hy, Hx.
  destruct Hy as [r [<- Hr]], Hx as [c [<- Hc]]. apply in_seq in Hr, Hc.
  rewrite (embed_black alpha h w message stego bi total r c Ha E) by lia.
  apply block_bit_black.
Qed.

End RoundTripFacts.

(** ** When the encoded sign survives quantization *)

Module SurvivalFacts.
Import Py PyFacts Grid GridFacts BlockFacts Framing FramingFacts.
Import Transform TransformFacts Transform2D Codec ExtractFacts EmbedFacts.
Import NumericFacts CodecFacts RoundTripFacts.
Local Open Scope R_scope.

Lemma sum_n_nonneg N f : (forall i, (i < N)%nat -> 0 <= f i) -> 0 <= sum_n N f.
Proof.
  induction N as [|N IH]; intros H; cbn [sum_n]; [lra|].
  assert (0 <= sum_n N f) by (apply IH; intros; apply H; lia).
  assert (0 <= f N) by (apply H; lia). lra.
Qed.

Lemma sum_n_ge_term N f i :
  (i < N)%nat -> (forall j, (j < N)%nat -> 0 <= f j) -> f i <= sum_n N f.
Proof.
  induction N as [|N IH]; intros Hi H; [lia|]. cbn [sum_n].
  assert (0 <= f N) by (apply H; lia).
  assert (0 <= sum_n N f) by (apply sum_n_nonneg; intros; apply H; lia).
  destruct (Nat.eq_dec i N) as [->|Hne]; [lra|].
  assert (f i <= sum_n N f) by (apply IH; [lia|intros; apply H; lia]). lra.
Qed.

Lemma sum_n_nonpos N f : (forall i, (i < N)%nat -> f i <= 0) -> sum_n N f <= 0.
Proof.
  induction N as [|N IH]; intros H; cbn [sum_n]; [lra|].
  assert (sum_n N f <= 0) by (apply IH; intros; apply H; lia).
  assert (f N <= 0) by (apply H; lia). lra.
Qed.

Lemma astype_uint8_nonneg v : 0 <= v -> 0 <= IZR (astype_uint8 v).
Proof.
  intros Hv. unfold astype_uint8. destruct (base_Int_part v) as [_ Hgt].
  apply IZR_le. assert (IZR (-1) < IZR (Int_part v)) by (simpl; lra).
  apply lt_IZR in H. lia.
Qed.

Lemma astype_uint8_ge_1 v : 1 <= v -> 1 <= IZR (astype_uint8 v).
Proof.
  intros Hv. unfold astype_uint8. destruct (base_Int_part v) as [_ Hgt].
  apply IZR_le. assert (IZR 0 < IZR (Int_part v)) by (simpl; lra).
  apply lt_IZR in H. lia.
Qed.

Lemma clip_nonneg v : 0 <= clip v.
Proof. unfold clip, Rmin, Rmax. destruct (Rle_dec v 0), (Rle_dec 255 _); lra. Qed.

Lemma clip_nonpos v : v <= 0 -> clip v = 0.
Proof. intros H. unfold clip, Rmin, Rmax. destruct (Rle_dec v 0), (Rle_dec 255 _); lra. Qed.

Lemma clip_ge_1 v : 1 <= v -> 1 <= clip v.
Proof. intros H. unfold clip, Rmin, Rmax. destruct (Rle_dec v 0), (Rle_dec 255 _); lra. Qed.

(** A quantized sample has the sign of the perturbation that produced
    it, or is 0. *)
Lemma quantized_term_nonneg s x :
  0 <= s -> 0 <= IZR (astype_uint8 (clip (s * x))) * x.
Proof.
  intros Hs. destruct (Rle_dec x 0) as [Hx|Hx].
  - rewrite clip_nonpos by nra. rewrite (astype_uint8_IZR 0). lra.
  - apply Rmult_le_pos; [apply astype_uint8_nonneg, clip_nonneg|lra].
Qed.

Lemma quantized_term_nonpos s x :
  s <= 0 -> IZR (astype_uint8 (clip (s * x))) * x <= 0.
Proof.
  intros Hs. destruct (Rle_dec 0 x) as [Hx|Hx].
  - rewrite clip_nonpos by nra. rewrite (astype_uint8_IZR 0). lra.
  - pose proof (astype_uint8_nonneg _ (clip_nonneg (s * x))). nra.
Qed.

(** The coefficient read back from a black block after encoding,
    clipping and conversion. *)
Lemma coefficient_black_stego alpha bit :
  entry 0 (dct2 (astype_float (quantize (embed_block alpha bit (black 8 8))))) 4 5
  = sum_n 8 (fun n => sum_n 8 (fun m =>
      IZR (astype_uint8 (clip (encode_sign alpha bit 0 * (basis 8 4 m * basis 8 5 n))))
      * (basis 8 4 m * basis 8 5 n))).
Proof.
  assert (Hs : has_shape 8 8 (embed_block alpha bit (black 8 8)))
    by apply embed_block_shape, has_shape_repeat.
  rewrite (dct2_entry 8 8); try lia.
  2:{ unfold astype_float, quantize. now apply has_shape_map_map, has_shape_map_map. }
  apply sum_n_ext. intros n Hn. rewrite <- sum_n_scal. apply sum_n_ext. intros m Hm.
  rewrite entry_float, (quantize_entry 8 8), embed_block_black_entry by assumption.
  replace (encode_sign alpha bit 0 * basis 8 4 m * basis 8 5 n)
    with (encode_sign alpha bit 0 * (basis 8 4 m * basis 8 5 n)) by ring.
  ring.
Qed.

Lemma block_bit_stego_zero alpha :
  0 < alpha -> block_bit (quantize (embed_block alpha false (black 8 8))) = false.
Proof.
  intros Ha. unfold block_bit. rewrite coefficient_black_stego.
  destruct (Rlt_dec 0 _) as [Hpos|]; [|reflexivity]. exfalso.
  apply (Rlt_irrefl 0). eapply Rlt_le_trans; [exact Hpos|].
  apply sum_n_nonpos. intros n _. apply sum_n_nonpos. intros m _.
  apply quantized_term_nonpos. unfold encode_sign. rewrite Rabs_R0. lra.
Qed.

Lemma block_bit_stego_one alpha :
  1 <= alpha * (basis 8 4 0 * basis 8 5 0) ->
  block_bit (quantize (embed_block alpha true (black 8 8))) = true.
Proof.
  intros Ha. unfold block_bit. rewrite coefficient_black_stego.
  destruct (Rlt_dec 0 _) as [|Hn]; [reflexivity|]. exfalso. apply Hn.
  pose proof basis_4_0_pos as H4. pose proof basis_5_0_pos as H5.
  assert (Hx : 0 < basis 8 4 0 * basis 8 5 0) by now apply Rmult_lt_0_compat.
  assert (Hal : 0 <= alpha).
  { destruct (Rle_dec 0 alpha); [assumption|]. nra. }
  assert (Es : encode_sign alpha true 0 = alpha).
  { unfold encode_sign. rewrite Rabs_R0. ring. }
  rewrite Es.
  set (t := fun n m => IZR (astype_uint8 (clip (alpha * (basis 8 4 m * basis 8 5 n))))
                       * (basis 8 4 m * basis 8 5 n)).
  assert (Ht : forall n m, 0 <= t n m) by (intros; now apply quantized_term_nonneg).
  assert (H00 : 0 < t 0%nat 0%nat).
  { unfold t. apply Rmult_lt_0_compat; [|exact Hx].
    pose proof (astype_uint8_ge_1 _ (clip_ge_1 _ Ha)). lra. }
  eapply Rlt_le_trans; [exact H00|].
  etransitivity; [apply (sum_n_ge_term 8 (fun m => t 0%nat m) 0); [lia|intros; apply Ht]|].
  apply (sum_n_ge_term 8 (fun n => sum_n 8 (fun m => t n m)) 0); [lia|].
  intros n _. apply sum_n_nonneg. intros; apply Ht.
Qed.

Lemma scale_half k : k <> 0%nat -> scale 8 k = 1 / 2.
Proof.
  intros Hk. unfold scale. destruct (Nat.eqb_spec k 0); [contradiction|].
  rewrite INR_8. apply sqrt_lem_1; lra.
Qed.

Lemma corner_basis_bound : 1 / 16 <= basis 8 4 0 * basis 8 5 0.
Proof.
  pose proof PI_RGT_0 as Hpi.
  assert (H4 : 1 / 4 <= basis 8 4 0).
  { unfold basis. rewrite scale_half by lia.
    assert (1 / 2 <= cos (PI * (2 * INR 0 + 1) * INR 4 / (2 * INR 8))).
    { rewrite <- cos_PI3. apply cos_decr_1; simpl INR; lra. }
    lra. }
  assert (H5 : 1 / 4 <= basis 8 5 0).
  { unfold basis. rewrite scale_half by lia.
    assert (1 / 2 <= cos (PI * (2 * INR 0 + 1) * INR 5 / (2 * INR 8))).
    { rewrite <- cos_PI3. apply cos_decr_1; simpl INR; lra. }
    lra. }
  nra.
Qed.

(** From strength 16 on, the bit encoded in a black block survives
    clipping and conversion. *)
Lemma block_bit_stego alpha bit :
  16 <= alpha -> block_bit (quantize (embed_block alpha bit (black 8 8))) = bit.
Proof.
  intros Ha. destruct bit.
  - apply block_bit_stego_one. pose proof corner_basis_bound. nra.
  - apply block_bit_stego_zero. lra.
Qed.

(** The bits read from the stego image of a black grid. *)
Lemma stego_black_bits alpha h w message stego bi total r c :
  16 <= alpha ->
  embed alpha (black h w) message = Embedded stego bi total ->
  (r < h / 8)%nat -> (c < w / 8)%nat ->
  block_bit (get_block stego (r * 8) (c * 8))
  = nth (r * (w / 8) + c) (binary_message message) false.
Proof.
  intros Ha E Hr Hc.
  assert (H : has_shape h w (black h w)) by apply has_shape_repeat.
  destruct (embed_result_shape alpha h w _ _ _ _ _ H E) as [Hfit _].
  destruct (embed_fits alpha h w _ message H Hfit) as [st [E' (_ & _ & Hblk)]].
  rewrite E' in E. injection E as <- _ _. cbn [fst snd] in Hblk.
  unfold quantize at 1. rewrite get_block_map.
  fold (quantize (get_block st (r * 8) (c * 8))).
  rewrite Hblk by assumption. rewrite truncated_black, get_block_black by nia.
  destruct (Nat.ltb_spec (r * (w / 8) + c) (length (binary_message message))).
  - now apply block_bit_stego.
  - rewrite nth_overflow by assumption.
    rewrite quantize_float; [apply block_bit_black|].
    unfold uint8_grid, black. apply Forall_forall. intros row Hrow.
    apply repeat_spec in Hrow. subst row. apply Forall_forall. intros p Hp.
    apply repeat_spec in Hp. subst p. lia.
Qed.

Lemma stego_black_table alpha h w message stego bi total :
  16 <= alpha -> (0 < h / 8)%nat ->
  embed alpha (black h w) message = Embedded stego bi total ->
  forall y x,
    In y (range (fst (shape (extract_truncate stego))) block_size) ->
    In x (range (snd (shape (extract_truncate stego))) block_size) ->
    block_bit (get_block (extract_truncate stego) y x)
    = nth (y / 8 * (w / 8) + x / 8) (binary_message message) false.
Proof.
  intros Ha Hh E y x.
  assert (H : has_shape h w (black h w)) by apply has_shape_repeat.
  destruct (embed_result_shape alpha h w _ _ _ _ _ H E) as [_ Hs].
  rewrite (extract_truncate_aligned _ _ _ Hs), (shape_aligned _ _ _ Hs Hh).
  cbn [fst snd]. unfold block_size. rewrite !(Nat.mul_comm _ 8), !range_mul.
  intros Hy Hx. apply in_map_iff in Hy, Hx.
  destruct Hy as [r [<- Hr]], Hx as [c [<- Hc]]. apply in_seq in Hr, Hc.
  rewrite !Nat.div_mul by lia.
  apply (stego_black_bits alpha h w message stego bi total r c Ha E); lia.
Qed.

End SurvivalFacts.

(** ** The forward transform undoes the inverse transform *)

Module ForwardFacts.
Import ListFacts Py PyFacts Grid GridFacts BlockFacts.
Import Transform TransformFacts Transform2D.
Local Open Scope R_scope.

(** A sum of cosines in arithmetic progression, from any start. *)
Lemma dirichlet_shifted N a d :
  2 * sin (d / 2) * sum_n N (fun n => cos (a + INR n * d))
  = sin (a + (INR N - 1 / 2) * d) - sin (a - d / 2).
Proof.
  induction N as [|N IH].
  - simpl. replace (a + (0 - 1 / 2) * d) with (a - d / 2) by field. ring.
  - cbn [sum_n]. rewrite Rmult_plus_distr_l, IH. rewrite S_INR.
    replace (a + (INR N + 1 - 1 / 2) * d) with ((a + INR N * d) + d / 2) by field.
    replace (a + (INR N - 1 / 2) * d) with ((a + INR N * d) - d / 2) by field.
    rewrite sin_plus, sin_minus. ring.
Qed.

Lemma sin_nat_PI j : sin (INR j * PI) = 0.
Proof.
  apply sin_eq_0_1. exists (Z.of_nat j). now rewrite <- INR_IZR_INZ.
Qed.

(** The sum over the samples of one cosine of the basis. *)
Lemma sample_sum N j : (0 < N)%nat -> (0 < j < 2 * N)%nat ->
  sum_n N (fun n => cos (PI * (2 * INR n + 1) * INR j / (2 * INR N))) = 0.
Proof.
  intros HN Hj.
  assert (HNR : 0 < INR N) by (apply lt_0_INR; lia).
  assert (HjR : 0 < INR j) by (apply lt_0_INR; lia).
  assert (HjN : INR j < 2 * INR N).
  { replace (2 * INR N) with (INR (2 * N)) by (rewrite mult_INR; simpl; ring).
    apply lt_INR; lia. }
  set (d := PI * INR j / INR N).
  rewrite (sum_n_ext N _ (fun n => cos (d / 2 + INR n * d)))
    by (intros n _; f_equal; unfold d; field; lra).
  pose proof (dirichlet_shifted N (d / 2) d) as D.
  replace (d / 2 + (INR N - 1 / 2) * d) with (INR j * PI) in D by (unfold d; field; lra).
  rewrite sin_nat_PI, Rminus_diag, sin_0 in D.
  assert (Hs : sin (d / 2) <> 0).
  { pose proof PI_RGT_0. apply Rgt_not_eq. apply sin_gt_0.
    - unfold d. apply Rdiv_lt_0_compat; [|lra].
      apply Rdiv_lt_0_compat; [|lra]. apply Rmult_lt_0_compat; lra.
    - unfold d. apply Rmult_lt_reg_r with (2 * INR N); [lra|].
      replace (PI * INR j / INR N / 2 * (2 * INR N)) with (PI * INR j) by (field; lra).
      nra. }
  apply Rmult_eq_reg_l with (2 * sin (d / 2)); [|lra]. lra.
Qed.

Lemma sample_sum_zero N :
  sum_n N (fun n => cos (PI * (2 * INR n + 1) * INR 0 / (2 * INR N))) = INR N.
Proof.
  induction N as [|N IH]; [reflexivity|]. cbn [sum_n].
  rewrite (sum_n_ext N _ (fun _ => 1)).
  - rewrite S_INR. replace (PI * (2 * INR N + 1) * INR 0 / (2 * (INR N + 1))) with 0.
    + rewrite cos_0. clear IH. induction N as [|M IHM]; cbn [sum_n]; [simpl; ring|].
      rewrite IHM, S_INR. ring.
    + simpl INR. unfold Rdiv. ring.
  - intros n _. replace (PI * (2 * INR n + 1) * INR 0 / (2 * INR (S N))) with 0.
    + apply cos_0.
    + simpl INR. unfold Rdiv. ring.
Qed.

Lemma cos_product N k l n :
  cos (PI * (2 * INR n + 1) * INR k / (2 * INR N))
  * cos (PI * (2 * INR n + 1) * INR l / (2 * INR N))
  = (cos (PI * (2 * INR n + 1) * INR (k + l) / (2 * INR N))
     + cos (PI * (2 * INR n + 1) * (INR k - INR l) / (2 * INR N))) / 2.
Proof.
  set (a := PI * (2 * INR n + 1) * INR k / (2 * INR N)).
  set (b := PI * (2 * INR n + 1) * INR l / (2 * INR N)).
  replace (PI * (2 * INR n + 1) * INR (k + l) / (2 * INR N)) with (a + b)
    by (unfold a, b; rewrite plus_INR; unfold Rdiv; ring).
  replace (PI * (2 * INR n + 1) * (INR k - INR l) / (2 * INR N)) with (a - b)
    by (unfold a, b; unfold Rdiv; ring).
  rewrite cos_plus, cos_minus. field.
Qed.

(** The rows of the DCT matrix are orthonormal too. *)
Lemma basis_rows_orthogonal_le N k l : (l <= k < N)%nat ->
  sum_n N (fun n => basis N k n * basis N l n) = if Nat.eqb k l then 1 else 0.
Proof.
  intros H. assert (HN : (0 < N)%nat) by lia.
  assert (HNR : 0 < INR N) by (apply lt_0_INR; lia).
  unfold basis.
  rewrite (sum_n_ext N _
    (fun n => cos (PI * (2 * INR n + 1) * INR (k + l) / (2 * INR N))
              * (scale N k * scale N l / 2)
              + cos (PI * (2 * INR n + 1) * INR (k - l) / (2 * INR N))
                * (scale N k * scale N l / 2))).
  2:{ intros n _.
      replace (scale N k * cos (PI * (2 * INR n + 1) * INR k / (2 * INR N))
               * (scale N l * cos (PI * (2 * INR n + 1) * INR l / (2 * INR N))))
        with (scale N k * scale N l
              * (cos (PI * (2 * INR n + 1) * INR k / (2 * INR N))
                 * cos (PI * (2 * INR n + 1) * INR l / (2 * INR N)))) by ring.
      rewrite cos_product, <- minus_INR by lia. field. }
  rewrite sum_n_plus, !sum_n_scal.
  destruct (Nat.eqb_spec k l) as [->|Hne].
  - rewrite Nat.sub_diag, sample_sum_zero, scale_sqr by exact HN.
    destruct (Nat.eqb_spec l 0) as [->|Hl].
    + cbn [Nat.add]. rewrite sample_sum_zero. field; lra.
    + rewrite sample_sum by lia. field; lra.
  - rewrite !sample_sum by lia. ring.
Qed.

Lemma basis_rows_orthogonal N k l : (k < N)%nat -> (l < N)%nat ->
  sum_n N (fun n => basis N k n * basis N l n) = if Nat.eqb k l then 1 else 0.
Proof.
  intros Hk Hl. destruct (Nat.le_gt_cases l k).
  - apply basis_rows_orthogonal_le; lia.
  - rewrite (sum_n_ext N _ (fun n => basis N l n * basis N k n)) by (intros; ring).
    rewrite basis_rows_orthogonal_le by lia. rewrite Nat.eqb_sym. reflexivity.
Qed.

(** The forward kernel undoes the inverse kernel. *)
Lemma inversion_1d_forward N (f : nat -> R) l : (l < N)%nat ->
  sum_n N (fun n => sum_n N (fun k => f k * basis N k n) * basis N l n) = f l.
Proof.
  intros Hl.
  rewrite (sum_n_ext N _ (fun n => sum_n N (fun k => f k * (basis N k n * basis N l n)))).
  2:{ intros n _. rewrite <- sum_n_scal. apply sum_n_ext. intros; ring. }
  rewrite sum_n_swap.
  rewrite (sum_n_ext N _ (fun k => f k * (if Nat.eqb k l then 1 else 0))).
  - apply sum_n_delta; assumption.
  - intros k Hk. rewrite sum_n_ext with (g := fun n => (basis N k n * basis N l n) * f k)
      by (intros; ring).
    rewrite sum_n_scal, basis_rows_orthogonal by assumption. ring.
Qed.

Lemma dct2_idct2 h w a :
  has_shape h w a -> (0 < h)%nat -> (0 < w)%nat -> dct2 (idct2 a) = a.
Proof.
  intros H Hh Hw.
  apply (grid_ext 0 h w); [apply dct2_shape; try apply idct2_shape; assumption|exact H|].
  intros k l Hk Hl.
  rewrite (dct2_entry h w) by (try apply idct2_shape; assumption).
  rewrite (sum_n_ext w _
    (fun n => sum_n w (fun l' => entry 0 a k l' * basis w l' n) * basis w l n)).
  - apply (inversion_1d_forward w (fun l' => entry 0 a k l') l Hl).
  - intros n Hn. f_equal.
    rewrite (sum_n_ext h _
      (fun m => sum_n w (fun l' => sum_n h (fun k' => entry 0 a k' l' * basis h k' m)
                                   * basis h k m * basis w l' n))).
    2:{ intros m Hm. rewrite (idct2_entry h w) by assumption.
        rewrite <- sum_n_scal. apply sum_n_ext. intros; ring. }
    rewrite sum_n_swap. apply sum_n_ext. intros l' Hl'.
    rewrite sum_n_scal.
    rewrite (inversion_1d_forward h (fun k' => entry 0 a k' l') k Hk). reflexivity.
Qed.

End ForwardFacts.

(** ** What the embedder writes and what the scan collects *)

Module OutputFacts.
Import ListFacts Py PyFacts Grid GridFacts BlockFacts Framing FramingFacts.
Import Transform TransformFacts Transform2D Codec ExtractFacts EmbedFacts.
Import NumericFacts CodecFacts RoundTripFacts SurvivalFacts ForwardFacts.

(** *** One coefficient changed, seen in the samples *)

Lemma idct2_entry_update d v i j :
  has_shape 8 8 d -> i < 8 -> j < 8 ->
  entry 0%R (idct2 (set_entry d 4 5 v)) i j
  = (entry 0%R (idct2 d) i j
     + (v - entry 0%R d 4 5) * basis 8 4 i * basis 8 5 j)%R.
Proof.
  intros H Hi Hj.
  rewrite !(idct2_entry 8 8) by (try apply set_entry_shape; (assumption || lia)).
  rewrite <- (sum_n_delta 8
                (fun l => ((v - entry 0 d 4 5) * basis 8 4 i * basis 8 l j)%R) 5)
    by lia.
  rewrite <- sum_n_plus. apply sum_n_ext. intros l Hl.
  assert (Inner :
    sum_n 8 (fun k => (entry 0 (set_entry d 4 5 v) k l * basis 8 k i)%R)
    = (sum_n 8 (fun k => (entry 0 d k l * basis 8 k i)%R)
       + (v - entry 0 d 4 5) * (if Nat.eqb l 5 then 1 else 0) * basis 8 4 i)%R).
  { rewrite <- (sum_n_delta 8
                  (fun k => ((v - entry 0 d 4 5) * (if Nat.eqb l 5 then 1 else 0)
                             * basis 8 k i)%R) 4) by lia.
    rewrite <- sum_n_plus. apply sum_n_ext. intros k Hk.
    rewrite (set_entry_entry 0%R 8 8) by (assumption || lia).
    destruct (Nat.eqb_spec k 4) as [->|], (Nat.eqb_spec l 5) as [->|];
      cbn [andb]; ring. }
  rewrite Inner. ring.
Qed.

Lemma basis_half_bound k n : k <> 0 -> (Rabs (basis 8 k n) <= 1 / 2)%R.
Proof.
  intros Hk. unfold basis. rewrite scale_half by exact Hk.
  rewrite Rabs_mult, (Rabs_pos_eq (1 / 2)) by lra.
  pose proof (COS_bound (PI * (2 * INR n + 1) * INR k / (2 * INR 8))) as [H1 H2].
  assert (Rabs (cos (PI * (2 * INR n + 1) * INR k / (2 * INR 8))) <= 1)%R
    by (apply Rabs_le; lra).
  lra.
Qed.

(** *** Quantized samples are 8-bit *)

Lemma astype_uint8_range v : (0 <= v <= 255)%R -> (0 <= astype_uint8 v <= 255)%Z.
Proof.
  intros [H0 H1]. split.
  - apply le_IZR. now apply astype_uint8_nonneg.
  - apply le_IZR. unfold astype_uint8. destruct (base_Int_part v) as [Hle _]. lra.
Qed.

Lemma clip_range v : (0 <= clip v <= 255)%R.
Proof.
  unfold clip, Rmin, Rmax. destruct (Rle_dec v 0), (Rle_dec 255 _); lra.
Qed.

Lemma quantize_uint8 a : uint8_grid (quantize a).
Proof.
  unfold uint8_grid, quantize. apply Forall_map, Forall_forall. intros row _.
  apply Forall_map, Forall_forall. intros v _. apply astype_uint8_range, clip_range.
Qed.

Lemma embed_result_quantized alpha g message stego bi total :
  embed alpha g message = Embedded stego bi total ->
  exists st, stego = quantize st.
Proof.
  unfold embed. destruct (_ <? _); [discriminate|].
  destruct (embed_rows _ _ _ _ _ _) as [st b]. intros [= <- _ _]. now exists st.
Qed.

(** *** How many bits the scan can collect *)

Lemma length_drop_last_n {A} (l : list A) n : length (drop_last_n n l) <= length l.
Proof. unfold drop_last_n. rewrite length_firstn. lia. Qed.

Lemma length_extract_row ml f xs acc :
  length (extract_row ml f xs acc) <= length acc + length xs.
Proof.
  revert acc. induction xs as [|x xs IH]; intros acc; cbn [extract_row length]; [lia|].
  destruct (length_reached ml acc); [lia|].
  assert (Hs : length (extract_row ml f xs (acc ++ [f x])) <= length acc + S (length xs)).
  { etransitivity; [apply IH|]. rewrite length_app. cbn [length]. lia. }
  destruct (negb (given ml) && _); [|exact Hs].
  destruct (bits_eqb _ _); [|exact Hs].
  etransitivity; [apply length_drop_last_n|]. rewrite length_app. cbn [length]. lia.
Qed.

Lemma length_extract_rows ml f ys xs acc :
  length (extract_rows ml f ys xs acc) <= length acc + length ys * length xs.
Proof.
  revert acc. induction ys as [|y ys IH]; intros acc; cbn [extract_rows length]; [lia|].
  pose proof (length_extract_row ml (f y) xs acc) as Hr.
  destruct (row_stop ml _); [lia|].
  etransitivity; [apply IH|]. lia.
Qed.

Lemma length_collect_bits h w g ml :
  has_shape h w g -> length (collect_bits g ml) <= (h / 8) * (w / 8).
Proof.
  intros H. rewrite <- (length_raster_bits h w g H).
  unfold collect_bits, raster_bits. rewrite length_flat_map_rows.
  etransitivity; [apply length_extract_rows|]. cbn [length]. lia.
Qed.

Lemma decode_printable (b : list bool) : Forall (fun c => printable c = true) (decode b).
Proof.
  destruct (split_groups (length b) b) as (gs & t & E & Hgs & Ht & _); [lia|].
  rewrite E, decode_groups by assumption.
  apply Forall_forall. intros c Hc. apply filter_In in Hc. apply Hc.
Qed.

(** *** The scan without an expected length *)

Lemma collect_bits_all_rows g ml :
  given ml = false ->
  collect_bits g ml
  = fold_left
      (fun b y =>
         extract_row ml (fun x => block_bit (get_block (extract_truncate g) y x))
           (range (snd (shape (extract_truncate g))) block_size) b)
      (range (fst (shape (extract_truncate g))) block_size) [].
Proof.
  intros Hg. unfold collect_bits. apply extract_rows_all_rows; [exact Hg|].
  intros j Hj. cbn in Hj. lia.
Qed.

Lemma fold_rows_clean ml (f : nat -> nat -> bool) ys xs acc :
  given ml = false -> clean acc ->
  clean (fold_left (fun b y => extract_row ml (f y) xs b) ys acc).
Proof.
  intros Hg. revert acc. induction ys as [|y ys IH]; intros acc Hc; [exact Hc|].
  cbn [fold_left]. apply IH. now apply extract_row_keeps_clean.
Qed.

Lemma collect_bits_clean g ml : given ml = false -> clean (collect_bits g ml).
Proof.
  intros Hg. rewrite collect_bits_all_rows by exact Hg.
  apply fold_rows_clean; [exact Hg|]. intros j Hj. cbn in Hj. lia.
Qed.

Lemma collect_bits_no_terminator g ml :
  given ml = false -> clean (raster_bits g) -> collect_bits g ml = raster_bits g.
Proof.
  intros Hg Hc. unfold collect_bits, raster_bits in *.
  rewrite <- (app_nil_r (range (fst _) _)) at 1.
  rewrite extract_rows_clean by assumption. reflexivity.
Qed.

(** The bits before a terminator that ends in the last block row. *)
Lemma collect_bits_payload h w g ml M :
  has_shape h w g -> given ml = false ->
  clean M -> length M mod 8 = 0 ->
  firstn (length M + 8) (raster_bits g) = M ++ terminator ->
  (h / 8 - 1) * (w / 8) < length M + 8 ->
  collect_bits g ml = M.
Proof.
  intros H Hg HM Hmod Hbits Hlast.
  assert (Hfit : length M + 8 <= (h / 8) * (w / 8)).
  { rewrite <- (length_raster_bits h w g H).
    apply (f_equal (@length bool)) in Hbits.
    rewrite length_firstn, length_app in Hbits. cbn [length terminator repeat] in Hbits. lia. }
  assert (Hr : 0 < h / 8) by nia.
  pose proof (truncated_shape h w g H) as Hs.
  unfold collect_bits. unfold raster_bits in Hbits.
  rewrite (extract_truncate_truncated h w g H), (shape_aligned _ _ _ Hs Hr) in *.
  cbn [fst snd] in *. unfold block_size in *.
  rewrite !(Nat.mul_comm _ 8), !range_mul in *.
  set (f := fun y x => block_bit (get_block (truncated g) y x)) in *.
  set (xs := map (fun k => k * 8) (seq 0 (w / 8))) in *.
  replace (h / 8) with (S (h / 8 - 1)) in Hbits |- * by lia.
  rewrite seq_S, map_app in Hbits |- *. cbn [map Nat.add] in Hbits |- *.
  rewrite flat_map_app in Hbits. cbn [flat_map] in Hbits. rewrite app_nil_r in Hbits.
  set (ys := map (fun k => k * 8) (seq 0 (h / 8 - 1))) in *.
  assert (HlenA : length (flat_map (fun y => map (f y) xs) ys) = (h / 8 - 1) * (w / 8)).
  { rewrite length_flat_map_rows. unfold ys, xs.
    now rewrite !length_map, !length_seq. }
  assert (Hxs : length xs = w / 8) by (unfold xs; now rewrite length_map, length_seq).
  apply extract_rows_payload; try assumption.
  - rewrite HlenA. lia.
  - rewrite HlenA, Hxs. nia.
Qed.

(** With the expected length, the message is read from its own bits. *)
Lemma extract_with_length g (message : list N) :
  message <> [] ->
  Forall (fun c => printable c = true) message ->
  firstn (8 * length message) (raster_bits g) = concat (map format_08b message) ->
  extract g (Some (Z.of_nat (8 * length message))) = message.
Proof.
  intros Hne Hm Hbits. unfold extract.
  rewrite collect_bits_length.
  - rewrite Nat2Z.id, Hbits. now apply decode_message.
  - destruct message; [contradiction|]. cbn [length]. lia.
Qed.

(** *** Raster order as one index *)

Lemma seq_offset s n : map (fun c => s + c) (seq 0 n) = seq s n.
Proof.
  revert s. induction n as [|n IH]; intros s; [reflexivity|].
  cbn [seq map]. f_equal; [lia|].
  rewrite <- seq_shift, map_map, <- (IH (S s)). apply map_ext. intros; lia.
Qed.

Lemma flat_map_raster {B} (F : nat -> B) nr nc :
  flat_map (fun r => map (fun c => F (r * nc + c)) (seq 0 nc)) (seq 0 nr)
  = map F (seq 0 (nr * nc)).
Proof.
  induction nr as [|nr IH]; [reflexivity|].
  rewrite seq_S, flat_map_app, IH. cbn [flat_map Nat.add]. rewrite app_nil_r.
  replace (S nr * nc) with (nr * nc + nc) by lia.
  rewrite seq_app, map_app. f_equal. cbn [Nat.add].
  rewrite <- (seq_offset (nr * nc) nc), map_map. reflexivity.
Qed.

Lemma firstn_seq_le s n len : n <= len -> firstn n (seq s len) = seq s n.
Proof.
  revert s len. induction n as [|n IH]; intros s [|len] H; try lia; try reflexivity.
  cbn [seq firstn]. f_equal. apply IH. lia.
Qed.

Lemma map_nth_seq {B} (l : list B) d n :
  n <= length l -> map (fun k => nth k l d) (seq 0 n) = firstn n l.
Proof.
  revert n. induction l as [|a l IH]; intros [|n] Hn; cbn [length] in *; try lia;
    try reflexivity.
  cbn [seq map firstn nth]. f_equal. rewrite <- seq_shift, map_map. apply IH. lia.
Qed.

(** The bits read back from the stego image of a black grid, from
    strength 16 on. *)
Lemma stego_black_raster alpha h w message stego bi total :
  (16 <= alpha)%R ->
  embed alpha (black h w) message = Embedded stego bi total ->
  firstn (length (binary_message message)) (raster_bits stego) = binary_message message.
Proof.
  intros Ha E.
  assert (H : has_shape h w (black h w)) by apply has_shape_repeat.
  destruct (embed_result_shape alpha h w _ _ _ _ _ H E) as [Hfit Hs].
  assert (H8 : 8 <= length (binary_message message)).
  { unfold binary_message. rewrite length_app. cbn. lia. }
  assert (Hr : 0 < h / 8) by nia.
  rewrite (raster_bits_table _ _ (stego_black_table alpha h w message _ _ _ Ha Hr E)).
  rewrite (extract_truncate_aligned _ _ _ Hs), (shape_aligned _ _ _ Hs Hr).
  cbn [fst snd]. unfold block_size. rewrite !(Nat.mul_comm _ 8), !range_mul.
  rewrite flat_map_concat_map, map_map, <- flat_map_concat_map.
  rewrite (flat_map_ext_on _
             (fun r => map (fun c => nth (r * (w / 8) + c) (binary_message message) false)
                           (seq 0 (w / 8)))).
  - rewrite (flat_map_raster (fun k => nth k (binary_message message) false)).
    rewrite firstn_map, firstn_seq_le by lia.
    rewrite map_nth_seq by lia. apply firstn_all.
  - intros r _. rewrite map_map. apply map_ext. intros c.
    now rewrite !Nat.div_mul by lia.
Qed.

End OutputFacts.

(** ** The preview window keeps its view in bounds *)

Module PreviewFacts.
Import Preview.
Local Open Scope R_scope.

Lemma clamp_bounds lo hi v : lo <= hi -> lo <= Rmax lo (Rmin hi v) <= hi.
Proof.
  intros H. unfold Rmax, Rmin.
  destruct (Rle_dec hi v), (Rle_dec lo _); lra.
Qed.

Lemma clamp_offset_range o m : 0 <= Rmax 0 (Rmin o (Rmax 0 m)) <= Rmax 0 m.
Proof.
  unfold Rmax, Rmin.
  destruct (Rle_dec 0 m), (Rle_dec o _), (Rle_dec 0 _); lra.
Qed.

Lemma clamp_offset_inside o m : 0 <= o <= m -> Rmax 0 (Rmin o (Rmax 0 m)) = o.
Proof.
  intros H. unfold Rmax, Rmin.
  destruct (Rle_dec 0 m), (Rle_dec o _), (Rle_dec 0 _); lra.
Qed.

Lemma handle_well_formed h w v e : well_formed v -> well_formed (handle h w v e).
Proof.
  intros (Hs & Hx & Hy). destruct e; cbn [handle].
  - unfold on_mouse_wheel. destruct (zoom_direction num delta); [|now repeat split].
    unfold well_formed, clamp_offsets. cbn [scale offset_x offset_y]. split; [|split].
    + apply clamp_bounds. lra.
    + apply clamp_offset_range.
    + apply clamp_offset_range.
  - now repeat split.
  - now repeat split.
  - unfold on_mouse_move. destruct (dragging v); [|now repeat split].
    unfold well_formed, clamp_offsets. cbn [scale offset_x offset_y]. split; [|split].
    + exact Hs.
    + apply clamp_offset_range.
    + apply clamp_offset_range.
  - now repeat split.
  - now repeat split.
Qed.

Lemma fold_well_formed h w events v :
  well_formed v -> well_formed (fold_left (handle h w) events v).
Proof.
  revert v. induction events as [|e events IH]; intros v Hv; [exact Hv|].
  cbn [fold_left]. apply IH. now apply handle_well_formed.
Qed.

End PreviewFacts.

(** * The claims *)

Import Py PyFacts Grid GridFacts BlockFacts Framing FramingFacts.
Import Transform TransformFacts Transform2D Codec ExtractFacts EmbedFacts.
Import NumericFacts CodecFacts RoundTripFacts SurvivalFacts.

(** C1, as stated, fails: the message "A" embedded with strength 0.1 in
    an all-black 8x128 grid (16 blocks for 16 payload bits) is lost when
    the samples are clipped and converted to 8 bits, and [extract]
    returns the empty text. *)
Lemma C1_counterexample :
  printable 65 = true
  /\ (0 < 1 / 10)%R
  /\ 8 * (length [65%N] + 1) <= (8 / 8) * (128 / 8)
  /\ exists stego bit_index total,
       embed (1 / 10) (black 8 128) [65%N] = Embedded stego bit_index total
       /\ extract stego None = []
       /\ extract stego None <> [65%N].
Proof.
  split; [reflexivity|]. split; [lra|]. split; [cbn; lia|].
  destruct (embed_fits (1 / 10) 8 128 (black 8 128) [65%N]) as [st [E _]];
    [apply has_shape_repeat|cbn; lia|].
  eexists _, _, _. split; [exact E|].
  assert (Hout : extract (quantize st) None = []).
  { unfold extract.
    rewrite (collect_bits_table _ _ (fun _ _ => false)).
    - destruct (embed_result_shape _ 8 128 _ _ _ _ _ (has_shape_repeat 0%Z 8 128) E)
        as [_ Hs].
      rewrite (extract_truncate_aligned _ _ _ Hs), (shape_aligned _ _ _ Hs) by (cbn; lia).
      vm_compute. reflexivity.
    - eapply (block_bits_black_stego (1 / 10) 8 128 [65%N]); [lra|cbn; lia|exact E]. }
  split; [exact Hout|]. rewrite Hout. discriminate.
Qed.

(** C1 - Round trip, amended.  If embedding a message of printable
    characters succeeds, the sign read back from each of the first
    8 * (len + 1) blocks of the stego image is the payload bit (the
    encoding has survived clipping and conversion to 8-bit samples), and
    the payload ends in the last block row, then extracting without an
    expected length returns the message. *)
Theorem C1_round_trip (alpha : R) (cover : list (list Z)) (h w : nat)
    (message : list N) (stego : list (list Z)) (bit_index total : nat) :
  has_shape h w cover ->
  Forall (fun c => printable c = true) message ->
  embed alpha cover message = Embedded stego bit_index total ->
  firstn (8 * (length message + 1)) (raster_bits stego) = binary_message message ->
  (h / 8 - 1) * (w / 8) < 8 * (length message + 1) ->
  extract stego None = message.
Proof.
  intros H Hm E Hbits Hlast.
  destruct (embed_result_shape alpha h w _ _ _ _ _ H E) as [Hfit Hs].
  pose proof (length_binary_message message (printable_bytes message Hm)) as Hlen.
  pose proof (length_message_bits message (printable_bytes message Hm)) as HlenM.
  rewrite Hlen in Hfit.
  assert (Hr : 0 < h / 8) by nia.
  unfold extract.
  transitivity (decode (concat (map format_08b message)));
    [f_equal|now apply decode_message].
  unfold collect_bits. unfold raster_bits in Hbits.
  rewrite (extract_truncate_aligned _ _ _ Hs), (shape_aligned _ _ _ Hs Hr) in *.
  cbn [fst snd] in *. unfold block_size in *.
  rewrite !(Nat.mul_comm _ 8), !range_mul in *.
  set (f := fun y x => block_bit (get_block stego y x)) in *.
  set (xs := map (fun k => k * 8) (seq 0 (w / 8))) in *.
  replace (h / 8) with (S (h / 8 - 1)) in Hbits |- * by lia.
  rewrite seq_S, map_app in Hbits |- *. cbn [map Nat.add] in Hbits |- *.
  rewrite flat_map_app in Hbits. cbn [flat_map] in Hbits. rewrite app_nil_r in Hbits.
  set (ys := map (fun k => k * 8) (seq 0 (h / 8 - 1))) in *.
  assert (HlenA : length (flat_map (fun y => map (f y) xs) ys) = (h / 8 - 1) * (w / 8)).
  { rewrite length_flat_map_rows. unfold ys, xs.
    now rewrite !length_map, !length_seq. }
  assert (Hxs : length xs = w / 8) by (unfold xs; now rewrite length_map, length_seq).
  apply extract_rows_payload.
  - reflexivity.
  - apply clean_groups. now apply printable_groups.
  - rewrite HlenM, Nat.mul_comm. apply Nat.Div0.mod_mul.
  - rewrite HlenA, HlenM. lia.
  - rewrite HlenA, HlenM, Hxs. nia.
  - rewrite HlenM. replace (8 * length message + 8) with (8 * (length message + 1)) by lia.
    exact Hbits.
Qed.

(** The message "Hi" embedded with strength 16 in a black 16x96 grid (two
    block rows of twelve blocks, for 24 payload bits) is read back. *)
Lemma C1_witness :
  exists stego bit_index total,
    embed 16 (black 16 96) [72%N; 105%N] = Embedded stego bit_index total
    /\ extract stego None = [72%N; 105%N].
Proof.
  destruct (embed_fits 16 16 96 (black 16 96) [72%N; 105%N]) as [st [E _]];
    [apply has_shape_repeat|cbn; lia|].
  eexists _, _, _. split; [exact E|].
  eapply (C1_round_trip 16 (black 16 96) 16 96 [72%N; 105%N]).
  - apply has_shape_repeat.
  - repeat constructor.
  - exact E.
  - rewrite (raster_bits_table _
               (fun y x => nth (y / 8 * (96 / 8) + x / 8)
                               (binary_message [72%N; 105%N]) false)).
    + destruct (embed_result_shape _ 16 96 _ _ _ _ _ (has_shape_repeat 0%Z 16 96) E)
        as [_ Hs].
      rewrite (extract_truncate_aligned _ _ _ Hs), (shape_aligned _ _ _ Hs) by (cbn; lia).
      vm_compute. reflexivity.
    + eapply (stego_black_table 16 16 96 [72%N; 105%N]); [lra|cbn; lia|exact E].
  - cbn. lia.
Defined.

(** C2 - Terminator detection: the code does not stop at the terminator.
    In the 16x64 grid [terminator_then_text] the eight blocks of the
    first block row read 00000000, and two blocks of the second block row
    have a positive coefficient.  The first completed group is the
    terminator, yet [extract] returns the text read from the second block
    row. *)
Theorem C2_scan_resumes_after_terminator :
  firstn 8 (raster_bits terminator_then_text) = terminator
  /\ extract terminator_then_text None = [65%N].
Proof.
  split.
  - rewrite (raster_bits_table _
               (fun y x => Nat.eqb y 8 && (Nat.eqb x 8 || Nat.eqb x 56)))
      by block_table block_bit_black block_bit_corner.
    vm_compute. reflexivity.
  - unfold extract.
    rewrite (collect_bits_table _ _
               (fun y x => Nat.eqb y 8 && (Nat.eqb x 8 || Nat.eqb x 56)))
      by block_table block_bit_black block_bit_corner.
    vm_compute. reflexivity.
Qed.

(** C3, as stated, fails: the character U+0100 is formatted on 9 binary
    digits, so a one-character message whose 8 * (1 + 1) = 16 bits would
    fill a 16-block grid exactly is rejected. *)
Lemma C3_counterexample :
  8 * (length [256%N] + 1) <= (8 / 8) * (128 / 8)
  /\ embed (1 / 10) (black 8 128) [256%N] = CapacityError 2.
Proof.
  split; [cbn; lia|].
  apply (embed_too_long (1 / 10) 8 128); [apply has_shape_repeat|].
  cbn. lia.
Qed.

(** C3 - Capacity boundary, amended.  For a message whose characters all
    have code points below 256 the payload has 8 * (len + 1) bits, and
    [embed] aborts with the capacity error exactly when that exceeds
    (rows // 8) * (cols // 8); the error carries capacity // 8, and a
    payload that fills the capacity exactly is embedded. *)
Theorem C3_capacity_boundary (alpha : R) (cover : list (list Z)) (h w : nat)
    (message : list N) :
  has_shape h w cover ->
  Forall (fun c => (c < 256)%N) message ->
  let capacity := (h / 8) * (w / 8) in
  length (binary_message message) = 8 * (length message + 1)
  /\ ((exists max_length, embed alpha cover message = CapacityError max_length)
      <-> capacity < 8 * (length message + 1))
  /\ (capacity < 8 * (length message + 1) ->
      embed alpha cover message = CapacityError (capacity / 8))
  /\ (8 * (length message + 1) <= capacity ->
      exists stego bit_index total,
        embed alpha cover message = Embedded stego bit_index total).
Proof.
  intros H Hm capacity.
  pose proof (length_binary_message message Hm) as Hlen.
  assert (Hlong : capacity < 8 * (length message + 1) ->
                  embed alpha cover message = CapacityError (capacity / 8)).
  { intros Hc. apply (embed_too_long alpha h w); [exact H|]. rewrite Hlen. exact Hc. }
  assert (Hfit : 8 * (length message + 1) <= capacity ->
                 exists stego bit_index total,
                   embed alpha cover message = Embedded stego bit_index total).
  { intros Hc. destruct (embed_fits alpha h w cover message H) as [st [E _]].
    - rewrite Hlen. exact Hc.
    - eexists _, _, _. exact E. }
  split; [exact Hlen|]. split; [|split; assumption].
  split.
  - intros [k E]. destruct (Nat.lt_ge_cases capacity (8 * (length message + 1))) as [|Hge];
      [assumption|].
    destruct (Hfit Hge) as (s & bi & t & E'). congruence.
  - intros Hc. eexists. now apply Hlong.
Qed.

Lemma C3_witness :
  exists stego bit_index total,
    embed (1 / 10) (black 8 128) [65%N] = Embedded stego bit_index total.
Proof.
  assert (Hs : has_shape 8 128 (black 8 128)) by apply has_shape_repeat.
  assert (Hm : Forall (fun c => (c < 256)%N) [65%N]) by (repeat constructor).
  destruct (C3_capacity_boundary (1 / 10) (black 8 128) 8 128 [65%N] Hs Hm)
    as (_ & _ & _ & Hfit).
  apply Hfit. cbn. lia.
Defined.

(** C4, as stated, fails twice.  A length of 0 is not a bound: one bit is
    collected from a one-block grid.  And with a length of 16 the third
    block does reach the output: changing only that block changes the
    text. *)
Lemma C4_counterexample :
  length (collect_bits (black 8 8) (Some 0%Z))
    <> Nat.min (Z.to_nat 0) (total_blocks (black 8 8))
  /\ extract (black 8 128) (Some 16%Z) = []
  /\ extract (with_sample (black 8 128) 0 16 255%Z) (Some 16%Z) = [32%N].
Proof.
  split; [|split].
  - rewrite (collect_bits_table _ _ (fun _ _ => false))
      by block_table block_bit_black block_bit_corner.
    vm_compute. discriminate.
  - unfold extract.
    rewrite (collect_bits_table _ _ (fun _ _ => false))
      by block_table block_bit_black block_bit_corner.
    vm_compute. reflexivity.
  - unfold extract.
    rewrite (collect_bits_table _ _ (fun _ x => Nat.eqb x 16))
      by block_table block_bit_black block_bit_corner.
    vm_compute. reflexivity.
Qed.

(** C4 - Length-bounded extraction, amended.  For every positive
    expected bit length [n], [extract] collects exactly the bits of the
    first min(n, number of blocks) blocks in raster order: never more
    than [n], so nothing is left to truncate.  The text has at most
    n // 8 characters (2 for n = 16) and depends on no block of raster
    index [n] or more.  A length of 0 is treated as an absent length. *)
Theorem C4_length_bounded (stego_image : list (list Z)) (h w : nat) (n : Z) :
  has_shape h w stego_image -> (0 < n)%Z ->
  collect_bits stego_image (Some n) = firstn (Z.to_nat n) (raster_bits stego_image)
  /\ length (collect_bits stego_image (Some n))
     = Nat.min (Z.to_nat n) ((h / 8) * (w / 8))
  /\ length (extract stego_image (Some n)) <= Z.to_nat n / 8
  /\ (forall other,
         firstn (Z.to_nat n) (raster_bits other)
         = firstn (Z.to_nat n) (raster_bits stego_image) ->
         extract other (Some n) = extract stego_image (Some n))
  /\ collect_bits stego_image (Some 0%Z) = collect_bits stego_image None.
Proof.
  intros H Hn.
  assert (Hn0 : n <> 0%Z) by lia.
  assert (Hlen : length (collect_bits stego_image (Some n))
                 = Nat.min (Z.to_nat n) ((h / 8) * (w / 8))).
  { rewrite collect_bits_length by exact Hn0.
    now rewrite length_firstn, (length_raster_bits h w). }
  split; [now apply collect_bits_length|]. split; [exact Hlen|].
  split; [|split].
  - unfold extract. etransitivity; [apply length_decode|].
    apply Nat.Div0.div_le_mono. rewrite Hlen. lia.
  - intros other E. unfold extract. now rewrite !collect_bits_length, E by exact Hn0.
  - unfold collect_bits. now apply extract_rows_not_given.
Qed.

Lemma C4_witness :
  length (collect_bits (black 8 16) (Some 16%Z)) = 2
  /\ length (extract (black 8 16) (Some 16%Z)) <= 2.
Proof.
  assert (Hs : has_shape 8 16 (black 8 16)) by apply has_shape_repeat.
  assert (Hn : (0 < 16)%Z) by lia.
  destruct (C4_length_bounded (black 8 16) 8 16 16%Z Hs Hn) as (_ & H1 & H2 & _).
  split; [exact H1|exact H2].
Defined.

(** C5 - Sign-encoding rule.  For every 8x8 block, bit and strength
    [alpha > 0], the coefficient at (4, 5) after line 79/81 is
    [|c| + alpha] for bit 1 and [-|c| - alpha] for bit 0, where [c] is
    the coefficient before; it is positive exactly when the bit is 1,
    whatever [c] was. *)
Theorem C5_sign_encoding (alpha : R) (bit : bool) (block : list (list R)) :
  has_shape 8 8 block -> (0 < alpha)%R ->
  let c := entry 0%R (dct2 block) 4 5 in
  let c' := entry 0%R (set_coefficient alpha bit (dct2 block)) 4 5 in
  c' = (if bit then Rabs c + alpha else - Rabs c - alpha)%R
  /\ (if bit then 0 < c' else c' < 0)%R
  /\ ((0 < c')%R <-> bit = true).
Proof.
  intros H Ha c c'.
  assert (E : c' = encode_sign alpha bit c).
  { unfold c', set_coefficient.
    rewrite (set_entry_entry 0%R 8 8) by (try lia; apply dct2_shape; (assumption || lia)).
    reflexivity. }
  pose proof (Rabs_pos c) as Hc.
  rewrite E. unfold encode_sign. destruct bit; repeat split; try lra; congruence.
Qed.

Lemma C5_witness :
  (0 < entry 0%R (set_coefficient (1 / 10) true (dct2 (astype_float (black 8 8)))) 4 5)%R.
Proof.
  assert (Hs : has_shape 8 8 (astype_float (black 8 8)))
    by (unfold astype_float; apply has_shape_map_map, has_shape_repeat).
  assert (Ha : (0 < 1 / 10)%R) by lra.
  destruct (C5_sign_encoding (1 / 10) true (astype_float (black 8 8)) Hs Ha)
    as (_ & H & _).
  exact H.
Defined.

(** C6 - Untouched tail.  When the payload fits, every block whose
    raster index is at least the length of the payload bitstream is, in
    the stego image, identical to the same block of the truncated source
    grid. *)
Theorem C6_untouched_tail (alpha : R) (cover : list (list Z)) (h w : nat)
    (message : list N) :
  has_shape h w cover -> uint8_grid cover ->
  length (binary_message message) <= (h / 8) * (w / 8) ->
  exists stego bit_index total,
    embed alpha cover message = Embedded stego bit_index total
    /\ forall r c, r < h / 8 -> c < w / 8 ->
         length (binary_message message) <= r * (w / 8) + c ->
         get_block stego (r * 8) (c * 8) = get_block (truncated cover) (r * 8) (c * 8).
Proof.
  intros H Hu Hfit.
  destruct (embed_fits alpha h w cover message H Hfit) as [st [E (_ & _ & Hblk)]].
  eexists _, _, _. split; [exact E|].
  intros r c Hr Hc Htail. cbn [fst snd] in Hblk.
  unfold quantize at 1. rewrite get_block_map. fold (quantize (get_block st (r * 8) (c * 8))).
  rewrite Hblk by assumption.
  destruct (Nat.ltb_spec (r * (w / 8) + c) (length (binary_message message))); [lia|].
  apply quantize_float, uint8_get_block. now apply (uint8_truncated h w).
Qed.

Lemma C6_witness :
  exists stego bit_index total,
    embed (1 / 10) (black 8 72) [] = Embedded stego bit_index total
    /\ get_block stego 0 64 = get_block (truncated (black 8 72)) 0 64.
Proof.
  assert (Hs : has_shape 8 72 (black 8 72)) by apply has_shape_repeat.
  assert (Hu : uint8_grid (black 8 72)).
  { unfold uint8_grid, black. apply Forall_forall. intros row Hr.
    apply repeat_spec in Hr. subst row. apply Forall_forall. intros p Hp.
    apply repeat_spec in Hp. subst p. lia. }
  assert (Hfit : length (binary_message []) <= 8 / 8 * (72 / 8)) by (cbn; lia).
  destruct (C6_untouched_tail (1 / 10) (black 8 72) 8 72 [] Hs Hu Hfit)
    as (stego & bi & total & E & Htail).
  exists stego, bi, total. split; [exact E|].
  apply (Htail 0 8); cbn; lia.
Defined.

(** C7 - Transform round trip.  For every real-valued 8x8 block the
    inverse transform of the forward transform is the block itself; in
    particular every entry is within any tolerance of the original. *)
Theorem C7_transform_round_trip (block : list (list R)) :
  has_shape 8 8 block ->
  idct2 (dct2 block) = block
  /\ forall i j, (Rabs (entry 0 (idct2 (dct2 block)) i j - entry 0 block i j)
                  <= 1 / 1000000)%R.
Proof.
  intros H. assert (E : idct2 (dct2 block) = block) by (apply (idct2_dct2 8 8); (assumption || lia)).
  split; [exact E|]. intros i j. rewrite E.
  rewrite Rminus_diag, Rabs_R0. lra.
Qed.

Lemma C7_witness :
  idct2 (dct2 (astype_float (black 8 8))) = astype_float (black 8 8).
Proof.
  assert (Hs : has_shape 8 8 (astype_float (black 8 8)))
    by (unfold astype_float; apply has_shape_map_map, has_shape_repeat).
  destruct (C7_transform_round_trip (astype_float (black 8 8)) Hs) as (H & _).
  exact H.
Defined.

(** C8 - Filtering policy.  The collected bits are cut into consecutive
    8-bit groups, a shorter trailing group is discarded, and the decoded
    text consists of the values of exactly those groups that are in
    32..126 or one of 9, 10, 13, in order; nothing is inserted for the
    others.  Every bit string is such a sequence of groups and a tail. *)
Theorem C8_filtering_policy (groups : list (list bool)) (tail : list bool) :
  Forall (fun g => length g = 8) groups -> length tail < 8 ->
  decode (concat groups ++ tail) = filter printable (map int2 groups)
  /\ (forall c, printable c = true
                <-> ((32 <= c <= 126)%N \/ c = 9%N \/ c = 10%N \/ c = 13%N))
  /\ (forall b : list bool, exists gs t,
         b = concat gs ++ t /\ Forall (fun g => length g = 8) gs /\ length t < 8)
  /\ (forall stego_image message_length,
         extract stego_image message_length
         = decode (collect_bits stego_image message_length)).
Proof.
  intros Hg Ht. split; [now apply decode_groups|]. split; [|split].
  - intros c. unfold printable.
    rewrite !orb_true_iff, andb_true_iff, !N.leb_le, !N.eqb_eq. tauto.
  - intros b. destruct (split_groups (length b) b) as (gs & t & E & Hgs & Hlt & _); [lia|].
    now exists gs, t.
  - reflexivity.
Qed.

Lemma C8_witness :
  decode (concat [format_08b 72; format_08b 7; format_08b 105] ++ [true; false])
  = [72%N; 105%N].
Proof.
  assert (Hg : Forall (fun g : list bool => length g = 8)
                 [format_08b 72; format_08b 7; format_08b 105])
    by (repeat constructor).
  assert (Ht : length [true; false] < 8) by (cbn; lia).
  destruct (C8_filtering_policy _ _ Hg Ht) as (H & _).
  exact H.
Defined.

(** C9 - Truncation.  On a grid of any dimensions [embed] and [extract]
    behave as on the grid cropped to the largest lower multiples of 8:
    results are equal, two grids with the same crop give the same
    results, the capacity is (h // 8) * (w // 8), and the stego image has
    the cropped dimensions. *)
Theorem C9_truncation (alpha : R) (cover : list (list Z)) (h w : nat)
    (message : list N) (message_length : option Z) :
  has_shape h w cover ->
  truncated cover = crop cover (8 * (h / 8)) (8 * (w / 8))
  /\ embed alpha cover message = embed alpha (truncated cover) message
  /\ extract cover message_length = extract (truncated cover) message_length
  /\ total_blocks (embed_truncate cover) = (h / 8) * (w / 8)
  /\ length (raster_bits cover) = (h / 8) * (w / 8)
  /\ (forall stego bit_index total,
         embed alpha cover message = Embedded stego bit_index total ->
         has_shape (8 * (h / 8)) (8 * (w / 8)) stego)
  /\ (forall other,
         has_shape h w other -> truncated other = truncated cover ->
         embed alpha other message = embed alpha cover message
         /\ extract other message_length = extract cover message_length).
Proof.
  intros H.
  pose proof (truncated_shape h w cover H) as Ht.
  assert (Eemb : forall g, has_shape h w g ->
                   embed alpha g message = embed alpha (truncated g) message).
  { intros g Hg. unfold embed.
    rewrite (embed_truncate_truncated h w g Hg).
    rewrite (embed_truncate_truncated _ _ _ (truncated_shape h w g Hg)).
    now rewrite (truncated_idem h w g Hg). }
  assert (Eext : forall g, has_shape h w g ->
                   extract g message_length = extract (truncated g) message_length).
  { intros g Hg. unfold extract, collect_bits.
    rewrite (extract_truncate_truncated h w g Hg).
    rewrite (extract_truncate_truncated _ _ _ (truncated_shape h w g Hg)).
    now rewrite (truncated_idem h w g Hg). }
  split; [now apply truncated_crop|].
  split; [now apply Eemb|]. split; [now apply Eext|].
  split; [|split; [|split]].
  - rewrite (embed_truncate_truncated h w cover H). now apply total_blocks_aligned.
  - now apply length_raster_bits.
  - intros stego bi total E.
    destruct (Nat.lt_ge_cases (h / 8 * (w / 8)) (length (binary_message message)))
      as [Hlong|Hfit].
    + rewrite (embed_too_long alpha h w cover message H Hlong) in E. discriminate.
    + destruct (embed_fits alpha h w cover message H Hfit) as [st [E' (_ & Hs & _)]].
      rewrite E' in E. injection E as <- _ _. cbn [fst] in Hs.
      rewrite !(Nat.mul_comm 8). unfold quantize. now apply has_shape_map_map.
  - intros other Ho Eq. split.
    + now rewrite (Eemb other Ho), (Eemb cover H), Eq.
    + now rewrite (Eext other Ho), (Eext cover H), Eq.
Qed.

(** A 20x20 grid behaves as a 16x16 grid and yields 4 blocks. *)
Lemma C9_witness :
  truncated (black 20 20) = crop (black 20 20) 16 16
  /\ total_blocks (embed_truncate (black 20 20)) = 4
  /\ length (raster_bits (black 20 20)) = 4.
Proof.
  assert (Hs : has_shape 20 20 (black 20 20)) by apply has_shape_repeat.
  destruct (C9_truncation (1 / 10) (black 20 20) 20 20 [] None Hs)
    as (H1 & _ & _ & H2 & H3 & _).
  split; [exact H1|]. split; [exact H2|exact H3].
Defined.

(** C10 - Full embedding on success.  Whenever [embed] writes a stego
    image, the embedded-bit count of its report equals the length of the
    payload bitstream. *)
Theorem C10_full_embedding (alpha : R) (cover : list (list Z)) (message : list N)
    (stego : list (list Z)) (bit_index total : nat) :
  embed alpha cover message = Embedded stego bit_index total ->
  bit_index = total /\ total = length (binary_message message).
Proof.
  unfold embed.
  destruct (Nat.ltb_spec (total_blocks (embed_truncate cover))
                         (length (binary_message message))) as [|Hfit]; [discriminate|].
  pose proof (embed_rows_counter alpha (embed_truncate cover) (binary_message message)
                (range (fst (shape (embed_truncate cover))) block_size)
                (range (snd (shape (embed_truncate cover))) block_size)
                (astype_float (embed_truncate cover), 0) (Nat.le_0_l _)) as Hc.
  destruct (embed_rows _ _ _ _ _ _) as [st bi]. intros [= _ <- <-].
  cbn [snd] in Hc. split; [|reflexivity]. rewrite Hc.
  apply Nat.min_l. etransitivity; [exact Hfit|]. unfold total_blocks, block_size.
  cbn [Nat.add]. apply Nat.mul_le_mono; apply length_range_ge.
Qed.

Lemma C10_witness :
  exists stego bit_index total,
    embed (1 / 10) (black 8 64) [] = Embedded stego bit_index total
    /\ bit_index = total /\ total = 8.
Proof.
  destruct (embed_fits (1 / 10) 8 64 (black 8 64) []) as [st [E _]].
  - apply has_shape_repeat.
  - cbn. lia.
  - eexists _, _, _. split; [exact E|].
    exact (C10_full_embedding _ _ _ _ _ _ E).
Defined.

(** * Further properties of the code *)

Import ListFacts ForwardFacts OutputFacts PreviewFacts.

(** X1 - The forward transform undoes the inverse transform: for every
    8x8 block of coefficients, [dct2 (idct2 d) = d].  With C7 the two
    transforms are mutually inverse bijections on 8x8 blocks. *)
Theorem X1_forward_round_trip (d : list (list R)) :
  has_shape 8 8 d -> dct2 (idct2 d) = d.
Proof. intros H. apply (dct2_idct2 8 8); (assumption || lia). Qed.

Lemma X1_witness :
  dct2 (idct2 (astype_float (black 8 8))) = astype_float (black 8 8).
Proof.
  apply X1_forward_round_trip.
  unfold astype_float. apply has_shape_map_map, has_shape_repeat.
Defined.

(** X2 - Before clipping, the block written by [embed] differs from the
    source block in exactly one frequency coefficient: the one at (4, 5)
    is the encoded value, the other 63 are those of the source block. *)
Theorem X2_encoded_block_spectrum (alpha : R) (bit : bool) (block : list (list Z))
    (k l : nat) :
  has_shape 8 8 block -> k < 8 -> l < 8 ->
  entry 0%R (dct2 (embed_block alpha bit block)) k l
  = if Nat.eqb k 4 && Nat.eqb l 5
    then encode_sign alpha bit (entry 0%R (dct2 (astype_float block)) 4 5)
    else entry 0%R (dct2 (astype_float block)) k l.
Proof.
  intros H Hk Hl.
  assert (Hd : has_shape 8 8 (dct2 (astype_float block))).
  { apply dct2_shape; try lia. unfold astype_float. now apply has_shape_map_map. }
  unfold embed_block. rewrite (dct2_idct2 8 8); try lia.
  - unfold set_coefficient. now rewrite (set_entry_entry 0%R 8 8) by (assumption || lia).
  - unfold set_coefficient. apply set_entry_shape; (assumption || lia).
Qed.

Lemma X2_witness :
  entry 0%R (dct2 (embed_block (1 / 10) true (black 8 8))) 4 5
  = encode_sign (1 / 10) true (entry 0%R (dct2 (astype_float (black 8 8))) 4 5).
Proof.
  apply (X2_encoded_block_spectrum (1 / 10) true (black 8 8) 4 5).
  - apply has_shape_repeat.
  - lia.
  - lia.
Defined.

(** X3 - In the samples, encoding a bit adds to the block a multiple of
    one fixed pattern, the product of row 4 and row 5 of the DCT basis;
    with a positive strength no sample moves by more than
    [(2 |c| + alpha) / 4], where [c] is the coefficient before. *)
Theorem X3_encoded_block_samples (alpha : R) (bit : bool) (block : list (list Z))
    (i j : nat) :
  has_shape 8 8 block -> (0 < alpha)%R -> i < 8 -> j < 8 ->
  let c := entry 0%R (dct2 (astype_float block)) 4 5 in
  entry 0%R (embed_block alpha bit block) i j
  = (IZR (entry 0%Z block i j)
     + (encode_sign alpha bit c - c) * basis 8 4 i * basis 8 5 j)%R
  /\ (Rabs (entry 0%R (embed_block alpha bit block) i j - IZR (entry 0%Z block i j))
      <= (2 * Rabs c + alpha) / 4)%R.
Proof.
  intros H Ha Hi Hj c.
  assert (Hf : has_shape 8 8 (astype_float block))
    by (unfold astype_float; now apply has_shape_map_map).
  assert (Hd : has_shape 8 8 (dct2 (astype_float block)))
    by (apply dct2_shape; (assumption || lia)).
  assert (E : entry 0%R (embed_block alpha bit block) i j
              = (IZR (entry 0%Z block i j)
                 + (encode_sign alpha bit c - c) * basis 8 4 i * basis 8 5 j)%R).
  { unfold embed_block, set_coefficient.
    rewrite idct2_entry_update by assumption.
    rewrite (idct2_dct2 8 8) by (assumption || lia).
    now rewrite entry_float. }
  split; [exact E|]. rewrite E.
  replace (IZR (entry 0%Z block i j)
           + (encode_sign alpha bit c - c) * basis 8 4 i * basis 8 5 j
           - IZR (entry 0%Z block i j))%R
    with ((encode_sign alpha bit c - c) * basis 8 4 i * basis 8 5 j)%R by ring.
  rewrite !Rabs_mult.
  pose proof (basis_half_bound 4 i ltac:(lia)) as H4.
  pose proof (basis_half_bound 5 j ltac:(lia)) as H5.
  pose proof (Rabs_pos (basis 8 4 i)) as P4. pose proof (Rabs_pos (basis 8 5 j)) as P5.
  assert (Hdelta : (Rabs (encode_sign alpha bit c - c) <= 2 * Rabs c + alpha)%R).
  { pose proof (Rabs_pos c) as Pc. pose proof (Rle_abs c) as Uc.
    pose proof (Rle_abs (- c)) as Lc. rewrite Rabs_Ropp in Lc.
    unfold encode_sign. destruct bit; apply Rabs_le; split; lra. }
  pose proof (Rabs_pos (encode_sign alpha bit c - c)) as Pd.
  set (x := Rabs (basis 8 4 i)) in *. set (y := Rabs (basis 8 5 j)) in *.
  set (dl := Rabs (encode_sign alpha bit c - c)) in *.
  assert (dl * x <= dl * (1 / 2))%R by (apply Rmult_le_compat_l; lra).
  assert (0 <= dl * x)%R by (apply Rmult_le_pos; lra).
  assert (dl * x * y <= dl * x * (1 / 2))%R by (apply Rmult_le_compat_l; lra).
  lra.
Qed.

Lemma X3_witness :
  (Rabs (entry 0%R (embed_block (1 / 10) true (black 8 8)) 0 0
         - IZR (entry 0%Z (black 8 8) 0 0))
   <= (2 * Rabs (entry 0%R (dct2 (astype_float (black 8 8))) 4 5) + 1 / 10) / 4)%R.
Proof.
  assert (Hs : has_shape 8 8 (black 8 8)) by apply has_shape_repeat.
  assert (Ha : (0 < 1 / 10)%R) by lra.
  assert (H0 : 0 < 8) by lia.
  destruct (X3_encoded_block_samples (1 / 10) true (black 8 8) 0 0 Hs Ha H0 H0) as [_ H].
  exact H.
Defined.

(** X4 - Whatever the cover and the strength, every sample of the image
    [embed] writes is in 0..255. *)
Theorem X4_stego_is_8bit (alpha : R) (cover : list (list Z)) (message : list N)
    (stego : list (list Z)) (bit_index total : nat) :
  embed alpha cover message = Embedded stego bit_index total ->
  uint8_grid stego.
Proof.
  intros E. destruct (embed_result_quantized _ _ _ _ _ _ E) as [st ->].
  apply quantize_uint8.
Qed.

Lemma X4_witness :
  exists stego bit_index total,
    embed 1000 (black 8 64) [] = Embedded stego bit_index total
    /\ uint8_grid stego.
Proof.
  destruct (embed_fits 1000 8 64 (black 8 64) []) as [st [E _]];
    [apply has_shape_repeat|cbn; lia|].
  eexists _, _, _. split; [exact E|].
  exact (X4_stego_is_8bit _ _ _ _ _ _ E).
Defined.

(** X5 - Encoded head.  When the payload fits, every block whose raster
    index is below the payload length is, in the stego image, the clipped
    and converted encoding of payload bit number index in the same block
    of the truncated source: blocks are processed independently, one bit
    each, in raster order. *)
Theorem X5_encoded_head (alpha : R) (cover : list (list Z)) (h w : nat)
    (message : list N) :
  has_shape h w cover ->
  length (binary_message message) <= (h / 8) * (w / 8) ->
  exists stego bit_index total,
    embed alpha cover message = Embedded stego bit_index total
    /\ forall r c, r < h / 8 -> c < w / 8 ->
         r * (w / 8) + c < length (binary_message message) ->
         get_block stego (r * 8) (c * 8)
         = quantize (embed_block alpha
                       (nth (r * (w / 8) + c) (binary_message message) false)
                       (get_block (truncated cover) (r * 8) (c * 8))).
Proof.
  intros H Hfit.
  destruct (embed_fits alpha h w cover message H Hfit) as [st [E (_ & _ & Hblk)]].
  eexists _, _, _. split; [exact E|].
  intros r c Hr Hc Hhead. cbn [fst snd] in Hblk.
  unfold quantize at 1. rewrite get_block_map.
  fold (quantize (get_block st (r * 8) (c * 8))).
  rewrite Hblk by assumption.
  destruct (Nat.ltb_spec (r * (w / 8) + c) (length (binary_message message))); [|lia].
  reflexivity.
Qed.

Lemma X5_witness :
  exists stego bit_index total,
    embed (1 / 10) (black 8 64) [] = Embedded stego bit_index total
    /\ get_block stego 0 56
       = quantize (embed_block (1 / 10) false (get_block (truncated (black 8 64)) 0 56)).
Proof.
  assert (Hs : has_shape 8 64 (black 8 64)) by apply has_shape_repeat.
  assert (Hfit : length (binary_message []) <= 8 / 8 * (64 / 8)) by (cbn; lia).
  destruct (X5_encoded_head (1 / 10) (black 8 64) 8 64 [] Hs Hfit)
    as (stego & bi & total & E & Hhead).
  exists stego, bi, total. split; [exact E|].
  apply (Hhead 0 7); cbn; lia.
Defined.

(** X6 - The maximum length printed with the capacity error is one too
    many: a message of byte characters is embedded if and only if it has
    fewer than capacity // 8 characters, so a message of exactly
    capacity // 8 characters, the printed maximum, is rejected. *)
Theorem X6_max_length_off_by_one (alpha : R) (cover : list (list Z)) (h w : nat)
    (message : list N) :
  has_shape h w cover ->
  Forall (fun c => (c < 256)%N) message ->
  let max_length := (h / 8) * (w / 8) / 8 in
  ((exists stego bit_index total,
       embed alpha cover message = Embedded stego bit_index total)
   <-> length message < max_length)
  /\ (length message = max_length ->
      embed alpha cover message = CapacityError max_length).
Proof.
  intros H Hm max_length.
  pose proof (length_binary_message message Hm) as Hlen.
  assert (Hiff : 8 * (length message + 1) <= h / 8 * (w / 8)
                 <-> length message < max_length).
  { unfold max_length. pose proof (Nat.div_mod_eq (h / 8 * (w / 8)) 8).
    pose proof (Nat.mod_upper_bound (h / 8 * (w / 8)) 8). lia. }
  split; [split|].
  - intros (s & bi & t & E).
    destruct (embed_result_shape alpha h w _ _ _ _ _ H E) as [Hfit _].
    apply Hiff. now rewrite <- Hlen.
  - intros Hlt. apply Hiff in Hlt.
    destruct (embed_fits alpha h w cover message H) as [st [E _]];
      [now rewrite Hlen|].
    eexists _, _, _. exact E.
  - intros Heq. apply (embed_too_long alpha h w); [exact H|].
    rewrite Hlen. destruct (Nat.lt_ge_cases (h / 8 * (w / 8)) (8 * (length message + 1)));
      [assumption|]. apply Hiff in H0. lia.
Qed.

Lemma X6_witness :
  embed (1 / 10) (black 8 128) [72%N; 105%N] = CapacityError 2.
Proof.
  assert (Hs : has_shape 8 128 (black 8 128)) by apply has_shape_repeat.
  assert (Hm : Forall (fun c => (c < 256)%N) [72%N; 105%N]) by (repeat constructor).
  destruct (X6_max_length_off_by_one (1 / 10) (black 8 128) 8 128 [72%N; 105%N] Hs Hm)
    as [_ H].
  apply H. reflexivity.
Defined.

(** X7 - Images smaller than one block.  If either dimension is below 8
    there is no block: [embed] fails with a capacity error reporting a
    maximum of 0 characters, for every message, and [extract] returns the
    empty text, for every expected length. *)
Theorem X7_no_block (alpha : R) (image : list (list Z)) (h w : nat)
    (message : list N) (message_length : option Z) :
  has_shape h w image -> h < 8 \/ w < 8 ->
  embed alpha image message = CapacityError 0
  /\ extract image message_length = [].
Proof.
  intros H Hsmall.
  assert (Hcap : (h / 8) * (w / 8) = 0).
  { destruct Hsmall as [Hh|Hw]; [rewrite (Nat.div_small h 8 Hh)|rewrite (Nat.div_small w 8 Hw)];
      lia. }
  split.
  - rewrite (embed_too_long alpha h w image message H).
    + now rewrite Hcap.
    + rewrite Hcap. unfold binary_message. rewrite length_app. cbn. lia.
  - unfold extract.
    pose proof (length_collect_bits h w image message_length H) as Hl.
    rewrite Hcap in Hl. destruct (collect_bits image message_length); [reflexivity|].
    cbn in Hl. lia.
Qed.

Lemma X7_witness :
  embed (1 / 10) (black 7 100) [65%N] = CapacityError 0
  /\ extract (black 7 100) None = [].
Proof.
  apply (X7_no_block (1 / 10) (black 7 100) 7 100 [65%N] None).
  - apply has_shape_repeat.
  - left. lia.
Defined.

(** X8 - What [extract] can return.  Every character of the extracted
    text is in the accepted set (32..126, 9, 10, 13), and the text has at
    most (number of blocks) // 8 characters. *)
Theorem X8_extract_output (image : list (list Z)) (h w : nat)
    (message_length : option Z) :
  has_shape h w image ->
  Forall (fun c => printable c = true) (extract image message_length)
  /\ length (extract image message_length) <= (h / 8) * (w / 8) / 8.
Proof.
  intros H. split; [apply decode_printable|].
  unfold extract. etransitivity; [apply length_decode|].
  apply Nat.Div0.div_le_mono. now apply length_collect_bits.
Qed.

Lemma X8_witness :
  length (extract terminator_then_text None) <= 2.
Proof.
  assert (Hs : has_shape 16 64 terminator_then_text).
  { unfold terminator_then_text, with_sample.
    apply set_entry_shape; [|lia]. apply set_entry_shape; [|lia]. apply has_shape_repeat. }
  destruct (X8_extract_output terminator_then_text 16 64 None Hs) as [_ H].
  exact H.
Defined.

(** X9 - No terminator, best effort.  Without an expected length, if the
    blocks of the grid encode no zero byte at a byte boundary, the scan
    runs out of blocks and the text is decoded from the bits of all the
    blocks. *)
Theorem X9_no_terminator (image : list (list Z)) (message_length : option Z) :
  given message_length = false ->
  clean (raster_bits image) ->
  collect_bits image message_length = raster_bits image
  /\ extract image message_length = decode (raster_bits image).
Proof.
  intros Hg Hc.
  assert (E : collect_bits image message_length = raster_bits image)
    by now apply collect_bits_no_terminator.
  split; [exact E|]. unfold extract. now rewrite E.
Qed.

Lemma X9_witness :
  extract (with_sample (black 8 8) 0 0 255%Z) None
  = decode (raster_bits (with_sample (black 8 8) 0 0 255%Z)).
Proof.
  assert (Hg : given None = false) by reflexivity.
  assert (Hc : clean (raster_bits (with_sample (black 8 8) 0 0 255%Z))).
  { rewrite (raster_bits_table _ (fun _ _ => true))
      by block_table block_bit_black block_bit_corner.
    intros j Hj. change (8 * j + 8 <= 1) in Hj. lia. }
  destruct (X9_no_terminator _ None Hg Hc) as [_ H]. exact H.
Defined.

(** X10 - Terminator in the last block row.  Without an expected length,
    if the bits of the blocks start with a sequence of non-zero bytes
    followed by the zero byte, and that zero byte ends in the last block
    row of the grid, the collected bits are exactly the bytes before it:
    there the scan stops at the first terminator and nothing after it
    reaches the text. *)
Theorem X10_terminator_in_last_row (image : list (list Z)) (h w : nat)
    (message_length : option Z) (before : list bool) :
  has_shape h w image ->
  given message_length = false ->
  clean before -> length before mod 8 = 0 ->
  firstn (length before + 8) (raster_bits image) = before ++ terminator ->
  (h / 8 - 1) * (w / 8) < length before + 8 ->
  collect_bits image message_length = before
  /\ extract image message_length = decode before.
Proof.
  intros H Hg Hc Hmod Hbits Hlast.
  assert (E : collect_bits image message_length = before)
    by now apply (collect_bits_payload h w).
  split; [exact E|]. unfold extract. now rewrite E.
Qed.

Lemma X10_witness :
  extract (black 8 64) None = [].
Proof.
  assert (Hs : has_shape 8 64 (black 8 64)) by apply has_shape_repeat.
  assert (Hg : given None = false) by reflexivity.
  assert (Hc : clean []) by (intros j Hj; cbn in Hj; lia).
  assert (Hmod : length (@nil bool) mod 8 = 0) by reflexivity.
  assert (Hbits : firstn (length (@nil bool) + 8) (raster_bits (black 8 64))
                  = [] ++ terminator).
  { rewrite (raster_bits_table _ (fun _ _ => false))
      by block_table block_bit_black block_bit_corner.
    vm_compute. reflexivity. }
  assert (Hlast : (8 / 8 - 1) * (64 / 8) < length (@nil bool) + 8) by (cbn; lia).
  destruct (X10_terminator_in_last_row (black 8 64) 8 64 None [] Hs Hg Hc Hmod Hbits Hlast)
    as [_ H].
  exact H.
Defined.

(** X11 - Without an expected length the test after a block row never
    stops the scan: every block row is visited, each up to its first
    completed zero byte, which is removed.  The collected bits therefore
    never contain a zero byte at a byte boundary. *)
Theorem X11_every_block_row_scanned (image : list (list Z))
    (message_length : option Z) :
  given message_length = false ->
  collect_bits image message_length
  = fold_left
      (fun b y =>
         extract_row message_length
           (fun x => block_bit (get_block (extract_truncate image) y x))
           (range (snd (shape (extract_truncate image))) block_size) b)
      (range (fst (shape (extract_truncate image))) block_size) []
  /\ clean (collect_bits image message_length).
Proof.
  intros Hg. split; [now apply collect_bits_all_rows|now apply collect_bits_clean].
Qed.

Lemma X11_witness : clean (collect_bits terminator_then_text (Some 0%Z)).
Proof.
  assert (Hg : given (Some 0%Z) = false) by reflexivity.
  destruct (X11_every_block_row_scanned terminator_then_text (Some 0%Z) Hg) as [_ H].
  exact H.
Defined.

(** X12 - A negative expected length stops the scan before the first
    block: the extracted text is empty. *)
Theorem X12_negative_length (image : list (list Z)) (n : Z) :
  (n < 0)%Z ->
  collect_bits image (Some n) = [] /\ extract image (Some n) = [].
Proof.
  intros Hn.
  assert (E : collect_bits image (Some n) = []).
  { rewrite collect_bits_length by lia.
    replace (Z.to_nat n) with 0 by lia. reflexivity. }
  split; [exact E|]. unfold extract. rewrite E. reflexivity.
Qed.

Lemma X12_witness : extract terminator_then_text (Some (-5)%Z) = [].
Proof.
  assert (Hn : (-5 < 0)%Z) by lia.
  destruct (X12_negative_length terminator_then_text (-5)%Z Hn) as [_ H]. exact H.
Defined.

(** X13 - Bytes and 8-bit groups.  Parsing the binary formatting of any
    code point gives the code point back; formatting the value of any
    8-bit group gives the group back, and that value is below 256; the
    digits of a byte are written most significant bit first. *)
Theorem X13_byte_round_trip :
  (forall c : N, int2 (format_08b c) = c)
  /\ (forall g : list bool, length g = 8 ->
        format_08b (int2 g) = g /\ (int2 g < 256)%N)
  /\ (forall (c : N) (i : nat), (c < 256)%N -> i < 8 ->
        nth i (format_08b c) false = N.testbit c (N.of_nat (7 - i))).
Proof.
  assert (Hgroup : forall g : list bool, length g = 8 ->
            format_08b (int2 g) = g /\ (int2 g < 256)%N
            /\ forall i, i < 8 ->
                 nth i g false = N.testbit (int2 g) (N.of_nat (7 - i))).
  { intros g Hg.
    do 9 (destruct g as [|? g]; try discriminate).
    repeat match goal with b : bool |- _ => destruct b end;
      (split; [reflexivity|split; [reflexivity|]]);
      intros i Hi; do 8 (destruct i as [|i]; [reflexivity|]); lia. }
  split; [apply int2_format_08b|]. split.
  - intros g Hg. destruct (Hgroup g Hg) as (H1 & H2 & _). now split.
  - intros c i Hc Hi.
    destruct (Hgroup (format_08b c) (length_format_08b c Hc)) as (_ & _ & H).
    rewrite (H i Hi), int2_format_08b. reflexivity.
Qed.

Lemma X13_witness :
  format_08b (int2 [false; true; false; false; false; false; false; true])
  = [false; true; false; false; false; false; false; true]
  /\ nth 1 (format_08b 65) false = N.testbit 65 6.
Proof.
  destruct X13_byte_round_trip as (_ & Hgroup & Hmsb). split.
  - apply Hgroup. reflexivity.
  - apply (Hmsb 65%N 1); [reflexivity|lia].
Defined.

(** X14 - Decoding a payload.  For a message of byte characters, decoding
    the whole payload bitstream returns the accepted characters of the
    message in order: the terminator and every character outside the
    accepted set (a control character, a code above 126) decode to
    nothing, so only messages of accepted characters can come back
    unchanged. *)
Theorem X14_payload_decodes (message : list N) :
  Forall (fun c => (c < 256)%N) message ->
  decode (binary_message message) = filter printable message
  /\ (decode (binary_message message) = message
      <-> Forall (fun c => printable c = true) message).
Proof.
  intros Hm.
  assert (E : decode (binary_message message) = filter printable message).
  { unfold binary_message.
    replace (concat (map format_08b message) ++ terminator)
      with (concat (map format_08b message ++ [terminator]) ++ [])
      by (rewrite concat_app; cbn [concat]; now rewrite !app_nil_r).
    rewrite decode_groups.
    - rewrite map_app, filter_app, map_map.
      rewrite (map_ext _ (fun c => c)) by apply int2_format_08b.
      rewrite map_id. cbn. apply app_nil_r.
    - apply Forall_app. split; [|repeat constructor].
      rewrite Forall_map. revert Hm. apply Forall_impl. intros c Hc.
      now apply length_format_08b.
    - cbn. lia. }
  split; [exact E|]. rewrite E. split.
  - intros Hf. rewrite <- Hf. apply Forall_forall. intros c Hc.
    apply filter_In in Hc. apply Hc.
  - intros Hp. apply forallb_filter_id. now apply forallb_forall, Forall_forall.
Qed.

Lemma X14_witness :
  decode (binary_message [72%N; 233%N; 105%N; 7%N]) = [72%N; 105%N].
Proof.
  assert (Hm : Forall (fun c => (c < 256)%N) [72%N; 233%N; 105%N; 7%N])
    by (repeat constructor).
  destruct (X14_payload_decodes _ Hm) as [H _]. exact H.
Defined.

(** X15 - Round trip with the expected length.  If the blocks of a grid
    carry, in raster order, the bits of a non-empty message of accepted
    characters, extracting with the expected length 8 * len(message)
    returns the message: no terminator is needed and the block rows
    after the message are not visited. *)
Theorem X15_length_mode_round_trip (image : list (list Z)) (message : list N) :
  message <> [] ->
  Forall (fun c => printable c = true) message ->
  firstn (8 * length message) (raster_bits image) = concat (map format_08b message) ->
  extract image (Some (Z.of_nat (8 * length message))) = message.
Proof.
  intros Hne Hm Hbits. now apply extract_with_length.
Qed.

Lemma X15_witness :
  extract (with_sample (with_sample (black 8 64) 0 8 255%Z) 0 56 255%Z) (Some 8%Z)
  = [65%N].
Proof.
  apply (X15_length_mode_round_trip _ [65%N]).
  - discriminate.
  - repeat constructor.
  - rewrite (raster_bits_table _ (fun _ x => Nat.eqb x 8 || Nat.eqb x 56))
      by block_table block_bit_black block_bit_corner.
    vm_compute. reflexivity.
Defined.

(** X16 - Round trip on black covers.  From strength 16 on, a message of
    accepted characters embedded in an all-black grid that can hold it is
    read back: without an expected length when the payload ends in the
    last block row, and with the expected length 8 * len(message) in any
    grid, when the message is not empty. *)
Theorem X16_black_cover_round_trip (alpha : R) (h w : nat) (message : list N) :
  (16 <= alpha)%R ->
  Forall (fun c => printable c = true) message ->
  8 * (length message + 1) <= (h / 8) * (w / 8) ->
  exists stego bit_index total,
    embed alpha (black h w) message = Embedded stego bit_index total
    /\ ((h / 8 - 1) * (w / 8) < 8 * (length message + 1) ->
        extract stego None = message)
    /\ (message <> [] ->
        extract stego (Some (Z.of_nat (8 * length message))) = message).
Proof.
  intros Ha Hm Hfit.
  assert (H : has_shape h w (black h w)) by apply has_shape_repeat.
  pose proof (length_binary_message message (printable_bytes message Hm)) as Hlen.
  pose proof (length_message_bits message (printable_bytes message Hm)) as HlenM.
  destruct (embed_fits alpha h w (black h w) message H) as [st [E _]];
    [now rewrite Hlen|].
  eexists _, _, _. split; [exact E|].
  pose proof (stego_black_raster alpha h w message _ _ _ Ha E) as Hbits.
  destruct (embed_result_shape alpha h w _ _ _ _ _ H E) as [_ Hs].
  split.
  - intros Hlast. unfold extract.
    rewrite (collect_bits_payload _ _ _ None (concat (map format_08b message)) Hs).
    + now apply decode_message.
    + reflexivity.
    + apply clean_groups. now apply printable_groups.
    + rewrite HlenM, Nat.mul_comm. apply Nat.Div0.mod_mul.
    + rewrite HlenM. rewrite Hlen in Hbits.
      replace (8 * length message + 8) with (8 * (length message + 1)) by lia.
      exact Hbits.
    + rewrite !Nat.div_mul, HlenM by lia. lia.
  - intros Hne. apply extract_with_length; try assumption.
    apply (f_equal (firstn (8 * length message))) in Hbits.
    rewrite firstn_firstn, Nat.min_l in Hbits by lia.
    rewrite Hbits. unfold binary_message.
    rewrite firstn_app, HlenM, Nat.sub_diag. cbn [firstn]. rewrite app_nil_r.
    apply firstn_all2. lia.
Qed.

Lemma X16_witness :
  exists stego bit_index total,
    embed 16 (black 24 64) [79%N; 75%N] = Embedded stego bit_index total
    /\ extract stego None = [79%N; 75%N]
    /\ extract stego (Some 16%Z) = [79%N; 75%N].
Proof.
  assert (Ha : (16 <= 16)%R) by lra.
  assert (Hm : Forall (fun c => printable c = true) [79%N; 75%N]) by (repeat constructor).
  assert (Hfit : 8 * (length [79%N; 75%N] + 1) <= 24 / 8 * (64 / 8)) by (cbn; lia).
  destruct (X16_black_cover_round_trip 16 24 64 [79%N; 75%N] Ha Hm Hfit)
    as (stego & bi & total & E & Hterm & Hlen).
  exists stego, bi, total. split; [exact E|]. split.
  - apply Hterm. cbn. lia.
  - apply Hlen. discriminate.
Defined.

(** X17 - Exit status of [main].  With the dependencies present, an
    image that loads and an output that can be written, the [embed]
    command exits with 0 exactly when the message (of byte characters)
    has fewer than capacity // 8 characters; it then writes an 8-bit
    image of the cropped dimensions, and writes nothing otherwise.  The
    [extract] command exits with 0 whenever the image loads and prints
    the extracted text, empty or not.  A missing dependency, an image
    that does not load, a failed write or a missing command give exit
    status 1. *)
Theorem X17_main_outcome (alpha : R) (image : list (list Z)) (h w : nat)
    (message : list N) (message_length : option Z) :
  has_shape h w image ->
  Forall (fun c => (c < 256)%N) message ->
  let embed_run := Cli.main true (Cli.Embed (Some image) message alpha false) in
  (Cli.exit_status embed_run = 0 <-> length message < (h / 8) * (w / 8) / 8)
  /\ (Cli.exit_status embed_run = 0 ->
      exists stego, Cli.written embed_run = Some stego
                    /\ has_shape (h / 8 * 8) (w / 8 * 8) stego
                    /\ uint8_grid stego)
  /\ (Cli.exit_status embed_run <> 0 ->
      Cli.exit_status embed_run = 1 /\ Cli.written embed_run = None)
  /\ Cli.main true (Cli.Extract (Some image) message_length)
     = {| Cli.exit_status := 0; Cli.written := None;
          Cli.printed := Some (extract image message_length) |}
  /\ (forall cmd, Cli.exit_status (Cli.main false cmd) = 1)
  /\ (forall write_error,
        Cli.exit_status (Cli.main true (Cli.Embed None message alpha write_error)) = 1)
  /\ Cli.exit_status (Cli.main true (Cli.Embed (Some image) message alpha true)) = 1
  /\ Cli.exit_status (Cli.main true (Cli.Extract None message_length)) = 1
  /\ Cli.exit_status (Cli.main true Cli.No_command) = 1.
Proof.
  intros H Hm embed_run.
  pose proof (length_binary_message message Hm) as Hlen.
  assert (Hiff : 8 * (length message + 1) <= h / 8 * (w / 8)
                 <-> length message < (h / 8) * (w / 8) / 8).
  { pose proof (Nat.div_mod_eq (h / 8 * (w / 8)) 8).
    pose proof (Nat.mod_upper_bound (h / 8 * (w / 8)) 8). lia. }
  assert (Hcases :
    (length message < (h / 8) * (w / 8) / 8
     /\ exists stego, embed_run = {| Cli.exit_status := 0; Cli.written := Some stego;
                                     Cli.printed := None |}
                      /\ has_shape (h / 8 * 8) (w / 8 * 8) stego /\ uint8_grid stego)
    \/ (~ length message < (h / 8) * (w / 8) / 8
        /\ embed_run = {| Cli.exit_status := 1; Cli.written := None;
                          Cli.printed := None |})).
  { unfold embed_run, Cli.main, Cli.embed_method. cbn [negb].
    destruct (Nat.lt_ge_cases (h / 8 * (w / 8)) (8 * (length message + 1))) as [Hlong|Hfit].
    - right. split; [intros Hc; apply Hiff in Hc; lia|].
      rewrite (embed_too_long alpha h w image message H) by now rewrite Hlen.
      reflexivity.
    - left. split; [now apply Hiff|].
      destruct (embed_fits alpha h w image message H) as [st [E _]]; [now rewrite Hlen|].
      rewrite E. cbn [negb]. eexists. split; [reflexivity|].
      destruct (embed_result_shape alpha h w _ _ _ _ _ H E) as [_ Hs].
      split; [exact Hs|apply quantize_uint8]. }
  split; [|split; [|split; [|split; [|split; [|split; [|split; [|split]]]]]]].
  - destruct Hcases as [[Hlt (s & E & _)]|[Hnlt E]]; rewrite E; cbn; split; auto;
      try discriminate; contradiction.
  - destruct Hcases as [[Hlt (s & E & Hs & Hu)]|[Hnlt E]]; rewrite E; cbn.
    + intros _. now exists s.
    + discriminate.
  - destruct Hcases as [[Hlt (s & E & _)]|[Hnlt E]]; rewrite E; cbn.
    + intros Hc. now contradiction Hc.
    + now split.
  - reflexivity.
  - reflexivity.
  - reflexivity.
  - unfold Cli.main, Cli.embed_method. cbn [negb].
    destruct (embed alpha image message); reflexivity.
  - reflexivity.
  - reflexivity.
Qed.

Lemma X17_witness :
  Cli.exit_status (Cli.main true (Cli.Embed (Some (black 8 128)) [65%N] (1 / 10) false)) = 0
  /\ Cli.exit_status
       (Cli.main true (Cli.Embed (Some (black 8 128)) [72%N; 105%N] (1 / 10) false)) <> 0.
Proof.
  assert (Hs : has_shape 8 128 (black 8 128)) by apply has_shape_repeat.
  split.
  - assert (Hm : Forall (fun c => (c < 256)%N) [65%N]) by (repeat constructor).
    destruct (X17_main_outcome (1 / 10) (black 8 128) 8 128 [65%N] None Hs Hm) as [H _].
    apply H. cbn. lia.
  - assert (Hm : Forall (fun c => (c < 256)%N) [72%N; 105%N]) by (repeat constructor).
    destruct (X17_main_outcome (1 / 10) (black 8 128) 8 128 [72%N; 105%N] None Hs Hm)
      as [H _].
    intros Hc. apply H in Hc. cbn in Hc. lia.
Defined.

(** X18 - Zoom and pan stay in bounds.  After any sequence of events,
    whatever the canvas sizes, the zoom factor of the preview window is
    between 0.1 and 10 and neither offset is negative. *)
Theorem X18_view_bounds (h w : nat) (events : list Preview.event) :
  let v := Preview.run h w events in
  (1 / 10 <= Preview.scale v <= 10)%R
  /\ (0 <= Preview.offset_x v)%R /\ (0 <= Preview.offset_y v)%R.
Proof.
  cbn zeta. unfold Preview.run. apply (fold_well_formed h w events Preview.initial).
  unfold Preview.well_formed, Preview.initial. cbn. lra.
Qed.

(** X19 - The image is never panned past its far edges.  After a wheel
    event that zooms, and after a mouse move while dragging, each offset
    is at most the scaled image size minus the canvas size, or 0 when the
    scaled image fits in the canvas. *)
Theorem X19_pan_limits (h w : nat) (cw ch : Z) (v : Preview.view) :
  (forall num delta cx cy zoom_in,
      Preview.zoom_direction num delta = Some zoom_in ->
      let v' := Preview.on_mouse_wheel h w cw ch num delta cx cy v in
      (Preview.offset_x v' <= Rmax 0 (INR w * Preview.scale v' - IZR cw))%R
      /\ (Preview.offset_y v' <= Rmax 0 (INR h * Preview.scale v' - IZR ch))%R)
  /\ (forall x y,
         Preview.dragging v = true ->
         let v' := Preview.on_mouse_move h w cw ch x y v in
         (Preview.offset_x v' <= Rmax 0 (INR w * Preview.scale v' - IZR cw))%R
         /\ (Preview.offset_y v' <= Rmax 0 (INR h * Preview.scale v' - IZR ch))%R).
Proof.
  split.
  - intros num delta cx cy z Hz v'. unfold v', Preview.on_mouse_wheel.
    rewrite Hz. unfold Preview.clamp_offsets.
    cbn [Preview.scale Preview.offset_x Preview.offset_y].
    split; apply clamp_offset_range.
  - intros x y Hd v'. unfold v', Preview.on_mouse_move.
    rewrite Hd. unfold Preview.clamp_offsets.
    cbn [Preview.scale Preview.offset_x Preview.offset_y].
    split; apply clamp_offset_range.
Qed.

Lemma X19_witness :
  (Preview.offset_x
     (Preview.on_mouse_move 100 100 400 300 30 40
        (Preview.on_mouse_down 50 50 Preview.initial))
   <= Rmax 0 (INR 100 * Preview.scale
                (Preview.on_mouse_move 100 100 400 300 30 40
                   (Preview.on_mouse_down 50 50 Preview.initial))
              - IZR 400))%R.
Proof.
  destruct (X19_pan_limits 100 100 400 300 (Preview.on_mouse_down 50 50 Preview.initial))
    as [_ H].
  destruct (H 30%Z 40%Z eq_refl) as [Hx _]. exact Hx.
Defined.

(** X20 - Zooming keeps the point under the pointer in place.  For a
    view with a positive zoom factor, if the offsets computed for the new
    zoom factor are within the pan limits (so that clamping leaves them),
    the image point under the pointer is the same before and after the
    wheel event, in exact arithmetic. *)
Theorem X20_zoom_about_pointer (h w : nat) (cw ch : Z) (num delta : option Z)
    (cx cy : R) (v : Preview.view) (zoom_in : bool) :
  Preview.zoom_direction num delta = Some zoom_in ->
  (0 < Preview.scale v)%R ->
  let v' := Preview.on_mouse_wheel h w cw ch num delta cx cy v in
  let s' := Preview.scale v' in
  (0 <= (cx + Preview.offset_x v) / Preview.scale v * s' - cx
     <= INR w * s' - IZR cw)%R ->
  (0 <= (cy + Preview.offset_y v) / Preview.scale v * s' - cy
     <= INR h * s' - IZR ch)%R ->
  ((cx + Preview.offset_x v') / s' = (cx + Preview.offset_x v) / Preview.scale v)%R
  /\ ((cy + Preview.offset_y v') / s' = (cy + Preview.offset_y v) / Preview.scale v)%R.
Proof.
  intros Hz Hs v' s'.
  assert (Hs' : (1 / 10 <= s')%R).
  { unfold s', v', Preview.on_mouse_wheel. rewrite Hz. unfold Preview.clamp_offsets.
    cbn [Preview.scale]. apply clamp_bounds. lra. }
  unfold s' in *. unfold v' in *. unfold Preview.on_mouse_wheel in *.
  rewrite Hz in *. unfold Preview.clamp_offsets in *.
  cbn [Preview.scale Preview.offset_x Preview.offset_y] in *.
  intros Hx Hy. rewrite !clamp_offset_inside by assumption.
  split; field; lra.
Qed.

Lemma X20_witness :
  ((10 + Preview.offset_x
           (Preview.on_mouse_wheel 100 100 50 50 (Some 4%Z) None 10 10 Preview.initial))
   / Preview.scale
       (Preview.on_mouse_wheel 100 100 50 50 (Some 4%Z) None 10 10 Preview.initial)
   = (10 + Preview.offset_x Preview.initial) / Preview.scale Preview.initial)%R.
Proof.
  assert (Hz : Preview.zoom_direction (Some 4%Z) None = Some true) by reflexivity.
  assert (Hs : (0 < Preview.scale Preview.initial)%R) by (cbn; lra).
  assert (E : Preview.scale
                (Preview.on_mouse_wheel 100 100 50 50 (Some 4%Z) None 10 10
                   Preview.initial) = (11 / 10)%R).
  { unfold Preview.on_mouse_wheel. rewrite Hz. cbn.
    unfold Rmax, Rmin. destruct (Rle_dec 10 _), (Rle_dec (1 / 10) _); lra. }
  assert (H100 : INR 100 = 100%R) by (rewrite INR_IZR_INZ; reflexivity).
  destruct (X20_zoom_about_pointer 100 100 50 50 (Some 4%Z) None 10 10
              Preview.initial true Hz Hs) as [H _].
  - rewrite E, H100. cbn. lra.
  - rewrite E, H100. cbn. lra.
  - exact H.
Defined.
